(** * aws-access-keys-id-lister: a model of the enumeration engine

    The program reads a CSV list of (account id, role name) pairs,
    assumes each role, lists the IAM users of each account page by page,
    hands every user to a pool of worker goroutines that list the user's
    access keys page by page, collects one result per user on an
    unbuffered channel and writes the users that have keys to a CSV file.

    The development follows the three source files:
    - the CSV helpers ([validateCSVAccountRoleData],
      [getAccountRoleListFromCSV], [getRoleARN], [getAccountId],
      [writeRecordsToCSV]);
    - [main] up to the point where the goroutines are started, as a
      sequential computation in a small state-and-exit monad whose state
      is the log of remote calls;
    - the goroutines and the two channels of [main] and [worker], as a
      labelled transition system.

    Go strings are byte strings: [String.length] is Go's [len]. *)

From stdpp Require Import base list strings pretty gmap.
From Stdlib Require Import ZArith Lia Ascii.

Open Scope string_scope.
Open Scope nat_scope.
Open Scope list_scope.
Open Scope stdpp_scope.

(** ** Values of the Go runtime *)

(** A Go [error] is modelled by its message. *)
Definition error := string.

(** A slice of strings that may be the nil slice ([None]). *)
Definition stringSlice := option (list string).

(** [isInfix s t]: the bytes of [s] occur contiguously in [t]. *)
Fixpoint isInfix (s t : string) : bool :=
  String.prefix s t ||
  match t with
  | EmptyString => false
  | String _ t' => isInfix s t'
  end.

(** ** The CSV helpers *)

Module csv.

(** What one call of the reader's [Read] method returns. *)
Inductive readResult :=
| Record (record : list string)
| EOF
| ParseError (Line Column : nat) (err : error)
| OtherError (err : error).

(** An open reader: the results of its successive [Read] calls; a
    reader whose script is used up reports [io.EOF]. *)
Definition Reader := list readResult.

(** The error [ErrFieldCount] of the package. *)
Definition ErrFieldCount : error := "wrong number of fields".

(** What [Read] returns for a record on [line] that has not the
    expected number of fields:
    [&ParseError{StartLine: line, Line: line, Column: 1, Err: ErrFieldCount}],
    given here with the text of its [Error] method. *)
Definition fieldCount (line : nat) : readResult :=
  ParseError line 1 ("record on line " +:+ pretty line +:+ ": " +:+ ErrFieldCount).

(** The results of [Read] for a text that parses into the records
    [parsed], each given with the line it is on.  When
    [FieldsPerRecord] is positive every record must have that many
    fields; when it is 0 the record read sets it. *)
Fixpoint reads (FieldsPerRecord : nat) (parsed : list (nat * list string)) : Reader :=
  match parsed with
  | [] => []
  | (line, record) :: parsed' =>
      if Nat.ltb 0 FieldsPerRecord then
        (if Nat.eqb (length record) FieldsPerRecord then Record record
         else fieldCount line) :: reads FieldsPerRecord parsed'
      else Record record :: reads (length record) parsed'
  end.

(** [NewReader] leaves [FieldsPerRecord] at 0, and the program does
    not set it: the first record of the file fixes the number of fields
    of all records. *)
Definition NewReader (parsed : list (nat * list string)) : Reader := reads 0 parsed.

End csv.

Definition validateCSVAccountRoleData (record : stringSlice) : option error :=
  match record with
  | None => Some "cannot read empty account role data"
  | Some [] => Some "account role must contain some data"
  | Some ((accountId :: _) as fields) =>
      if negb (Nat.eqb (length fields) 2) then
        Some ("validation failed for account " +:+ accountId +:+
              ", the number of data for this account is not 2 columns")
      else if negb (Nat.eqb (String.length accountId) 12) then
        Some ("validation failed for account " +:+ accountId +:+
              ", the account id must be 12 characters")
      else None
  end.

(** The read loop of [getAccountRoleListFromCSV], over the reader. *)
Fixpoint readAccountRoles (r : csv.Reader) (accountRoleList : list (list string))
  : error + list (list string) :=
  match r with
  | [] | csv.EOF :: _ => inr accountRoleList
  | csv.ParseError line column err :: _ =>
      inl ("error when parsing csv in line " +:+ pretty line +:+
           " column " +:+ pretty column +:+ ", " +:+ err)
  | csv.OtherError err :: _ => inl err
  | csv.Record record :: r' =>
      match validateCSVAccountRoleData (Some record) with
      | Some err => inl err
      | None => readAccountRoles r' (accountRoleList ++ [record])
      end
  end.

(** [open filename] is what [os.Open] and [csv.NewReader] give. *)
Definition getAccountRoleListFromCSV (open : string → error + csv.Reader)
    (filename : string) : error + list (list string) :=
  match open filename with
  | inl err => inl err
  | inr r => readAccountRoles r []
  end.

(** Indexing a slice out of range panics: [None]. *)
Definition getAccountId (accountRoleData : list string) : option string :=
  accountRoleData !! 0.

Definition getRoleARN (accountRoleData : list string) : option string :=
  match accountRoleData !! 0, accountRoleData !! 1 with
  | Some accountId, Some roleName =>
      Some ("arn:aws:iam::" +:+ accountId +:+ ":role/" +:+ roleName)
  | _, _ => None
  end.

(** ** Rendering a time with a layout

    The part of Go's [Time.Format] that the program uses.  A [Time] is
    given by the wall-clock fields and the zone offset (seconds east of
    UTC) that [Format] reads off the instant. *)

Module time.

Record Time := {
  Year : Z; Month : Z; Day : Z;
  Hour : Z; Minute : Z; Second : Z;
  Offset : Z
}.

(** The layout elements that occur in the program's layout. *)
Inductive chunk :=
| stdLongYear            (* "2006" *)
| stdZeroMonth           (* "01" *)
| stdZeroDay             (* "02" *)
| stdHour                (* "15" *)
| stdZeroMinute          (* "04" *)
| stdZeroSecond          (* "05" *)
| stdNumColonTZ          (* "-07:00" *)
| literal (c : Ascii.ascii).

Definition stdChunks : list (string * chunk) :=
  [ ("2006", stdLongYear); ("01", stdZeroMonth); ("02", stdZeroDay);
    ("15", stdHour); ("04", stdZeroMinute); ("05", stdZeroSecond);
    ("-07:00", stdNumColonTZ) ].

Definition stdChunkAt (layout : string) : option (string * chunk) :=
  find (λ sc, String.prefix sc.1 layout) stdChunks.

(** Splits a layout into elements; [skip] bytes belong to the element
    found last. *)
Fixpoint chunks (layout : string) (skip : nat) : list chunk :=
  match layout with
  | EmptyString => []
  | String c layout' =>
      match skip with
      | S skip' => chunks layout' skip'
      | O =>
          match stdChunkAt layout with
          | Some (std, ch) => ch :: chunks layout' (String.length std - 1)
          | None => literal c :: chunks layout' 0
          end
      end
  end.

(** Decimal digits of [x], signed, zero-padded to [width]. *)
Definition appendInt (x : Z) (width : nat) : string :=
  let digits := pretty (Z.to_N (Z.abs x)) in
  (if (x <? 0)%Z then "-" else "") +:+
  String.concat "" (replicate (width - String.length digits) "0") +:+
  digits.

Definition appendChunk (t : Time) (ch : chunk) : string :=
  match ch with
  | stdLongYear => appendInt (Year t) 4
  | stdZeroMonth => appendInt (Month t) 2
  | stdZeroDay => appendInt (Day t) 2
  | stdHour => appendInt (Hour t) 2
  | stdZeroMinute => appendInt (Minute t) 2
  | stdZeroSecond => appendInt (Second t) 2
  | stdNumColonTZ =>
      let zone := (Offset t ÷ 60)%Z in
      (if (zone <? 0)%Z then "-" else "+") +:+
      appendInt (Z.abs zone ÷ 60) 2 +:+ ":" +:+ appendInt (Z.rem (Z.abs zone) 60) 2
  | literal c => String c ""
  end.

Definition Format (t : Time) (layout : string) : string :=
  String.concat "" (appendChunk t <$> chunks layout 0).

End time.

(** ** The remote services and the files *)

Module sts.
Record Credentials := {
  AccessKeyId : string;
  SecretAccessKey : string;
  SessionToken : string
}.
End sts.

Module iam.

(** A client is determined by the credentials it was built from. *)
Definition Client := sts.Credentials.

Record User := { UserName : string }.

Record ListUsersOutput := {
  Users : list User;
  usersIsTruncated : bool;
  usersMarker : option string
}.

Record AccessKeyMetadata := {
  AccessKeyId : string;
  CreateDate : time.Time
}.

Record ListAccessKeysOutput := {
  AccessKeyMetadataList : list AccessKeyMetadata;
  keysIsTruncated : bool;
  keysMarker : option string
}.

End iam.

(** The content of a CSV file: the records written to it. *)
Abbreviation files := (gmap string (list (list string))).

(** Everything the process talks to.  Every operation is a function of
    its request; an [error] is the failure it reports. *)
Record World := {
  LoadDefaultConfig : string → option error;
  Open : string → error + csv.Reader;
  AssumeRole : string → error + sts.Credentials;
  LoadAssumedConfig : sts.Credentials → option error;
  ListUsers : iam.Client → option string → error + iam.ListUsersOutput;
  ListAccessKeys :
    iam.Client → string → option string → error + iam.ListAccessKeysOutput;
  Create : string → option error;
  Write : list string → option error;
  Flush : list (list string) → option error
}.

(** ** The program's own types *)

Record inputUser := {
  iamClient : iam.Client;
  name : string;
  accountId : string
}.

Record accessKey := {
  keyId : string;
  createdDate : string
}.

Record outputUser := {
  outName : string;
  outAccountId : string;
  accessKeys : list accessKey
}.

Record options := {
  awsProfileName : string;
  showDebug : bool;
  accountListFile : string;
  outputFile : string;
  numOfWorker : Z
}.

(** The values of the flags when none is given. *)
Definition defaultOptions : options :=
  {| awsProfileName := "default"; showDebug := false;
     accountListFile := "accountlist.csv"; outputFile := "output.csv";
     numOfWorker := 10 |}.

#[global] Instance sts_Credentials_eq_dec : EqDecision sts.Credentials.
Proof. solve_decision. Defined.
#[global] Instance inputUser_eq_dec : EqDecision inputUser.
Proof. solve_decision. Defined.
#[global] Instance accessKey_eq_dec : EqDecision accessKey.
Proof. solve_decision. Defined.
#[global] Instance outputUser_eq_dec : EqDecision outputUser.
Proof. solve_decision. Defined.

(** ** Running sequential code

    [logger.Fatal] and [log.Fatalf] print a message and end the process
    with status 1.  A computation either returns, ends the process with
    a fatal message, panics, or is still running when the fuel given to
    its loops is used up.  Its state is the log of the remote calls made
    so far, oldest first.  Informational and debug log lines are left
    out. *)

Record fatal := Fatal {
  fatalMsg : string;
  fatalFields : list (string * string)
}.

(** The field that [zap.Error] adds to a log entry. *)
Definition zapError (err : error) : string * string := ("error", err).

(** A call of an operation of an SDK client, as the program makes it.
    What the client does to carry it out, such as sending a request
    again under the SDK's retryer, which the clients keep, is inside the
    call. *)
Inductive remoteCall :=
| CallAssumeRole (roleArn : string)
| CallListUsers (svc : iam.Client) (marker : option string)
| CallListAccessKeys (svc : iam.Client) (userName : string) (marker : option string).

Inductive result (A : Type) :=
| Ok (a : A)
| Exit (f : fatal)
| Panic
| Spin.
Arguments Ok {A} a.
Arguments Exit {A} f.
Arguments Panic {A}.
Arguments Spin {A}.

Definition Run (A : Type) : Type := list remoteCall → result A * list remoteCall.

#[global] Instance Run_ret : MRet Run := λ A a log, (Ok a, log).

#[global] Instance Run_bind : MBind Run := λ A B k m log,
  match m log with
  | (Ok a, log') => k a log'
  | (Exit f, log') => (Exit f, log')
  | (Panic, log') => (Panic, log')
  | (Spin, log') => (Spin, log')
  end.

Definition exit {A} (msg : string) (fields : list (string * string)) : Run A :=
  λ log, (Exit (Fatal msg fields), log).

Definition spin {A} : Run A := λ log, (Spin, log).

(** A value that indexing produced, or the panic. *)
Definition indexed {A} (o : option A) : Run A :=
  λ log, (from_option Ok Panic o, log).

(** A remote call: logged, then answered by the world. *)
Definition remote {A} (c : remoteCall) (answer : A) : Run A :=
  λ log, (Ok answer, log ++ [c]).

(** ** [main], up to the start of the goroutines *)

Section Enumerate.

Context (world : World).

(** The work item appended for a listed user. *)
Definition newInputUser (assumeRoleIAMSvc : iam.Client) (accountId : string)
    (user : iam.User) : inputUser :=
  {| name := iam.UserName user;
     accountId := accountId;
     iamClient := assumeRoleIAMSvc |}.

(** The loop that lists the users of one account. *)
Fixpoint listUsersLoop (fuel : nat) (assumeRoleIAMSvc : iam.Client)
    (accountId : string) (marker : option string)
    (inputUserList : list inputUser) : Run (list inputUser) :=
  match fuel with
  | O => spin
  | S fuel' =>
      answer ← remote (CallListUsers assumeRoleIAMSvc marker)
                      (ListUsers world assumeRoleIAMSvc marker);
      match answer with
      | inl err => exit "error when listing user" [zapError err]
      | inr listUsersOutput =>
          let inputUserList' :=
            inputUserList ++
            (newInputUser assumeRoleIAMSvc accountId <$> iam.Users listUsersOutput) in
          if iam.usersIsTruncated listUsersOutput then
            listUsersLoop fuel' assumeRoleIAMSvc accountId
              (iam.usersMarker listUsersOutput) inputUserList'
          else mret inputUserList'
      end
  end.

(** The body of the loop over the account list. *)
Definition enumerateAccount (fuel : nat) (csvAccountRole : list string)
    (inputUserList : list inputUser) : Run (list inputUser) :=
  accountId ← indexed (getAccountId csvAccountRole);
  roleARN ← indexed (getRoleARN csvAccountRole);
  answer ← remote (CallAssumeRole roleARN) (AssumeRole world roleARN);
  match answer with
  | inl err =>
      exit "error when doing assume role" [("role_arn", roleARN); zapError err]
  | inr tempCredentials =>
      match LoadAssumedConfig world tempCredentials with
      | Some err =>
          exit "error when creating temporary config from the assumed role credentials"
               [("role_arn", roleARN); zapError err]
      | None =>
          listUsersLoop fuel tempCredentials accountId None inputUserList
      end
  end.

Fixpoint enumerateAccounts (fuel : nat) (csvAccountRoleList : list (list string))
    (inputUserList : list inputUser) : Run (list inputUser) :=
  match csvAccountRoleList with
  | [] => mret inputUserList
  | csvAccountRole :: rest =>
      inputUserList' ← enumerateAccount fuel csvAccountRole inputUserList;
      enumerateAccounts fuel rest inputUserList'
  end.

(** [main] from its first line to the computation of
    [numberOfUsers]; [fuel] bounds the pages listed per account. *)
Definition enumerateUsers (fuel : nat) (opts : options) : Run (list inputUser) :=
  match LoadDefaultConfig world (awsProfileName opts) with
  | Some err => exit "error when loading default config" [zapError err]
  | None =>
      match getAccountRoleListFromCSV (Open world) (accountListFile opts) with
      | inl err => exit "error when reading account list file" [zapError err]
      | inr csvAccountRoleList => enumerateAccounts fuel csvAccountRoleList []
      end
  end.

End Enumerate.

(** ** The work of a worker on one user *)

Definition keyLayout : string := "2006-01-02T15:04:05-07:00".

Section Worker.

Context (world : World).

(** How one turn of the key-listing loop ends. *)
Inductive pageStep :=
| NextPage (outputAccessKeyList : list iam.AccessKeyMetadata) (marker : option string)
| Break (outputAccessKeyList : list iam.AccessKeyMetadata)
| Fatalf (f : fatal).

(** One turn of the loop, after the call [ListAccessKeys] returned
    [answer]. *)
Definition keyPage (outputAccessKeyList : list iam.AccessKeyMetadata)
    (answer : error + iam.ListAccessKeysOutput) : pageStep :=
  match answer with
  | inl err => Fatalf (Fatal ("error when listing access key, " +:+ err) [])
  | inr listAccessKeysOutput =>
      if negb (Nat.eqb (length (iam.AccessKeyMetadataList listAccessKeysOutput)) 0) then
        let outputAccessKeyList' :=
          outputAccessKeyList ++ iam.AccessKeyMetadataList listAccessKeysOutput in
        if iam.keysIsTruncated listAccessKeysOutput then
          NextPage outputAccessKeyList' (iam.keysMarker listAccessKeysOutput)
        else Break outputAccessKeyList'
      else Break outputAccessKeyList
  end.

(** The entry made for a listed key. *)
Definition newAccessKey (ak : iam.AccessKeyMetadata) : accessKey :=
  {| keyId := iam.AccessKeyId ak;
     createdDate := time.Format (iam.CreateDate ak) keyLayout |}.

(** What the worker puts on the result channel: a pointer to an
    [outputUser], or nil. *)
Definition workerResult (inputUser : inputUser)
    (outputAccessKeyList : list iam.AccessKeyMetadata) : option outputUser :=
  if negb (Nat.eqb (length outputAccessKeyList) 0) then
    Some {| outName := name inputUser;
            outAccountId := accountId inputUser;
            accessKeys := newAccessKey <$> outputAccessKeyList |}
  else None.

(** The key-listing loop run to its end. *)
Fixpoint listAccessKeysLoop (fuel : nat) (inputUser : inputUser)
    (outputAccessKeyList : list iam.AccessKeyMetadata) (marker : option string)
  : Run (list iam.AccessKeyMetadata) :=
  match fuel with
  | O => spin
  | S fuel' =>
      answer ← remote (CallListAccessKeys (iamClient inputUser) (name inputUser) marker)
                      (ListAccessKeys world (iamClient inputUser) (name inputUser) marker);
      match keyPage outputAccessKeyList answer with
      | Fatalf f => λ log, (Exit f, log)
      | NextPage outputAccessKeyList' marker' =>
          listAccessKeysLoop fuel' inputUser outputAccessKeyList' marker'
      | Break outputAccessKeyList' => mret outputAccessKeyList'
      end
  end.

(** One turn of the worker's loop over the input channel. *)
Definition processUser (fuel : nat) (inputUser : inputUser) : Run (option outputUser) :=
  outputAccessKeyList ← listAccessKeysLoop fuel inputUser [] None;
  mret (workerResult inputUser outputAccessKeyList).

End Worker.

(** ** Writing the report *)

Definition userRecord (user : outputUser) : list string :=
  foldl (λ record key, (record ++ [keyId key]) ++ [createdDate key])
        [outAccountId user; outName user] (accessKeys user).

Section Report.

Context (world : World).

(** The loop of [writeRecordsToCSV] and what follows it.  The content
    of the file is the sequence of records that the writer accepted. *)
Fixpoint writeRecords (filename : string) (userList : list outputUser)
    (fs : files) : option error * files :=
  match userList with
  | [] => (Flush world (default [] (fs !! filename)), fs)
  | user :: rest =>
      let record := userRecord user in
      match Write world record with
      | Some err => (Some err, fs)
      | None => writeRecords filename rest (alter (λ rows, rows ++ [record]) filename fs)
      end
  end.

Definition writeRecordsToCSV (filename : string) (userList : list outputUser)
    (fs : files) : option error * files :=
  match Create world filename with
  | Some err => (Some err, fs)
  | None => writeRecords filename userList (<[filename := []]> fs)
  end.

End Report.

(** ** The goroutines and the channels

    After the users are enumerated, [main] starts [numOfWorker]
    goroutines, fills the buffered channel [inputUserChan] (its capacity
    is the number of users), closes it, and receives one value per user
    from the unbuffered channel [resultChan].  The process ends when
    [main] returns or when any goroutine logs a fatal message; nobody
    waits for the workers. *)

(** Where [main] stands. *)
Inductive mainPc :=
| Sending (i : nat)
| Receiving (i : nat) (userList : list outputUser).

(** Where a worker stands: at the receive of its [range] loop, about to
    call [ListAccessKeys], at the send on [resultChan], or returned. *)
Inductive workerPc :=
| AtRange
| Listing (inputUser : inputUser)
    (outputAccessKeyList : list iam.AccessKeyMetadata) (marker : option string)
| AtResult (inputUser : inputUser) (user : option outputUser)
| Returned.

Inductive state :=
| Running (main : mainPc) (inputUserChan : list inputUser) (closed : bool)
    (workers : list workerPc)
| Exited (status : option fatal) (fs : files).

(** What the process does in one step.  Workers are numbered from 0 in
    the order in which they were started. *)
Inductive event :=
| Send (inputUser : inputUser)
| Close
| Take (id : nat) (inputUser : inputUser)
| CallKeys (id : nat) (inputUser : inputUser) (marker : option string)
| Result (id : nat) (inputUser : inputUser) (user : option outputUser)
| Return (id : nat)
| WriteReport.

Section Pool.

Context (world : World) (opts : options).
Context (inputUserList : list inputUser) (fs0 : files).

Definition numberOfUsers : nat := length inputUserList.

Definition listKeys (inputUser : inputUser) (marker : option string) :=
  ListAccessKeys world (iamClient inputUser) (name inputUser) marker.

Inductive step : state → event → state → Prop :=
| step_send i x ch ws :
    inputUserList !! i = Some x →
    length ch < numberOfUsers →
    step (Running (Sending i) ch false ws)
         (Send x)
         (Running (Sending (S i)) (ch ++ [x]) false ws)
| step_close i ch ws :
    inputUserList !! i = None →
    step (Running (Sending i) ch false ws)
         Close
         (Running (Receiving 0 []) ch true ws)
| step_take m x ch closed l1 l2 :
    step (Running m (x :: ch) closed (l1 ++ AtRange :: l2))
         (Take (length l1) x)
         (Running m ch closed (l1 ++ Listing x [] None :: l2))
| step_return m l1 l2 :
    step (Running m [] true (l1 ++ AtRange :: l2))
         (Return (length l1))
         (Running m [] true (l1 ++ Returned :: l2))
| step_page_next m ch closed l1 l2 x keys marker keys' marker' :
    keyPage keys (listKeys x marker) = NextPage keys' marker' →
    step (Running m ch closed (l1 ++ Listing x keys marker :: l2))
         (CallKeys (length l1) x marker)
         (Running m ch closed (l1 ++ Listing x keys' marker' :: l2))
| step_page_break m ch closed l1 l2 x keys marker keys' :
    keyPage keys (listKeys x marker) = Break keys' →
    step (Running m ch closed (l1 ++ Listing x keys marker :: l2))
         (CallKeys (length l1) x marker)
         (Running m ch closed (l1 ++ AtResult x (workerResult x keys') :: l2))
| step_page_fatal m ch closed l1 l2 x keys marker f :
    keyPage keys (listKeys x marker) = Fatalf f →
    step (Running m ch closed (l1 ++ Listing x keys marker :: l2))
         (CallKeys (length l1) x marker)
         (Exited (Some f) fs0)
| step_result i userList ch closed l1 l2 x user :
    i < numberOfUsers →
    step (Running (Receiving i userList) ch closed (l1 ++ AtResult x user :: l2))
         (Result (length l1) x user)
         (Running (Receiving (S i) (userList ++ option_list user)) ch closed
                  (l1 ++ AtRange :: l2))
| step_write i userList ch closed ws err fs :
    ¬ i < numberOfUsers →
    writeRecordsToCSV world (outputFile opts) userList fs0 = (err, fs) →
    step (Running (Receiving i userList) ch closed ws)
         WriteReport
         (Exited ((λ e, Fatal "error when writing records to CSV file" [zapError e]) <$> err)
                 fs).

Definition init : state :=
  Running (Sending 0) [] false (replicate (Z.to_nat (numOfWorker opts)) AtRange).

(** [steps tr s]: the process can be in [s] after the events [tr]. *)
Inductive steps : list event → state → Prop :=
| steps_init : steps [] init
| steps_step tr s ev s' : steps tr s → step s ev s' → steps (tr ++ [ev]) s'.

(** A state in which the process has ended, or cannot move. *)
Definition stuck (s : state) : Prop := ∀ ev s', ¬ step s ev s'.

End Pool.

(** ** The whole run *)

(** [mainRuns world opts fuel fs0 calls tr s]: started with the files
    [fs0], the process makes the remote calls [calls] while it
    enumerates the users, then the events [tr], and is in state [s]. *)
Inductive mainRuns (world : World) (opts : options) (fuel : nat) (fs0 : files)
  : list remoteCall → list event → state → Prop :=
| runs_exit f calls :
    enumerateUsers world fuel opts [] = (Exit f, calls) →
    mainRuns world opts fuel fs0 calls [] (Exited (Some f) fs0)
| runs_pool inputUserList calls tr s :
    enumerateUsers world fuel opts [] = (Ok inputUserList, calls) →
    steps world opts inputUserList fs0 tr s →
    mainRuns world opts fuel fs0 calls tr s.

(** What a trace shows. *)
Definition sent (ev : event) : option inputUser :=
  match ev with Send x => Some x | _ => None end.

Definition taken (ev : event) : option inputUser :=
  match ev with Take _ x => Some x | _ => None end.

Definition resulted (ev : event) : option (inputUser * option outputUser) :=
  match ev with Result _ x user => Some (x, user) | _ => None end.

Definition takenBy (id : nat) (ev : event) : option inputUser :=
  match ev with
  | Take id' x => if decide (id' = id) then Some x else None
  | _ => None
  end.

Definition resultedBy (id : nat) (ev : event) : option inputUser :=
  match ev with
  | Result id' x _ => if decide (id' = id) then Some x else None
  | _ => None
  end.

Definition keyCall (ev : event) : option remoteCall :=
  match ev with
  | CallKeys _ x marker => Some (CallListAccessKeys (iamClient x) (name x) marker)
  | _ => None
  end.

(** The user a worker is working on. *)
Definition held (w : workerPc) : option inputUser :=
  match w with
  | Listing x _ _ | AtResult x _ => Some x
  | AtRange | Returned => None
  end.

(** A worker that has a [ListAccessKeys] operation in flight. *)
Definition inFlight (w : workerPc) : bool :=
  match w with
  | Listing _ _ _ => true
  | _ => false
  end.

(** ** Invariants of the pool *)

Section PoolInvariant.

Context (world : World) (opts : options) (inputUserList : list inputUser).

(** The worker's loop turn for [x] ends with [user] put on the result
    channel. *)
Definition finished (x : inputUser) (user : option outputUser) : Prop :=
  ∃ fuel calls, processUser world fuel x [] = (Ok user, calls).

(** The key-listing loop for [x], resumed with [keys] and [marker],
    ends as the loop started afresh does. *)
Definition onPath (x : inputUser) (keys : list iam.AccessKeyMetadata)
    (marker : option string) : Prop :=
  ∀ fuel r calls,
    listAccessKeysLoop world fuel x keys marker [] = (r, calls) →
    r ≠ Spin →
    ∃ fuel' calls', listAccessKeysLoop world fuel' x [] None [] = (r, calls').

Definition workerOk (w : workerPc) : Prop :=
  match w with
  | Listing x keys marker => onPath x keys marker
  | AtResult x user => finished x user
  | AtRange | Returned => True
  end.

Record invariant (tr : list event) (m : mainPc) (ch : list inputUser)
    (closed : bool) (ws : list workerPc) : Prop := {
  inv_workers : length ws = Z.to_nat (numOfWorker opts);
  inv_main :
    match m with
    | Sending i =>
        closed = false ∧ omap sent tr = take i inputUserList ∧
        omap resulted tr = []
    | Receiving i userList =>
        closed = true ∧ omap sent tr = inputUserList ∧ Close ∈ tr ∧
        i = length (omap resulted tr) ∧
        userList = omap snd (omap resulted tr)
    end;
  inv_chan : omap sent tr = omap taken tr ++ ch;
  inv_held : omap taken tr ≡ₚ (fst <$> omap resulted tr) ++ omap held ws;
  inv_each : ∀ id,
    omap (takenBy id) tr =
    omap (resultedBy id) tr ++ option_list (ws !! id ≫= held);
  inv_returned : Returned ∈ ws → ch = [] ∧ closed = true;
  inv_ws : Forall workerOk ws;
  inv_results : Forall (λ xu, finished xu.1 xu.2) (omap resulted tr)
}.

End PoolInvariant.

(** ** A bound on the length of a run *)

Section Cost.

Context (world : World) (fuel : nat) (inputUserList : list inputUser).

(** The key-listing loop for [x], resumed with [keys] and [marker],
    ends within [fuel] calls. *)
Definition halts (x : inputUser) (keys : list iam.AccessKeyMetadata)
    (marker : option string) : Prop :=
  (listAccessKeysLoop world fuel x keys marker []).1 ≠ Spin.

(** The calls it still makes. *)
Definition callsLeft (x : inputUser) (keys : list iam.AccessKeyMetadata)
    (marker : option string) : nat :=
  length (listAccessKeysLoop world fuel x keys marker []).2.

Definition workerHalts (w : workerPc) : Prop :=
  match w with
  | Listing x keys marker => halts x keys marker
  | _ => True
  end.

(** The steps that a worker, a queued user and [main] can still
    take. *)
Definition workerCost (w : workerPc) : nat :=
  match w with
  | AtRange => 1
  | Listing x keys marker => callsLeft x keys marker + 2
  | AtResult _ _ => 2
  | Returned => 0
  end.

Definition queuedCost (x : inputUser) : nat := callsLeft x [] None + 2.

Definition mainCost (m : mainPc) : nat :=
  match m with
  | Sending i => sum_list ((λ x, queuedCost x + 1) <$> drop i inputUserList) + 2
  | Receiving _ _ => 1
  end.

Definition cost (s : state) : nat :=
  match s with
  | Running m ch _ ws =>
      mainCost m + sum_list (queuedCost <$> ch) + sum_list (workerCost <$> ws)
  | Exited _ _ => 0
  end.

End Cost.

(** ** Notions used to state the properties *)

(** A record of the account list as the input format asks for it: two
    fields, the first of them 12 bytes long. *)
Definition wellFormed (record : list string) : Prop :=
  ∃ accountId roleName, record = [accountId; roleName] ∧ String.length accountId = 12.

(** The user-listing operation answers the loop, from [marker] on,
    with exactly these pages: each is truncated but the last. *)
Inductive servesUsers (world : World) (svc : iam.Client)
  : option string → list (list iam.User) → Prop :=
| servesUsers_last marker out :
    ListUsers world svc marker = inr out →
    iam.usersIsTruncated out = false →
    servesUsers world svc marker [iam.Users out]
| servesUsers_more marker out pages :
    ListUsers world svc marker = inr out →
    iam.usersIsTruncated out = true →
    servesUsers world svc (iam.usersMarker out) pages →
    servesUsers world svc marker (iam.Users out :: pages).

(** The same for the key-listing operation and the user [x]. *)
Inductive servesKeys (world : World) (x : inputUser)
  : option string → list (list iam.AccessKeyMetadata) → Prop :=
| servesKeys_last marker out :
    listKeys world x marker = inr out →
    iam.keysIsTruncated out = false →
    servesKeys world x marker [iam.AccessKeyMetadataList out]
| servesKeys_more marker out pages :
    listKeys world x marker = inr out →
    iam.keysIsTruncated out = true →
    servesKeys world x (iam.keysMarker out) pages →
    servesKeys world x marker (iam.AccessKeyMetadataList out :: pages).

(** The pages before the first page without items. *)
Fixpoint pagesRead {A} (pages : list (list A)) : list (list A) :=
  match pages with
  | [] => []
  | [] :: _ => []
  | page :: pages' => page :: pagesRead pages'
  end.

(** The fields of the row of a user with the keys [keys]. *)
Definition rowOf (x : inputUser) (keys : list iam.AccessKeyMetadata) : list string :=
  [accountId x; name x] ++
  concat ((λ ak, [iam.AccessKeyId ak; time.Format (iam.CreateDate ak) keyLayout]) <$> keys).

(** The keys that the worker's loop collects for [x], when it ends
    within [fuel] calls. *)
Definition listedKeys (world : World) (fuel : nat) (x : inputUser)
  : list iam.AccessKeyMetadata :=
  match (listAccessKeysLoop world fuel x [] None []).1 with
  | Ok keys => keys
  | _ => []
  end.

(** What the worker then puts on the result channel for [x]. *)
Definition userOutcome (world : World) (fuel : nat) (x : inputUser) : option outputUser :=
  match (processUser world fuel x []).1 with
  | Ok user => user
  | _ => None
  end.

(** The loop for [x] ends within [fuel] calls, none of which fails. *)
Definition succeeds (world : World) (fuel : nat) (x : inputUser) : Prop :=
  ∃ keys, (listAccessKeysLoop world fuel x [] None []).1 = Ok keys.

(** Nothing goes wrong when the report is written. *)
Definition writable (world : World) (filename : string) : Prop :=
  Create world filename = None ∧ (∀ record, Write world record = None) ∧
  (∀ rows, Flush world rows = None).

(** The markers of the key-listing calls made for the user [x], the
    workers that took [x], and whether a worker is about to call for
    [x]. *)
Definition callFor (x : inputUser) (ev : event) : option (option string) :=
  match ev with
  | CallKeys _ x' marker => if decide (x' = x) then Some marker else None
  | _ => None
  end.

Definition takeOf (x : inputUser) (ev : event) : option nat :=
  match ev with
  | Take id x' => if decide (x' = x) then Some id else None
  | _ => None
  end.

Definition resultFor (x : inputUser) (ev : event) : option (option outputUser) :=
  match ev with
  | Result _ x' user => if decide (x' = x) then Some user else None
  | _ => None
  end.

Definition listingFor (x : inputUser) (w : workerPc) : bool :=
  match w with
  | Listing x' _ _ => bool_decide (x' = x)
  | _ => false
  end.

(** What a trace shows of the bookkeeping of the pool: the users sent
    are the first users of the list, the users taken the first of those
    sent; the users taken are those answered and those that workers
    hold, at most one per worker; a worker's takes are its results and
    what it holds. *)
Definition accounted (opts : options) (inputUserList : list inputUser)
    (tr : list event) : Prop :=
  omap sent tr `prefix_of` inputUserList ∧
  omap taken tr `prefix_of` omap sent tr ∧
  (∃ holding,
     omap taken tr ≡ₚ (omap resulted tr).*1 ++ holding ∧
     length holding ≤ Z.to_nat (numOfWorker opts)) ∧
  ∀ id, ∃ cur,
    omap (takenBy id) tr = omap (resultedBy id) tr ++ option_list cur.

(** The worker that has [x] is at its first call or at the send of
    nil. *)
Definition emptyOk (x : inputUser) (w : workerPc) : Prop :=
  match w with
  | Listing x' keys marker => x' = x → keys = [] ∧ marker = None
  | AtResult x' user => x' = x → user = None
  | AtRange | Returned => True
  end.

(** ** Timestamps *)

(** The wall-clock fields of a date between the years 0 and 9999, in a
    zone less than a day off UTC. *)
Definition validClock (t : time.Time) : Prop :=
  (0 ≤ time.Year t ≤ 9999 ∧ 1 ≤ time.Month t ≤ 12 ∧ 1 ≤ time.Day t ≤ 31 ∧
   0 ≤ time.Hour t ≤ 23 ∧ 0 ≤ time.Minute t ≤ 59 ∧ 0 ≤ time.Second t ≤ 59 ∧
   -86400 < time.Offset t < 86400)%Z.

Inductive charClass :=
| digit
| sign
| exactly (c : Ascii.ascii).

Definition inClass (k : charClass) (c : Ascii.ascii) : bool :=
  match k with
  | digit => (48 <=? Ascii.nat_of_ascii c) && (Ascii.nat_of_ascii c <=? 57)
  | sign => Ascii.eqb c "+"%char || Ascii.eqb c "-"%char
  | exactly c' => Ascii.eqb c c'
  end.

Fixpoint hasShape (shape : list charClass) (s : string) : bool :=
  match shape, s with
  | [], EmptyString => true
  | k :: shape', String c s' => inClass k c && hasShape shape' s'
  | _, _ => false
  end.

(** The shape YYYY-MM-DDThh:mm:ss±hh:mm of an ISO 8601 timestamp with a
    numeric zone offset. *)
Definition iso8601Offset : list charClass :=
  [digit; digit; digit; digit; exactly "-"%char; digit; digit; exactly "-"%char;
   digit; digit; exactly "T"%char; digit; digit; exactly ":"%char; digit; digit;
   exactly ":"%char; digit; digit; sign; digit; digit; exactly ":"%char; digit; digit].

(** The timestamp YYYY-MM-DDThh:mm:ss±hh:mm of ISO 8601 for the wall
    clock [t], written out digit by digit; the offset is given in whole
    minutes. *)
Definition digitChar (d : Z) : Ascii.ascii := Ascii.ascii_of_nat (48 + Z.to_nat d).

Definition twoDigits (n : Z) : string :=
  String (digitChar (n / 10)) (String (digitChar (n mod 10)) "").

Definition fourDigits (n : Z) : string := twoDigits (n / 100) +:+ twoDigits (n mod 100).

Definition iso8601 (t : time.Time) : string :=
  let minutes := (time.Offset t ÷ 60)%Z in
  fourDigits (time.Year t) +:+ "-" +:+ twoDigits (time.Month t) +:+ "-" +:+
  twoDigits (time.Day t) +:+ "T" +:+ twoDigits (time.Hour t) +:+ ":" +:+
  twoDigits (time.Minute t) +:+ ":" +:+ twoDigits (time.Second t) +:+
  (if (minutes <? 0)%Z then "-" else "+") +:+
  twoDigits (Z.abs minutes / 60) +:+ ":" +:+ twoDigits (Z.abs minutes mod 60).

(** ** The report, as its format is described

    The row of a user: the account identifier, the user name, then for
    each key its identifier and its creation date as an ISO 8601
    timestamp with offset.  A user without keys has no row. *)
Definition reportRow (x : inputUser) (keys : list iam.AccessKeyMetadata) : list string :=
  accountId x :: name x ::
  concat ((λ ak, [iam.AccessKeyId ak; iso8601 (iam.CreateDate ak)]) <$> keys).

Definition rowFor (x : inputUser) (keys : list iam.AccessKeyMetadata)
  : option (list string) :=
  match keys with
  | [] => None
  | _ => Some (reportRow x keys)
  end.

(** The service has the chain of key pages [pages x] for [x], short
    enough for the fuel, with sound creation dates. *)
Definition paged (world : World) (fuel : nat)
    (pages : inputUser → list (list iam.AccessKeyMetadata)) (x : inputUser) : Prop :=
  servesKeys world x None (pages x) ∧ length (pages x) ≤ fuel ∧
  Forall (λ ak, validClock (iam.CreateDate ak)) (concat (pages x)).

(** ** Failing remote calls *)







(** A fatal message mentions [s]: in its text or in one of its fields. *)
Definition mentions (f : fatal) (s : string) : bool :=
  isInfix s (fatalMsg f) || existsb (λ kv, isInfix s kv.2) (fatalFields f).

(** ** Sample worlds *)

Module Sample.

Definition creds : sts.Credentials :=
  {| sts.AccessKeyId := "ASIAEXAMPLE"; sts.SecretAccessKey := "secret";
     sts.SessionToken := "token" |}.

Definition newYear2024 : time.Time :=
  {| time.Year := 2024; time.Month := 1; time.Day := 1;
     time.Hour := 0; time.Minute := 0; time.Second := 0; time.Offset := 0 |}.

Definition key (id : string) : iam.AccessKeyMetadata :=
  {| iam.AccessKeyId := id; iam.CreateDate := newYear2024 |}.

(** A world without failures, given the account list and the answers
    of the two listing operations. *)
Definition world (accounts : csv.Reader)
    (users : option string → iam.ListUsersOutput)
    (keys : string → option string → iam.ListAccessKeysOutput) : World :=
  {| LoadDefaultConfig := λ _, None;
     Open := λ _, inr accounts;
     AssumeRole := λ _, inr creds;
     LoadAssumedConfig := λ _, None;
     ListUsers := λ _ marker, inr (users marker);
     ListAccessKeys := λ _ userName marker, inr (keys userName marker);
     Create := λ _, None;
     Write := λ _, None;
     Flush := λ _, None |}.

Definition oneAccount : csv.Reader := [csv.Record ["111111111111"; "ReadOnly"]].

Definition aliceAndBob (marker : option string) : iam.ListUsersOutput :=
  {| iam.Users := [ {| iam.UserName := "alice" |}; {| iam.UserName := "bob" |} ];
     iam.usersIsTruncated := false; iam.usersMarker := None |}.

(** The scenario of the specification: alice has one key, bob none. *)
Definition aliceHasOneKey (userName : string) (marker : option string)
  : iam.ListAccessKeysOutput :=
  {| iam.AccessKeyMetadataList :=
       if String.eqb userName "alice" then [key "AKIA1"] else [];
     iam.keysIsTruncated := false; iam.keysMarker := None |}.

Definition scenario : World := world oneAccount aliceAndBob aliceHasOneKey.

(** An account list whose only record has an identifier that is too
    short. *)
Definition shortId : World :=
  world [csv.Record ["1111111111"; "R1"]] aliceAndBob aliceHasOneKey.

(** An account list whose second record has a third field. *)
Definition thirdField : World :=
  world (csv.NewReader [(1, ["111111111111"; "ReadOnly"]);
                        (2, ["222222222222"; "Audit"; "eu-west-1"])])
        aliceAndBob aliceHasOneKey.

(** Three key pages for every user; the second has no items but
    comes with a marker. *)
Definition emptyMiddlePage (userName : string) (marker : option string)
  : iam.ListAccessKeysOutput :=
  match marker with
  | None =>
      {| iam.AccessKeyMetadataList := [key "AKIA1"];
         iam.keysIsTruncated := true; iam.keysMarker := Some "m1" |}
  | Some "m1" =>
      {| iam.AccessKeyMetadataList := [];
         iam.keysIsTruncated := true; iam.keysMarker := Some "m2" |}
  | Some _ =>
      {| iam.AccessKeyMetadataList := [key "AKIA2"];
         iam.keysIsTruncated := false; iam.keysMarker := None |}
  end.

Definition gap : World := world oneAccount aliceAndBob emptyMiddlePage.

(** A first key page without items that is truncated and carries a
    marker; a key follows on the next page. *)
Definition emptyFirstPage (userName : string) (marker : option string)
  : iam.ListAccessKeysOutput :=
  match marker with
  | None =>
      {| iam.AccessKeyMetadataList := [];
         iam.keysIsTruncated := true; iam.keysMarker := Some "m1" |}
  | Some _ =>
      {| iam.AccessKeyMetadataList := [key "AKIA9"];
         iam.keysIsTruncated := false; iam.keysMarker := None |}
  end.

Definition behindEmpty : World := world oneAccount aliceAndBob emptyFirstPage.

(** Three key pages of two keys each. *)
Definition threeKeyPages (userName : string) (marker : option string)
  : iam.ListAccessKeysOutput :=
  match marker with
  | None =>
      {| iam.AccessKeyMetadataList := [key "AKIA1"; key "AKIA2"];
         iam.keysIsTruncated := true; iam.keysMarker := Some "m1" |}
  | Some "m1" =>
      {| iam.AccessKeyMetadataList := [key "AKIA3"; key "AKIA4"];
         iam.keysIsTruncated := true; iam.keysMarker := Some "m2" |}
  | Some _ =>
      {| iam.AccessKeyMetadataList := [key "AKIA5"; key "AKIA6"];
         iam.keysIsTruncated := false; iam.keysMarker := None |}
  end.

Definition paged : World := world oneAccount aliceAndBob threeKeyPages.

Definition user (userName : string) : iam.User := {| iam.UserName := userName |}.

(** Three user pages of two users each. *)
Definition threeUserPages (marker : option string) : iam.ListUsersOutput :=
  match marker with
  | None =>
      {| iam.Users := [user "u1"; user "u2"];
         iam.usersIsTruncated := true; iam.usersMarker := Some "m1" |}
  | Some "m1" =>
      {| iam.Users := [user "u3"; user "u4"];
         iam.usersIsTruncated := true; iam.usersMarker := Some "m2" |}
  | Some _ =>
      {| iam.Users := [user "u5"; user "u6"];
         iam.usersIsTruncated := false; iam.usersMarker := None |}
  end.

Definition manyUsers : World := world oneAccount threeUserPages aliceHasOneKey.

(** An account without users: one page, no items, no marker. *)
Definition noUserPage (marker : option string) : iam.ListUsersOutput :=
  {| iam.Users := []; iam.usersIsTruncated := false; iam.usersMarker := None |}.

Definition noUsers : World := world oneAccount noUserPage aliceHasOneKey.




Definition alice : inputUser :=
  {| iamClient := creds; name := "alice"; accountId := "111111111111" |}.

Definition bob : inputUser :=
  {| iamClient := creds; name := "bob"; accountId := "111111111111" |}.

Definition aliceFound : outputUser :=
  {| outName := "alice"; outAccountId := "111111111111";
     accessKeys := [ {| keyId := "AKIA1"; createdDate := "2024-01-01T00:00:00+00:00" |} ] |}.

(** A run of the scenario: worker 0 does all the work. *)
Definition trace : list event :=
  [ Send alice; Send bob; Close;
    Take 0 alice; CallKeys 0 alice None; Result 0 alice (Some aliceFound);
    Take 0 bob; CallKeys 0 bob None; Result 0 bob None;
    WriteReport ].

(** Another run: two workers share the work, they start before the
    channel is filled, and bob's result arrives before alice's. *)
Definition interleaved : list event :=
  [ Send alice; Take 0 alice; Send bob; Take 1 bob; Close;
    CallKeys 1 bob None; CallKeys 0 alice None;
    Result 1 bob None; Result 0 alice (Some aliceFound);
    Return 1; WriteReport ].

Definition report : files :=
  <["output.csv" := [["111111111111"; "alice"; "AKIA1"; "2024-01-01T00:00:00+00:00"]]]> ∅.

End Sample.

(** ** Tactics *)

(** Splits the projections of a trace that was extended by an event. *)
Ltac trace_simpl :=
  rewrite ?omap_app; cbn [omap list_omap sent taken resulted takenBy resultedBy];
  rewrite ?app_nil_r.

(** ** Notions used to state more properties *)

#[global] Instance result_fmap : FMap result := λ A B g r,
  match r with
  | Ok a => Ok (g a)
  | Exit f => Exit f
  | Panic => Panic
  | Spin => Spin
  end.

(** The outcome [o] of a part of the enumeration that was started
    afresh, as it is after the users [users] were gathered and the calls
    [log] made. *)
Definition after (users : list inputUser) (log : list remoteCall)
    (o : result (list inputUser) * list remoteCall)
  : result (list inputUser) * list remoteCall :=
  (app users <$> o.1, log ++ o.2).

(** The role that a call assumes. *)
Definition assumed (c : remoteCall) : option string :=
  match c with
  | CallAssumeRole roleArn => Some roleArn
  | _ => None
  end.

(** The fields that [writeRecordsToCSV] appends for a key. *)
Definition keyFields (key : accessKey) : list string := [keyId key; createdDate key].

(** The worker that takes part in an event. *)
Definition workerOf (ev : event) : option nat :=
  match ev with
  | Take id _ | CallKeys id _ _ | Result id _ _ | Return id => Some id
  | Send _ | Close | WriteReport => None
  end.

(** What [main] does while it fills the channel. *)
Definition fills (ev : event) : bool :=
  match ev with
  | Send _ | Close => true
  | _ => false
  end.

(** ** The calls that are still to be made *)

Section Ahead.

Context (world : World) (fuel : nat) (inputUserList : list inputUser).

(** The ListAccessKeys calls that the key listings of all the users
    make, each run on its own. *)
Definition keyCallsOf (users : list inputUser) : nat :=
  sum_list ((λ x, callsLeft world fuel x [] None) <$> users).

(** The calls that a worker still makes for the user it holds. *)
Definition pendingCalls (w : workerPc) : nat :=
  match w with
  | Listing x keys marker => callsLeft world fuel x keys marker
  | _ => 0
  end.

(** The calls that are still made from a state on: for the users not
    yet sent, for those in the channel and for those held by workers. *)
Definition callsAhead (s : state) : nat :=
  match s with
  | Running m ch _ ws =>
      match m with
      | Sending i => keyCallsOf (drop i inputUserList)
      | Receiving _ _ => 0
      end + keyCallsOf ch + sum_list (pendingCalls <$> ws)
  | Exited _ _ => 0
  end.

End Ahead.

(** ** The answers of the SDK, with their pointers

    The output types of the SDK hold pointers.  [main] dereferences the
    credentials of an AssumeRole answer and their three fields
    (src/main.go 99-101) and the name of every listed user (124)
    without a check: a nil pointer there is a panic.  The enumeration
    is given here once more, over answers in which these pointers may
    be nil ([None]); the enumeration above is the case in which they
    are all set. *)

Module wire.

Record Credentials := {
  AccessKeyId : option string;
  SecretAccessKey : option string;
  SessionToken : option string
}.

Record AssumeRoleOutput := { Credentials_ : option Credentials }.

Record User := { UserName : option string }.

Record ListUsersOutput := {
  Users : list User;
  IsTruncated : bool;
  Marker : option string
}.

(** The two operations with the answers of the SDK; everything else
    as in [rest]. *)
Record Service := {
  rest : World;
  AssumeRole : string → error + AssumeRoleOutput;
  ListUsers : iam.Client → option string → error + ListUsersOutput
}.

(** A value behind a pointer, or the panic. *)
Definition deref {A} (o : option A) : Run A := indexed o.

(** The arguments of [NewStaticCredentialsProvider]:
    [*tempCredentials.Credentials.AccessKeyId] and the two others. *)
Definition staticCredentials (tempCredentials : AssumeRoleOutput)
  : option sts.Credentials :=
  credentials ← Credentials_ tempCredentials;
  accessKeyId ← AccessKeyId credentials;
  secretAccessKey ← SecretAccessKey credentials;
  sessionToken ← SessionToken credentials;
  Some {| sts.AccessKeyId := accessKeyId;
          sts.SecretAccessKey := secretAccessKey;
          sts.SessionToken := sessionToken |}.

(** The work item appended for a listed user, with [*user.UserName]. *)
Definition newInputUser (assumeRoleIAMSvc : iam.Client) (accountId : string)
    (user : User) : option inputUser :=
  userName ← UserName user;
  Some {| name := userName; accountId := accountId; iamClient := assumeRoleIAMSvc |}.

Section Enumerate.

Context (svc : Service).

Fixpoint listUsersLoop (fuel : nat) (assumeRoleIAMSvc : iam.Client)
    (accountId : string) (marker : option string)
    (inputUserList : list inputUser) : Run (list inputUser) :=
  match fuel with
  | O => spin
  | S fuel' =>
      answer ← remote (CallListUsers assumeRoleIAMSvc marker)
                      (ListUsers svc assumeRoleIAMSvc marker);
      match answer with
      | inl err => exit "error when listing user" [zapError err]
      | inr listUsersOutput =>
          appended ← deref (mapM (newInputUser assumeRoleIAMSvc accountId)
                                 (Users listUsersOutput));
          let inputUserList' := inputUserList ++ appended in
          if IsTruncated listUsersOutput then
            listUsersLoop fuel' assumeRoleIAMSvc accountId
              (Marker listUsersOutput) inputUserList'
          else mret inputUserList'
      end
  end.

Definition enumerateAccount (fuel : nat) (csvAccountRole : list string)
    (inputUserList : list inputUser) : Run (list inputUser) :=
  accountId ← indexed (getAccountId csvAccountRole);
  roleARN ← indexed (getRoleARN csvAccountRole);
  answer ← remote (CallAssumeRole roleARN) (AssumeRole svc roleARN);
  match answer with
  | inl err =>
      exit "error when doing assume role" [("role_arn", roleARN); zapError err]
  | inr tempCredentials =>
      static ← deref (staticCredentials tempCredentials);
      match LoadAssumedConfig (rest svc) static with
      | Some err =>
          exit "error when creating temporary config from the assumed role credentials"
               [("role_arn", roleARN); zapError err]
      | None =>
          listUsersLoop fuel static accountId None inputUserList
      end
  end.

Fixpoint enumerateAccounts (fuel : nat) (csvAccountRoleList : list (list string))
    (inputUserList : list inputUser) : Run (list inputUser) :=
  match csvAccountRoleList with
  | [] => mret inputUserList
  | csvAccountRole :: rest =>
      inputUserList' ← enumerateAccount fuel csvAccountRole inputUserList;
      enumerateAccounts fuel rest inputUserList'
  end.

Definition enumerateUsers (fuel : nat) (opts : options) : Run (list inputUser) :=
  match LoadDefaultConfig (rest svc) (awsProfileName opts) with
  | Some err => exit "error when loading default config" [zapError err]
  | None =>
      match getAccountRoleListFromCSV (Open (rest svc)) (accountListFile opts) with
      | inl err => exit "error when reading account list file" [zapError err]
      | inr csvAccountRoleList => enumerateAccounts fuel csvAccountRoleList []
      end
  end.

(** The answer to the call [c] holds a nil pointer that [main]
    dereferences. *)
Definition nilIn (c : remoteCall) : Prop :=
  match c with
  | CallAssumeRole roleArn =>
      ∃ out, AssumeRole svc roleArn = inr out ∧ staticCredentials out = None
  | CallListUsers client marker =>
      ∃ out user,
        ListUsers svc client marker = inr out ∧ user ∈ Users out ∧ UserName user = None
  | CallListAccessKeys _ _ _ => False
  end.

End Enumerate.

End wire.

(** The answers of [world], with every pointer set. *)
Definition allSet (world : World) : wire.Service :=
  {| wire.rest := world;
     wire.AssumeRole := λ roleArn,
       match AssumeRole world roleArn with
       | inl err => inl err
       | inr c =>
           inr {| wire.Credentials_ :=
                    Some {| wire.AccessKeyId := Some (sts.AccessKeyId c);
                            wire.SecretAccessKey := Some (sts.SecretAccessKey c);
                            wire.SessionToken := Some (sts.SessionToken c) |} |}
       end;
     wire.ListUsers := λ client marker,
       match ListUsers world client marker with
       | inl err => inl err
       | inr out =>
           inr {| wire.Users :=
                    (λ user, {| wire.UserName := Some (iam.UserName user) |}) <$>
                    iam.Users out;
                  wire.IsTruncated := iam.usersIsTruncated out;
                  wire.Marker := iam.usersMarker out |}
       end |}.

(** The sequential computation [m] panics only on a nil pointer in the
    answer to its last call: either it does not panic and no answer
    held one, or it panics, the answer to its last call held one and
    no answer before did. *)
Definition panicsOnNil {A} (svc : wire.Service) (m : Run A) : Prop :=
  ∀ log, ∃ calls,
    (m log).2 = log ++ calls ∧
    (((m log).1 ≠ Panic ∧ Forall (λ c, ¬ wire.nilIn svc c) calls) ∨
     ((m log).1 = Panic ∧
      ∃ before c,
        calls = before ++ [c] ∧ Forall (λ c, ¬ wire.nilIn svc c) before ∧
        wire.nilIn svc c)).

(** ** More sample worlds *)

Module Cases.

(** An account list of two records and a reader that fails on the
    third line. *)
Definition twoAccounts : list (list string) :=
  [["111111111111"; "ReadOnly"]; ["222222222222"; "Audit"]].

Definition bareQuote : csv.Reader :=
  (csv.Record <$> twoAccounts) ++
  [csv.ParseError 3 7 "parse error on line 3, column 7: bare quote in non-quoted-field"].

(** A world whose account list cannot be parsed. *)
Definition unreadable : World :=
  Sample.world bareQuote Sample.aliceAndBob Sample.aliceHasOneKey.

(** A user listing that always announces a further page. *)
Definition endlessUsers (marker : option string) : iam.ListUsersOutput :=
  {| iam.Users := [Sample.user "u"]; iam.usersIsTruncated := true;
     iam.usersMarker := Some "again" |}.

Definition endlessKeys (userName : string) (marker : option string)
  : iam.ListAccessKeysOutput :=
  {| iam.AccessKeyMetadataList := [Sample.key "AKIA1"]; iam.keysIsTruncated := true;
     iam.keysMarker := Some "again" |}.

Definition endless : World := Sample.world Sample.oneAccount endlessUsers endlessKeys.

(** Two accounts, with the users of [Sample.aliceAndBob] each. *)
Definition twoAccountsWorld : World :=
  Sample.world (csv.Record <$> twoAccounts) Sample.aliceAndBob Sample.aliceHasOneKey.

(** A world in which the output file cannot be created. *)
Definition readOnlyDir : World :=
  {| LoadDefaultConfig := λ _, None;
     Open := λ _, inr Sample.oneAccount;
     AssumeRole := λ _, inr Sample.creds;
     LoadAssumedConfig := λ _, None;
     ListUsers := λ _ marker, inr (Sample.aliceAndBob marker);
     ListAccessKeys := λ _ userName marker, inr (Sample.aliceHasOneKey userName marker);
     Create := λ filename, Some ("open " +:+ filename +:+ ": permission denied");
     Write := λ _, None;
     Flush := λ _, None |}.

(** The run of [Sample.trace] up to the writing of the report. *)
Definition work : list event :=
  [ Send Sample.alice; Send Sample.bob; Close;
    Take 0 Sample.alice; CallKeys 0 Sample.alice None;
    Result 0 Sample.alice (Some Sample.aliceFound);
    Take 0 Sample.bob; CallKeys 0 Sample.bob None; Result 0 Sample.bob None ].

(** The flag [-workers 0]. *)
Definition noWorker : options :=
  {| awsProfileName := "default"; showDebug := false;
     accountListFile := "accountlist.csv"; outputFile := "output.csv";
     numOfWorker := 0 |}.

(** The flag [-workers 1]. *)
Definition oneWorker : options :=
  {| awsProfileName := "default"; showDebug := false;
     accountListFile := "accountlist.csv"; outputFile := "output.csv";
     numOfWorker := 1 |}.

(** A user listing with a user that has no name. *)
Definition nameless : wire.Service :=
  {| wire.rest := Sample.scenario;
     wire.AssumeRole := wire.AssumeRole (allSet Sample.scenario);
     wire.ListUsers := λ _ _,
       inr {| wire.Users := [ {| wire.UserName := Some "alice" |};
                              {| wire.UserName := None |} ];
              wire.IsTruncated := false;
              wire.Marker := None |} |}.

End Cases.

(** * Properties *)

(** ** The monad and the loops *)

Lemma remote_bind {A B} (c : remoteCall) (a : A) (k : A → Run B) log :
  (remote c a ≫= k) log = k a (log ++ [c]).
Proof. reflexivity. Qed.

Section LoopFacts.

Context (world : World).

Lemma listAccessKeysLoop_S fuel x keys marker log :
  listAccessKeysLoop world (S fuel) x keys marker log =
  let log' := log ++ [CallListAccessKeys (iamClient x) (name x) marker] in
  match keyPage keys (listKeys world x marker) with
  | Fatalf f => (Exit f, log')
  | NextPage keys' marker' => listAccessKeysLoop world fuel x keys' marker' log'
  | Break keys' => (Ok keys', log')
  end.
Proof.
  cbn [listAccessKeysLoop]. rewrite remote_bind. unfold listKeys.
  by destruct (keyPage _ _).
Qed.

(** The loop only appends to the log. *)
Lemma listAccessKeysLoop_log fuel x keys marker log :
  listAccessKeysLoop world fuel x keys marker log =
  ((listAccessKeysLoop world fuel x keys marker []).1,
   log ++ (listAccessKeysLoop world fuel x keys marker []).2).
Proof.
  revert keys marker log. induction fuel as [|fuel IH]; intros keys marker log.
  - cbn. by rewrite app_nil_r.
  - rewrite !listAccessKeysLoop_S. cbn zeta.
    destruct (keyPage _ _) as [keys' marker'| |]; cbn; try done.
    rewrite (IH _ _ (log ++ _)), (IH _ _ [_]). cbn. by rewrite <-app_assoc.
Qed.

(** More fuel does not change a run that ended. *)
Lemma listAccessKeysLoop_mono fuel x keys marker log :
  (listAccessKeysLoop world fuel x keys marker log).1 ≠ Spin →
  listAccessKeysLoop world (S fuel) x keys marker log =
  listAccessKeysLoop world fuel x keys marker log.
Proof.
  revert keys marker log. induction fuel as [|fuel IH]; intros keys marker log.
  - cbn. done.
  - intros Hne. rewrite (listAccessKeysLoop_S (S fuel)).
    rewrite listAccessKeysLoop_S in Hne |- *. cbn zeta in *.
    destruct (keyPage _ _) as [keys' marker'| |]; try done.
    by apply IH.
Qed.

Lemma listAccessKeysLoop_le fuel fuel' x keys marker log :
  fuel ≤ fuel' →
  (listAccessKeysLoop world fuel x keys marker log).1 ≠ Spin →
  listAccessKeysLoop world fuel' x keys marker log =
  listAccessKeysLoop world fuel x keys marker log.
Proof.
  induction 1 as [|fuel' Hle IH]; [done|]. intros Hne.
  rewrite listAccessKeysLoop_mono; rewrite IH; done.
Qed.

End LoopFacts.

(** ** Lists of workers *)

Lemma lookup_middle_ne {A} (l1 l2 : list A) (w w' : A) (id : nat) :
  length l1 ≠ id → (l1 ++ w :: l2) !! id = (l1 ++ w' :: l2) !! id.
Proof.
  intros Hne. destruct (decide (id < length l1)) as [Hlt|Hge].
  - by rewrite !lookup_app_l.
  - rewrite !lookup_app_r by lia.
    destruct (id - length l1) as [|n] eqn:E; [lia|done].
Qed.

Lemma held_middle (l1 l2 : list workerPc) (w : workerPc) :
  omap held (l1 ++ w :: l2) = omap held l1 ++ option_list (held w) ++ omap held l2.
Proof. rewrite omap_app. cbn. by destruct (held w). Qed.

Lemma Returned_middle (l1 l2 : list workerPc) (w w' : workerPc) :
  Returned ∈ l1 ++ w :: l2 → w ≠ Returned → Returned ∈ l1 ++ w' :: l2.
Proof.
  rewrite !elem_of_app, !elem_of_cons.
  intros [?|[?|?]] ?; [by left|done|by right; right].
Qed.

Lemma workers_cases (ws : list workerPc) :
  (∃ l1 w l2, ws = l1 ++ w :: l2 ∧ w ≠ Returned) ∨ Forall (λ w, w = Returned) ws.
Proof.
  induction ws as [|w ws IH]; [by right|].
  destruct w as [|x keys marker|x user|].
  4: { destruct IH as [(l1 & w & l2 & -> & Hw)|Hall].
       - left. by exists (Returned :: l1), w, l2.
       - right. by constructor. }
  all: left; by eexists [], _, ws.
Qed.

(** ** The invariant of the pool *)

Section PoolFacts.

Context (world : World) (opts : options).
Context (inputUserList : list inputUser) (fs0 : files).

Lemma processUser_eq fuel x log :
  processUser world fuel x log =
  match listAccessKeysLoop world fuel x [] None log with
  | (Ok keys, log') => (Ok (workerResult x keys), log')
  | (Exit f, log') => (Exit f, log')
  | (Panic, log') => (Panic, log')
  | (Spin, log') => (Spin, log')
  end.
Proof.
  unfold processUser, mbind, Run_bind.
  by destruct (listAccessKeysLoop _ _ _ _ _ _) as [[]].
Qed.

Lemma onPath_start x : onPath world x [] None.
Proof. intros fuel r calls H _. eauto. Qed.

Lemma onPath_next x keys marker keys' marker' :
  onPath world x keys marker →
  keyPage keys (listKeys world x marker) = NextPage keys' marker' →
  onPath world x keys' marker'.
Proof.
  intros Hp Hk fuel r calls Hl Hr.
  apply (Hp (S fuel) r (CallListAccessKeys (iamClient x) (name x) marker :: calls)); [|done].
  rewrite listAccessKeysLoop_S, Hk. cbn zeta.
  rewrite listAccessKeysLoop_log, Hl. done.
Qed.

Lemma onPath_break x keys marker keys' :
  onPath world x keys marker →
  keyPage keys (listKeys world x marker) = Break keys' →
  finished world x (workerResult x keys').
Proof.
  intros Hp Hk.
  destruct (Hp 1 (Ok keys') [CallListAccessKeys (iamClient x) (name x) marker])
    as (fuel & calls & Hl); [|done|].
  { rewrite listAccessKeysLoop_S, Hk. done. }
  exists fuel, calls. by rewrite processUser_eq, Hl.
Qed.

Lemma invariant_init : invariant world opts inputUserList [] (Sending 0) [] false
  (replicate (Z.to_nat (numOfWorker opts)) AtRange).
Proof.
  split; cbn.
  - by rewrite length_replicate.
  - by rewrite take_0.
  - done.
  - induction (Z.to_nat _); [done|]. cbn. done.
  - intros id. destruct (replicate _ _ !! id) as [w|] eqn:E; [|done].
    apply lookup_replicate in E as [-> _]. done.
  - intros [? _]%elem_of_replicate. done.
  - apply Forall_replicate. done.
  - constructor.
Qed.

Lemma invariant_step tr m ch closed ws ev m' ch' closed' ws' :
  invariant world opts inputUserList tr m ch closed ws →
  step world opts inputUserList fs0 (Running m ch closed ws) ev (Running m' ch' closed' ws') →
  invariant world opts inputUserList (tr ++ [ev]) m' ch' closed' ws'.
Proof.
  intros [Hw Hm Hc Hh He Hr Hws Hres] Hstep.
  inversion Hstep; subst; clear Hstep.
  - (* send *)
    destruct Hm as (_ & Hs & Hn).
    split; trace_simpl.
    + done.
    + split; [done|]. split; [|done]. rewrite Hs. by erewrite take_S_r.
    + by rewrite Hc, app_assoc.
    + done.
    + intros id. trace_simpl. apply He.
    + intros Hin. by destruct (Hr Hin).
    + done.
    + done.
  - (* close *)
    destruct Hm as (_ & Hs & Hn).
    split; trace_simpl.
    + done.
    + rewrite Hs, Hn. split_and!; try done.
      * apply take_ge. by apply lookup_ge_None.
      * apply elem_of_app; right. by apply list_elem_of_singleton.
    + done.
    + done.
    + intros id. trace_simpl. apply He.
    + intros Hin. by destruct (Hr Hin).
    + done.
    + done.
  - (* take *)
    split; trace_simpl.
    + revert Hw. by rewrite !length_app.
    + destruct m' as [i|i userList]; [done|].
      destruct Hm as (? & ? & ? & ? & ?). split_and!; try done. apply elem_of_app; by left.
    + rewrite Hc. by rewrite <-app_assoc.
    + rewrite Hh, !held_middle. cbn.
      by rewrite <-!Permutation_middle, !app_nil_r, app_assoc.
    + intros id. trace_simpl. destruct (decide (length l1 = id)) as [<-|Hne].
      * rewrite He, !list_lookup_middle by done. cbn. by rewrite app_nil_r.
      * rewrite He, app_nil_r. do 3 f_equal; by apply lookup_middle_ne.
    + intros Hin. destruct Hr as [? _]; [|done]. by eapply Returned_middle.
    + revert Hws. rewrite !Forall_app, !Forall_cons. intros (? & _ & ?).
      split_and!; try done. apply onPath_start.
    + done.
  - (* return *)
    split; trace_simpl.
    + revert Hw. by rewrite !length_app.
    + destruct m' as [i|i userList]; [done|].
      destruct Hm as (? & ? & ? & ? & ?). split_and!; try done. apply elem_of_app; by left.
    + by rewrite Hc, app_nil_r.
    + by rewrite Hh, !held_middle.
    + intros id. trace_simpl. destruct (decide (length l1 = id)) as [<-|Hne].
      * rewrite He, !list_lookup_middle by done. done.
      * rewrite He. do 3 f_equal; by apply lookup_middle_ne.
    + done.
    + revert Hws. rewrite !Forall_app, !Forall_cons. intros (? & _ & ?). done.
    + done.
  - (* next page *)
    split; trace_simpl.
    + revert Hw. by rewrite !length_app.
    + destruct m' as [i|i userList]; [done|].
      destruct Hm as (? & ? & ? & ? & ?). split_and!; try done. apply elem_of_app; by left.
    + done.
    + by rewrite Hh, !held_middle.
    + intros id. trace_simpl. destruct (decide (length l1 = id)) as [<-|Hne].
      * rewrite He, !list_lookup_middle by done. done.
      * rewrite He. do 3 f_equal; by apply lookup_middle_ne.
    + intros Hin. apply Hr. by eapply Returned_middle.
    + revert Hws. rewrite !Forall_app, !Forall_cons. intros (? & Hp & ?).
      split_and!; try done. by eapply onPath_next.
    + done.
  - (* last page *)
    split; trace_simpl.
    + revert Hw. by rewrite !length_app.
    + destruct m' as [i|i userList]; [done|].
      destruct Hm as (? & ? & ? & ? & ?). split_and!; try done. apply elem_of_app; by left.
    + done.
    + by rewrite Hh, !held_middle.
    + intros id. trace_simpl. destruct (decide (length l1 = id)) as [<-|Hne].
      * rewrite He, !list_lookup_middle by done. done.
      * rewrite He. do 3 f_equal; by apply lookup_middle_ne.
    + intros Hin. apply Hr. by eapply Returned_middle.
    + revert Hws. rewrite !Forall_app, !Forall_cons. intros (? & Hp & ?).
      split_and!; try done. by eapply onPath_break.
    + done.
  - (* result *)
    destruct Hm as (? & ? & ? & ? & ?).
    split; trace_simpl.
    + revert Hw. by rewrite !length_app.
    + split_and!; try done.
      * apply elem_of_app; by left.
      * rewrite length_app. cbn. lia.
      * subst userList. cbn. by destruct user.
    + done.
    + rewrite Hh, !held_middle, fmap_app. cbn.
      rewrite <-(assoc_L (++)). cbn. by rewrite <-!Permutation_middle.
    + intros id. trace_simpl. destruct (decide (length l1 = id)) as [<-|Hne].
      * rewrite He, !list_lookup_middle by done. cbn. by rewrite app_nil_r.
      * rewrite He, app_nil_r. do 3 f_equal; by apply lookup_middle_ne.
    + intros Hin. apply Hr. by eapply Returned_middle.
    + revert Hws. rewrite !Forall_app, !Forall_cons. intros (? & Hp & ?). done.
    + apply Forall_app. split; [done|]. revert Hws.
      rewrite !Forall_app, !Forall_cons. intros (? & Hp & ?). by constructor.
Qed.

Lemma steps_invariant tr m ch closed ws :
  steps world opts inputUserList fs0 tr (Running m ch closed ws) →
  invariant world opts inputUserList tr m ch closed ws.
Proof.
  intros Hsteps. remember (Running m ch closed ws) as s eqn:Hs.
  revert m ch closed ws Hs.
  induction Hsteps as [|tr s ev s' Hsteps IH Hstep]; intros m ch closed ws Hs.
  - injection Hs as <- <- <- <-. apply invariant_init.
  - subst s'. destruct s as [m0 ch0 closed0 ws0|]; [|inversion Hstep].
    eapply invariant_step; [by apply IH|done].
Qed.

(** A run that has ended does not move. *)
Lemma exited_stuck st fs : stuck world opts inputUserList fs0 (Exited st fs).
Proof. intros ev s' Hstep. inversion Hstep. Qed.

(** Every earlier moment of a run is a run. *)
Lemma steps_prefix tr1 tr2 s :
  steps world opts inputUserList fs0 (tr1 ++ tr2) s →
  ∃ s1, steps world opts inputUserList fs0 tr1 s1.
Proof.
  revert s. induction tr2 as [|ev tr2 IH] using rev_ind; intros s.
  - rewrite app_nil_r. eauto.
  - rewrite app_assoc. inversion 1 as [Heq|tr s0 ev0 s0' Hsteps Hstep Heq].
    + by destruct (tr1 ++ tr2).
    + apply app_inj_tail in Heq as [-> ->]. eauto.
Qed.

Lemma steps_snoc tr ev s :
  steps world opts inputUserList fs0 (tr ++ [ev]) s →
  ∃ s0, steps world opts inputUserList fs0 tr s0 ∧
        step world opts inputUserList fs0 s0 ev s.
Proof.
  inversion 1 as [Heq|tr0 s0 ev0 s0' Hsteps Hstep Heq].
  - by destruct tr.
  - apply app_inj_tail in Heq as [-> ->]. eauto.
Qed.

End PoolFacts.

(** ** Progress *)

Section PoolProgress.

Context (world : World) (opts : options).
Context (inputUserList : list inputUser) (fs0 : files).

(** What the counts of an invariant state add up to. *)
Lemma invariant_counts tr m ch closed ws :
  invariant world opts inputUserList tr m ch closed ws →
  length (omap sent tr) =
  length (omap resulted tr) + length (omap held ws) + length ch.
Proof.
  intros [_ _ Hc Hh _ _ _ _].
  rewrite Hc, length_app, Hh, length_app, length_fmap. lia.
Qed.

Lemma invariant_sent_le tr m ch closed ws :
  invariant world opts inputUserList tr m ch closed ws →
  length (omap sent tr) ≤ numberOfUsers inputUserList.
Proof.
  intros [_ Hm _ _ _ _ _ _]. destruct m as [i|i userList].
  - destruct Hm as (_ & -> & _). rewrite length_take. unfold numberOfUsers. lia.
  - by destruct Hm as (_ & -> & _).
Qed.

(** A worker that has not returned can move, unless it waits for
    [main] to receive or for a user to arrive. *)
Lemma worker_moves m ch closed l1 w l2 :
  w ≠ Returned →
  (∃ ev s', step world opts inputUserList fs0 (Running m ch closed (l1 ++ w :: l2)) ev s') ∨
  (∃ x user, w = AtResult x user) ∨
  (w = AtRange ∧ ch = [] ∧ closed = false).
Proof.
  intros Hw. destruct w as [|x keys marker|x user|]; [| | |done].
  - destruct ch as [|x ch].
    + destruct closed; [|by right; right].
      left. eexists _, _. apply step_return.
    + left. eexists _, _. apply step_take.
  - left. destruct (keyPage keys (listKeys world x marker)) as [keys' marker'|keys'|f] eqn:E.
    + eexists _, _. by eapply step_page_next.
    + eexists _, _. by eapply step_page_break.
    + eexists _, _. by eapply step_page_fatal.
  - right; left. eauto.
Qed.

Lemma all_returned_held ws :
  Forall (λ w, w = Returned) ws → omap held ws = [].
Proof. induction 1 as [|w ws -> _ IH]; [done|]. cbn. done. Qed.

(** With at least one worker, or without users, a running process
    can always move. *)
Lemma progress tr m ch closed ws :
  (0 < numOfWorker opts)%Z ∨ inputUserList = [] →
  steps world opts inputUserList fs0 tr (Running m ch closed ws) →
  ∃ ev s', step world opts inputUserList fs0 (Running m ch closed ws) ev s'.
Proof.
  intros HW Hsteps. pose proof (steps_invariant _ _ _ _ _ _ _ _ _ Hsteps) as Hinv.
  pose proof (invariant_counts _ _ _ _ _ Hinv) as Hcount.
  destruct Hinv as [Hw Hm Hc Hh He Hr Hws Hres].
  destruct m as [i|i userList].
  - destruct Hm as (-> & Hs & Hn).
    destruct (inputUserList !! i) as [x|] eqn:E.
    + eexists _, _. apply step_send; [done|].
      apply lookup_lt_Some in E.
      assert (length ch ≤ i); [|unfold numberOfUsers; lia].
      rewrite Hs, length_take in Hcount. lia.
    + eexists _, _. by apply step_close.
  - destruct Hm as (-> & Hs & Hclose & -> & ->).
    destruct (decide (length (omap resulted tr) < numberOfUsers inputUserList)) as [Hlt|Hge].
    2: { destruct (writeRecordsToCSV world (outputFile opts)
                     (omap snd (omap resulted tr)) fs0) as [err fs] eqn:E.
         eexists _, _. by eapply step_write. }
    rewrite Hs in Hcount. fold (numberOfUsers inputUserList) in Hcount.
    destruct (workers_cases ws) as [(l1 & w & l2 & -> & Hne)|Hall].
    + destruct (worker_moves (Receiving (length (omap resulted tr))
                  (omap snd (omap resulted tr))) ch true l1 w l2 Hne)
        as [Hmove|[(x & user & ->)|(_ & _ & [=])]]; [done|].
      eexists _, _. by apply step_result.
    + exfalso. rewrite (all_returned_held _ Hall) in Hcount. cbn in Hcount.
      destruct ws as [|w ws].
      * cbn in Hw. destruct HW as [HW| ->]; [lia|]. cbn in Hlt. lia.
      * apply Forall_cons in Hall as [-> _].
        destruct Hr as [-> _]; [by left|]. cbn in Hcount. lia.
Qed.

(** When [main] has received everything, every user has been sent,
    taken and answered, and the report lists the answers. *)
Lemma invariant_complete tr i userList ch closed ws :
  invariant world opts inputUserList tr (Receiving i userList) ch closed ws →
  ¬ i < numberOfUsers inputUserList →
  i = numberOfUsers inputUserList ∧ ch = [] ∧ omap held ws = [] ∧
  omap sent tr = inputUserList ∧ omap taken tr = inputUserList ∧
  (omap resulted tr).*1 ≡ₚ inputUserList ∧
  userList = omap snd (omap resulted tr).
Proof.
  intros Hinv Hge. pose proof (invariant_counts _ _ _ _ _ Hinv) as Hcount.
  destruct Hinv as [Hw Hm Hc Hh He Hr Hws Hres].
  destruct Hm as (-> & Hs & Hclose & -> & ->).
  rewrite Hs in Hcount. fold (numberOfUsers inputUserList) in Hcount.
  assert (length ch = 0) as ->%nil_length_inv by lia.
  assert (length (omap held ws) = 0) as Hheld%nil_length_inv by lia.
  rewrite Hheld, app_nil_r in Hh. rewrite app_nil_r in Hc.
  split_and!; try done; try lia.
  - congruence.
  - by rewrite <-Hh, <-Hc, Hs.
Qed.

End PoolProgress.

(** ** Termination *)

Lemma halts_next world fuel x keys marker keys' marker' :
  halts world fuel x keys marker →
  keyPage keys (listKeys world x marker) = NextPage keys' marker' →
  halts world fuel x keys' marker' ∧
  callsLeft world fuel x keys marker = S (callsLeft world fuel x keys' marker').
Proof.
  unfold halts, callsLeft. destruct fuel as [|fuel']; [done|]. intros Hh Hk.
  pose proof (listAccessKeysLoop_S world fuel' x keys marker []) as E.
  rewrite Hk in E. cbn zeta in E. rewrite E in Hh |- *. clear E.
  rewrite (listAccessKeysLoop_log world fuel') in Hh |- *.
  cbn [fst snd app length] in Hh |- *.
  rewrite listAccessKeysLoop_mono by done. done.
Qed.

Lemma halts_pos world fuel x keys marker :
  halts world fuel x keys marker → 0 < callsLeft world fuel x keys marker.
Proof.
  unfold halts, callsLeft. destruct fuel as [|fuel']; [done|]. intros _.
  rewrite listAccessKeysLoop_S. cbn zeta.
  destruct (keyPage _ _); cbn [fst snd app length]; try lia.
  rewrite listAccessKeysLoop_log. cbn [fst snd app length]. lia.
Qed.

Lemma sum_list_append (l1 l2 : list nat) :
  sum_list (l1 ++ l2) = sum_list l1 + sum_list l2.
Proof. induction l1 as [|n l1 IH]; cbn; lia. Qed.

Section PoolCost.

Context (world : World) (opts : options).
Context (inputUserList : list inputUser) (fs0 : files).
Context (fuel : nat).

Lemma cost_middle l1 w l2 :
  sum_list (workerCost world fuel <$> l1 ++ w :: l2) =
  sum_list (workerCost world fuel <$> l1) + workerCost world fuel w +
  sum_list (workerCost world fuel <$> l2).
Proof. rewrite fmap_app, sum_list_append. cbn. lia. Qed.

Lemma mainCost_pos m : 0 < mainCost world fuel inputUserList m.
Proof. destruct m; cbn; lia. Qed.

Hypothesis users_halt : Forall (λ x, halts world fuel x [] None) inputUserList.

(** Every step of a process whose listing loops halt uses up cost. *)
Lemma step_cost m ch closed ws ev s' :
  Forall (workerHalts world fuel) ws →
  Forall (λ x, halts world fuel x [] None) ch →
  step world opts inputUserList fs0 (Running m ch closed ws) ev s' →
  cost world fuel inputUserList s' < cost world fuel inputUserList (Running m ch closed ws) ∧
  match s' with
  | Running _ ch' _ ws' =>
      Forall (workerHalts world fuel) ws' ∧ Forall (λ x, halts world fuel x [] None) ch'
  | Exited _ _ => True
  end.
Proof.
  intros Hws Hch Hstep. inversion Hstep; subst; clear Hstep; cbn.
  - (* send *)
    erewrite (drop_S _ _ i) by done. rewrite !fmap_app, sum_list_append. cbn.
    split; [lia|]. split; [done|]. apply Forall_app. split; [done|].
    constructor; [|done]. pose proof users_halt as Hu.
    rewrite Forall_forall in Hu. apply Hu. by eapply list_elem_of_lookup_2.
  - (* close *)
    split; [lia|done].
  - (* take *)
    rewrite !cost_middle. cbn. unfold queuedCost.
    apply Forall_cons in Hch as [Hx Hch]. split; [lia|]. split; [|done].
    revert Hws. rewrite !Forall_app, !Forall_cons. intros (? & _ & ?). done.
  - (* return *)
    rewrite !cost_middle. cbn. split; [lia|]. split; [|done].
    revert Hws. rewrite !Forall_app, !Forall_cons. intros (? & _ & ?). done.
  - (* next page *)
    rewrite !cost_middle. cbn.
    revert Hws. rewrite !Forall_app, !Forall_cons. intros (? & Hx & ?).
    match goal with Hk : keyPage _ _ = NextPage _ _ |- _ =>
      destruct (halts_next _ _ _ _ _ _ _ Hx Hk) as [Hx' Hcalls] end.
    split; [lia|done].
  - (* last page *)
    rewrite !cost_middle. cbn.
    revert Hws. rewrite !Forall_app, !Forall_cons. intros (? & Hx & ?).
    apply halts_pos in Hx. split; [lia|done].
  - (* fatal *)
    pose proof (mainCost_pos m). split; [lia|done].
  - (* result *)
    rewrite !cost_middle. cbn. split; [lia|]. split; [|done].
    revert Hws. rewrite !Forall_app, !Forall_cons. intros (? & _ & ?). done.
  - (* write *)
    split; [lia|done].
Qed.

(** No run is longer than the cost of the initial state. *)
Lemma steps_cost tr s :
  steps world opts inputUserList fs0 tr s →
  length tr + cost world fuel inputUserList s ≤ cost world fuel inputUserList (init opts) ∧
  match s with
  | Running _ ch _ ws =>
      Forall (workerHalts world fuel) ws ∧ Forall (λ x, halts world fuel x [] None) ch
  | Exited _ _ => True
  end.
Proof.
  induction 1 as [|tr s ev s' Hsteps [IHc IHh] Hstep].
  - split; [cbn; lia|]. split; [|done]. by apply Forall_replicate.
  - destruct s as [m ch closed ws|]; [|inversion Hstep].
    destruct IHh as [Hws Hch].
    destruct (step_cost _ _ _ _ _ _ Hws Hch Hstep) as [Hlt Hh].
    split; [|done]. rewrite length_app. cbn [length]. lia.
Qed.

Lemma steps_bounded tr s :
  steps world opts inputUserList fs0 tr s →
  length tr ≤ cost world fuel inputUserList (init opts).
Proof. intros [? _]%steps_cost. lia. Qed.

(** So a run that can always move ends: from every state of a run the
    process reaches its exit. *)
Lemma steps_exit tr s :
  (0 < numOfWorker opts)%Z ∨ inputUserList = [] →
  steps world opts inputUserList fs0 tr s →
  ∃ tr' status fs, steps world opts inputUserList fs0 (tr ++ tr') (Exited status fs).
Proof.
  intros HW Hsteps.
  remember (cost world fuel inputUserList s) as n eqn:Hn. revert tr s Hsteps Hn.
  induction n as [n IH] using lt_wf_ind. intros tr s Hsteps ->.
  destruct s as [m ch closed ws|status fs].
  - destruct (progress _ _ _ _ _ _ _ _ _ HW Hsteps) as (ev & s' & Hstep).
    destruct (steps_cost _ _ Hsteps) as [_ [Hws Hch]].
    destruct (step_cost _ _ _ _ _ _ Hws Hch Hstep) as [Hlt _].
    destruct (IH _ Hlt (tr ++ [ev]) s') as (tr' & status & fs & Hend); [|done|].
    { by econstructor. }
    exists (ev :: tr'), status, fs. by rewrite cons_middle, app_assoc.
  - exists [], status, fs. by rewrite app_nil_r.
Qed.

End PoolCost.

(** ** The report of a run that ended *)

Lemma listAccessKeysLoop_det world fuel1 fuel2 x keys marker log :
  (listAccessKeysLoop world fuel1 x keys marker log).1 ≠ Spin →
  (listAccessKeysLoop world fuel2 x keys marker log).1 ≠ Spin →
  listAccessKeysLoop world fuel1 x keys marker log =
  listAccessKeysLoop world fuel2 x keys marker log.
Proof.
  intros H1 H2. destruct (decide (fuel1 ≤ fuel2)).
  - symmetry. by apply listAccessKeysLoop_le.
  - apply listAccessKeysLoop_le; [lia|done].
Qed.

Lemma finished_outcome world fuel x user :
  finished world x user →
  halts world fuel x [] None →
  (processUser world fuel x []).1 = Ok user.
Proof.
  intros (fuel' & calls & Hp) Hh. rewrite processUser_eq in Hp |- *.
  destruct (listAccessKeysLoop world fuel' x [] None []) as [r calls'] eqn:E.
  destruct r as [keys| | |]; try done. injection Hp as <- <-.
  rewrite (listAccessKeysLoop_det world fuel fuel'), E; [done|done|by rewrite E].
Qed.

Lemma finished_userOutcome world fuel x user :
  finished world x user → halts world fuel x [] None → userOutcome world fuel x = user.
Proof. intros Hf Hh. unfold userOutcome. by rewrite (finished_outcome _ _ _ user). Qed.

Lemma succeeds_halts world fuel x : succeeds world fuel x → halts world fuel x [] None.
Proof. intros [keys Hk]. unfold halts. by rewrite Hk. Qed.

Lemma userOutcome_listedKeys world fuel x :
  halts world fuel x [] None →
  userOutcome world fuel x = workerResult x (listedKeys world fuel x).
Proof.
  unfold halts, userOutcome, listedKeys. rewrite processUser_eq.
  by destruct (listAccessKeysLoop world fuel x [] None []) as [[] ?].
Qed.

Lemma writeRecords_ok world filename userList fs rows fs' :
  writeRecords world filename userList (<[filename := rows]> fs) = (None, fs') →
  fs' = <[filename := rows ++ (userRecord <$> userList)]> fs.
Proof.
  revert rows. induction userList as [|user userList IH]; intros rows; cbn.
  - intros [= _ <-]. by rewrite app_nil_r.
  - destruct (Write world (userRecord user)); [done|].
    rewrite alter_insert_eq. intros ->%IH. by rewrite <-app_assoc.
Qed.

Lemma writeRecordsToCSV_ok world filename userList fs fs' :
  writeRecordsToCSV world filename userList fs = (None, fs') →
  fs' = <[filename := userRecord <$> userList]> fs.
Proof.
  unfold writeRecordsToCSV. destruct (Create world filename); [done|].
  by intros ->%writeRecords_ok.
Qed.

Lemma writeRecordsToCSV_writable world filename userList fs :
  writable world filename →
  writeRecordsToCSV world filename userList fs =
  (None, <[filename := userRecord <$> userList]> fs).
Proof.
  intros (Hc & Hw & Hf). unfold writeRecordsToCSV. rewrite Hc.
  assert (∀ rows, writeRecords world filename userList (<[filename := rows]> fs) =
                  (None, <[filename := rows ++ (userRecord <$> userList)]> fs)) as H.
  { induction userList as [|user userList IH]; intros rows; cbn.
    - by rewrite Hf, app_nil_r.
    - by rewrite Hw, alter_insert_eq, IH, <-app_assoc. }
  apply H.
Qed.

Section PoolReport.

Context (world : World) (opts : options).
Context (inputUserList : list inputUser) (fs0 : files).

(** How a run ends: with the report written, or with the fatal message
    of a failed key listing. *)
Lemma steps_exited tr status fs :
  steps world opts inputUserList fs0 tr (Exited status fs) →
  ∃ tr0 m ch closed ws ev,
    tr = tr0 ++ [ev] ∧
    steps world opts inputUserList fs0 tr0 (Running m ch closed ws) ∧
    step world opts inputUserList fs0 (Running m ch closed ws) ev (Exited status fs).
Proof.
  inversion 1 as [Heq|tr0 s ev s' Hsteps Hstep]; subst.
  destruct s as [m ch closed ws|]; [|inversion Hstep].
  by exists tr0, m, ch, closed, ws, ev.
Qed.

(** A run that ended with status 0 has received one result per user and
    has written the users found, in the order of arrival. *)
Lemma steps_exit_ok tr fs :
  steps world opts inputUserList fs0 tr (Exited None fs) →
  ∃ tr0,
    tr = tr0 ++ [WriteReport] ∧
    (omap resulted tr0).*1 ≡ₚ inputUserList ∧
    Forall (λ xu, finished world xu.1 xu.2) (omap resulted tr0) ∧
    omap sent tr0 = inputUserList ∧ omap taken tr0 = inputUserList ∧
    fs = <[outputFile opts := userRecord <$> omap snd (omap resulted tr0)]> fs0.
Proof.
  intros (tr0 & m & ch & closed & ws & ev & -> & Hsteps & Hstep)%steps_exited.
  apply steps_invariant in Hsteps as Hinv.
  inversion Hstep as [| | | | | | | |i userList ch' closed' ws' err fs' Hi Hw]; subst.
  destruct err; [done|].
  destruct (invariant_complete _ _ _ _ _ _ _ _ _ Hinv Hi)
    as (_ & _ & _ & Hs & Ht & Hperm & ->).
  exists tr0. split_and!; try done.
  - by destruct Hinv.
  - by apply writeRecordsToCSV_ok in Hw.
Qed.

(** The rows of the report are those of the users with keys, in some
    order. *)
Lemma steps_exit_rows fuel tr fs :
  Forall (λ x, halts world fuel x [] None) inputUserList →
  steps world opts inputUserList fs0 tr (Exited None fs) →
  ∃ rows,
    fs = <[outputFile opts := rows]> fs0 ∧
    rows ≡ₚ userRecord <$> omap (userOutcome world fuel) inputUserList.
Proof.
  intros Hh (tr0 & -> & Hperm & Hfin & _ & _ & ->)%steps_exit_ok.
  eexists. split; [done|].
  assert (Forall (λ x, halts world fuel x [] None) (omap resulted tr0).*1) as Hh'.
  { by rewrite Hperm. }
  assert (omap snd (omap resulted tr0) =
          omap (userOutcome world fuel) (omap resulted tr0).*1) as ->.
  { clear Hperm. revert Hh'.
    induction Hfin as [|[x user] results Hx _ IH]; [done|].
    cbn [fmap list_fmap fst snd omap list_omap] in *.
    intros [Hhx Hh']%Forall_cons.
    rewrite (finished_userOutcome _ _ _ user) by done.
    rewrite IH by done. done. }
  by rewrite Hperm.
Qed.

End PoolReport.

(** ** Runs without failures *)

Section PoolSuccess.

Context (world : World) (opts : options).
Context (inputUserList : list inputUser) (fs0 : files).

Lemma invariant_held_in tr m ch closed ws x :
  invariant world opts inputUserList tr m ch closed ws →
  x ∈ omap held ws → x ∈ inputUserList.
Proof.
  intros [_ Hm Hc Hh _ _ _ _] Hx.
  assert (x ∈ omap sent tr) as Hs.
  { rewrite Hc, elem_of_app, Hh, elem_of_app. auto. }
  destruct m as [i|i userList].
  - destruct Hm as (_ & Hs' & _). rewrite Hs' in Hs.
    apply elem_of_take in Hs as (j & Hj & _). by eapply list_elem_of_lookup_2.
  - destruct Hm as (_ & Hs' & _). by rewrite Hs' in Hs.
Qed.

Lemma invariant_chan_in tr m ch closed ws x :
  invariant world opts inputUserList tr m ch closed ws →
  x ∈ ch → x ∈ inputUserList.
Proof.
  intros [_ Hm Hc _ _ _ _ _] Hx.
  assert (x ∈ omap sent tr) as Hs.
  { rewrite Hc, elem_of_app. auto. }
  destruct m as [i|i userList].
  - destruct Hm as (_ & Hs' & _). rewrite Hs' in Hs.
    apply elem_of_take in Hs as (j & Hj & _). by eapply list_elem_of_lookup_2.
  - destruct Hm as (_ & Hs' & _). by rewrite Hs' in Hs.
Qed.

(** When no key listing fails, a run can only end by writing the
    report. *)
Lemma steps_exited_write fuel tr status fs :
  Forall (succeeds world fuel) inputUserList →
  steps world opts inputUserList fs0 tr (Exited status fs) →
  ∃ tr0 i userList ch closed ws,
    tr = tr0 ++ [WriteReport] ∧
    steps world opts inputUserList fs0 tr0 (Running (Receiving i userList) ch closed ws) ∧
    step world opts inputUserList fs0 (Running (Receiving i userList) ch closed ws)
      WriteReport (Exited status fs).
Proof.
  intros Hok (tr0 & m & ch & closed & ws & ev & -> & Hsteps & Hstep)%steps_exited.
  apply steps_invariant in Hsteps as Hinv.
  inversion Hstep as [| | | | | |m' ch' closed' l1 l2 x keys marker f Hk| |]; subst.
  - exfalso.
    assert (x ∈ inputUserList) as Hx.
    { eapply invariant_held_in; [done|]. rewrite held_middle. cbn.
      rewrite elem_of_app, elem_of_cons. auto. }
    rewrite Forall_forall in Hok. destruct (Hok x Hx) as [keys' Hkeys'].
    destruct Hinv as [_ _ _ _ _ _ Hws _].
    rewrite Forall_app, Forall_cons in Hws. destruct Hws as (_ & Hp & _).
    destruct (Hp 1 (Exit f) [CallListAccessKeys (iamClient x) (name x) marker])
      as (fuel' & calls' & Hl); [|done|].
    { by rewrite listAccessKeysLoop_S, Hk. }
    rewrite (listAccessKeysLoop_det world fuel fuel'), Hl in Hkeys'; [done| |].
    + by rewrite Hkeys'.
    + by rewrite Hl.
  - eauto 10.
Qed.

Lemma steps_exited_ok fuel tr status fs :
  Forall (succeeds world fuel) inputUserList →
  writable world (outputFile opts) →
  steps world opts inputUserList fs0 tr (Exited status fs) →
  status = None.
Proof.
  intros Hok Hw (tr0 & i & userList & ch & closed & ws & -> & _ & Hstep)%(steps_exited_write fuel);
    [|done].
  inversion Hstep as [| | | | | | | |i' userList' ch' closed' ws' err fs' Hi Hwr]; subst.
  rewrite writeRecordsToCSV_writable in Hwr by done. by injection Hwr as <- <-.
Qed.

End PoolSuccess.

(** ** What the traces show *)

Section PoolTraces.

Context (world : World) (opts : options).
Context (inputUserList : list inputUser) (fs0 : files).

Lemma length_omap_le {A B} (f : A → option B) (l : list A) :
  length (omap f l) ≤ length l.
Proof. induction l as [|a l IH]; [done|]. cbn. destruct (f a); cbn; lia. Qed.

Lemma invariant_accounted tr m ch closed ws :
  invariant world opts inputUserList tr m ch closed ws →
  accounted opts inputUserList tr.
Proof.
  intros [Hw Hm Hc Hh He _ _ _]. split_and!.
  - destruct m as [i|i userList].
    + destruct Hm as (_ & -> & _). exists (drop i inputUserList). by rewrite take_drop.
    + destruct Hm as (_ & -> & _). done.
  - by exists ch.
  - exists (omap held ws). split; [done|]. rewrite <-Hw. apply length_omap_le.
  - intros id. eauto.
Qed.

(** The last step of a run that ended shows nothing of that. *)
Lemma step_exit_silent m ch closed ws ev status fs :
  step world opts inputUserList fs0 (Running m ch closed ws) ev (Exited status fs) →
  sent ev = None ∧ taken ev = None ∧ resulted ev = None ∧
  ∀ id, takenBy id ev = None ∧ resultedBy id ev = None.
Proof. inversion 1; subst; done. Qed.

Lemma steps_accounted tr s :
  steps world opts inputUserList fs0 tr s → accounted opts inputUserList tr.
Proof.
  intros Hsteps. destruct s as [m ch closed ws|status fs].
  - eapply invariant_accounted, steps_invariant, Hsteps.
  - apply steps_exited in Hsteps as (tr0 & m & ch & closed & ws & ev & -> & Hsteps & Hstep).
    apply steps_invariant, invariant_accounted in Hsteps.
    apply step_exit_silent in Hstep as (Hs & Ht & Hr & Hid).
    unfold accounted in *. rewrite !omap_app. cbn [omap list_omap].
    rewrite Hs, Ht, Hr, !app_nil_r.
    destruct Hsteps as (? & ? & ? & Heach). split_and!; try done.
    intros id. rewrite !omap_app. cbn [omap list_omap].
    destruct (Hid id) as [-> ->]. rewrite !app_nil_r. apply Heach.
Qed.

(** The report is written by the last step of a run only. *)
Lemma steps_running_no_write tr m ch closed ws :
  steps world opts inputUserList fs0 tr (Running m ch closed ws) → WriteReport ∉ tr.
Proof.
  intros Hsteps. remember (Running m ch closed ws) as s eqn:Hs.
  revert m ch closed ws Hs.
  induction Hsteps as [|tr s ev s' Hsteps IH Hstep]; intros m ch closed ws Hs.
  - by intros ?%elem_of_nil.
  - subst s'. destruct s as [m0 ch0 closed0 ws0|]; [|inversion Hstep].
    intros [Hin|Hin%list_elem_of_singleton]%elem_of_app.
    + by eapply IH.
    + subst ev. inversion Hstep.
Qed.

(** When the report is written, every user has been sent, taken and
    answered. *)
Lemma steps_write_complete tr s :
  steps world opts inputUserList fs0 tr s →
  WriteReport ∈ tr →
  ∃ tr0 status fs,
    tr = tr0 ++ [WriteReport] ∧ s = Exited status fs ∧
    length (omap resulted tr) = length inputUserList ∧
    omap sent tr = inputUserList ∧ omap taken tr = inputUserList ∧
    (omap resulted tr).*1 ≡ₚ inputUserList ∧
    ∀ id, omap (takenBy id) tr = omap (resultedBy id) tr.
Proof.
  intros Hsteps Hin. destruct s as [m ch closed ws|status fs].
  { by apply steps_running_no_write in Hsteps. }
  apply steps_exited in Hsteps as (tr0 & m & ch & closed & ws & ev & -> & Hsteps & Hstep).
  apply steps_running_no_write in Hsteps as Hno.
  apply elem_of_app in Hin as [Hin|Hin%list_elem_of_singleton]; [done|]. subst ev.
  apply steps_invariant in Hsteps as Hinv.
  inversion Hstep as [| | | | | | | |i userList ch' closed' ws' err fs' Hi Hw]; subst.
  destruct (invariant_complete _ _ _ _ _ _ _ _ _ Hinv Hi)
    as (Hn & _ & Hheld & Hs & Ht & Hperm & _).
  exists tr0, ((λ e, Fatal "error when writing records to CSV file" [zapError e]) <$> err), fs.
  rewrite !omap_app. cbn. rewrite !app_nil_r. split_and!; try done.
  - destruct Hinv as [_ Hm _ _ _ _ _ _]. destruct Hm as (_ & _ & _ & <- & _).
    done.
  - intros id. rewrite !omap_app. cbn. rewrite !app_nil_r.
    destruct Hinv as [_ _ _ _ He _ _ _]. rewrite He.
    assert (ws !! id ≫= held = None) as ->; [|by rewrite app_nil_r].
    destruct (ws !! id) as [w|] eqn:E; [|done]. cbn.
    destruct (held w) as [x|] eqn:Ex; [|done].
    assert (x ∈ omap held ws) as Hx; [|by rewrite Hheld in Hx; apply elem_of_nil in Hx].
    apply list_elem_of_omap. exists w. split; [|done]. by eapply list_elem_of_lookup_2.
Qed.

(** A worker leaves its loop only after the channel was filled and
    closed. *)
Lemma steps_return_closed tr1 id tr2 s :
  steps world opts inputUserList fs0 (tr1 ++ Return id :: tr2) s →
  Close ∈ tr1 ∧ omap sent tr1 = inputUserList.
Proof.
  rewrite cons_middle, app_assoc.
  intros [s1 (s0 & Hsteps & Hstep)%steps_snoc]%steps_prefix.
  inversion Hstep as [| | |m l1 l2| | | | |]; subst.
  apply steps_invariant in Hsteps as [_ Hm _ _ _ _ _ _].
  destruct m as [i|i userList]; [by destruct Hm|].
  by destruct Hm as (_ & ? & ? & _).
Qed.

(** A run in which the pool works never has more operations in flight
    than workers. *)
Lemma steps_in_flight tr m ch closed ws :
  steps world opts inputUserList fs0 tr (Running m ch closed ws) →
  length ws = Z.to_nat (numOfWorker opts) ∧
  length (filter (λ w, inFlight w = true) ws) ≤ Z.to_nat (numOfWorker opts).
Proof.
  intros [Hw _ _ _ _ _ _ _]%steps_invariant. split; [done|].
  rewrite <-Hw. apply length_filter.
Qed.

End PoolTraces.

(** ** The scenario of the specification, run *)

Lemma scenario_enumerates :
  enumerateUsers Sample.scenario 1 defaultOptions [] =
  (Ok [Sample.alice; Sample.bob],
   [CallAssumeRole "arn:aws:iam::111111111111:role/ReadOnly";
    CallListUsers Sample.creds None]).
Proof. reflexivity. Qed.

Lemma scenario_steps :
  steps Sample.scenario defaultOptions [Sample.alice; Sample.bob] ∅
        Sample.trace (Exited None Sample.report).
Proof.
  pose (W := Sample.scenario). pose (O := defaultOptions).
  pose (U := [Sample.alice; Sample.bob]). pose (rest := replicate 9 AtRange).
  pose proof (steps_init W O U ∅) as H.
  pose proof (steps_step _ _ _ _ _ _ _ _ H
    (step_send W O U ∅ 0 Sample.alice [] ([] ++ AtRange :: rest) eq_refl
       ltac:(vm_compute; lia))) as H1.
  pose proof (steps_step _ _ _ _ _ _ _ _ H1
    (step_send W O U ∅ 1 Sample.bob [Sample.alice] ([] ++ AtRange :: rest) eq_refl
       ltac:(vm_compute; lia))) as H2.
  pose proof (steps_step _ _ _ _ _ _ _ _ H2
    (step_close W O U ∅ 2 [Sample.alice; Sample.bob] ([] ++ AtRange :: rest) eq_refl)) as H3.
  pose proof (steps_step _ _ _ _ _ _ _ _ H3
    (step_take W O U ∅ (Receiving 0 []) Sample.alice [Sample.bob] true [] rest)) as H4.
  pose proof (steps_step _ _ _ _ _ _ _ _ H4
    (step_page_break W O U ∅ (Receiving 0 []) [Sample.bob] true [] rest
       Sample.alice [] None [Sample.key "AKIA1"] eq_refl)) as H5.
  pose proof (steps_step _ _ _ _ _ _ _ _ H5
    (step_result W O U ∅ 0 [] [Sample.bob] true [] rest
       Sample.alice (Some Sample.aliceFound) ltac:(vm_compute; lia))) as H6.
  pose proof (steps_step _ _ _ _ _ _ _ _ H6
    (step_take W O U ∅ (Receiving 1 [Sample.aliceFound]) Sample.bob [] true [] rest)) as H7.
  pose proof (steps_step _ _ _ _ _ _ _ _ H7
    (step_page_break W O U ∅ (Receiving 1 [Sample.aliceFound]) [] true [] rest
       Sample.bob [] None [] eq_refl)) as H8.
  pose proof (steps_step _ _ _ _ _ _ _ _ H8
    (step_result W O U ∅ 1 [Sample.aliceFound] [] true [] rest
       Sample.bob None ltac:(vm_compute; lia))) as H9.
  pose proof (steps_step _ _ _ _ _ _ _ _ H9
    (step_write W O U ∅ 2 [Sample.aliceFound] [] true ([] ++ AtRange :: rest)
       None Sample.report ltac:(vm_compute; lia) eq_refl)) as H10.
  exact H10.
Qed.

Lemma scenario_interleaved :
  steps Sample.scenario defaultOptions [Sample.alice; Sample.bob] ∅
        Sample.interleaved (Exited None Sample.report).
Proof.
  pose (W := Sample.scenario). pose (O := defaultOptions).
  pose (U := [Sample.alice; Sample.bob]). pose (rest := replicate 8 AtRange).
  pose (a0 := Listing Sample.alice [] None).
  pose proof (steps_init W O U ∅) as H.
  pose proof (steps_step _ _ _ _ _ _ _ _ H
    (step_send W O U ∅ 0 Sample.alice [] ([] ++ AtRange :: AtRange :: rest) eq_refl
       ltac:(vm_compute; lia))) as H1.
  pose proof (steps_step _ _ _ _ _ _ _ _ H1
    (step_take W O U ∅ (Sending 1) Sample.alice [] false [] (AtRange :: rest))) as H2.
  pose proof (steps_step _ _ _ _ _ _ _ _ H2
    (step_send W O U ∅ 1 Sample.bob [] (a0 :: AtRange :: rest) eq_refl
       ltac:(vm_compute; lia))) as H3.
  pose proof (steps_step _ _ _ _ _ _ _ _ H3
    (step_take W O U ∅ (Sending 2) Sample.bob [] false [a0] rest)) as H4.
  pose proof (steps_step _ _ _ _ _ _ _ _ H4
    (step_close W O U ∅ 2 [] ([a0] ++ Listing Sample.bob [] None :: rest) eq_refl)) as H5.
  pose proof (steps_step _ _ _ _ _ _ _ _ H5
    (step_page_break W O U ∅ (Receiving 0 []) [] true [a0] rest
       Sample.bob [] None [] eq_refl)) as H6.
  pose proof (steps_step _ _ _ _ _ _ _ _ H6
    (step_page_break W O U ∅ (Receiving 0 []) [] true [] (AtResult Sample.bob None :: rest)
       Sample.alice [] None [Sample.key "AKIA1"] eq_refl)) as H7.
  pose proof (steps_step _ _ _ _ _ _ _ _ H7
    (step_result W O U ∅ 0 [] [] true [AtResult Sample.alice (Some Sample.aliceFound)] rest
       Sample.bob None ltac:(vm_compute; lia))) as H8.
  pose proof (steps_step _ _ _ _ _ _ _ _ H8
    (step_result W O U ∅ 1 [] [] true [] (AtRange :: rest)
       Sample.alice (Some Sample.aliceFound) ltac:(vm_compute; lia))) as H9.
  pose proof (steps_step _ _ _ _ _ _ _ _ H9
    (step_return W O U ∅ (Receiving 2 [Sample.aliceFound]) [AtRange] rest)) as H10.
  pose proof (steps_step _ _ _ _ _ _ _ _ H10
    (step_write W O U ∅ 2 [Sample.aliceFound] [] true ([AtRange] ++ Returned :: rest)
       None Sample.report ltac:(vm_compute; lia) eq_refl)) as H11.
  exact H11.
Qed.

Lemma scenario_runs :
  mainRuns Sample.scenario defaultOptions 1 ∅
    [CallAssumeRole "arn:aws:iam::111111111111:role/ReadOnly";
     CallListUsers Sample.creds None]
    Sample.trace (Exited None Sample.report).
Proof. eapply runs_pool; [apply scenario_enumerates|apply scenario_steps]. Qed.

Lemma keyPage_items_nil keys out :
  iam.AccessKeyMetadataList out = [] → keyPage keys (inr out) = Break keys.
Proof. unfold keyPage. by intros ->. Qed.

Section PoolCalls.

Context (world : World) (opts : options).
Context (inputUserList : list inputUser) (fs0 : files).

(** A worker lists the keys of the user it took last, and of no
    other. *)
Lemma steps_call_holds tr1 id x marker tr2 s :
  steps world opts inputUserList fs0 (tr1 ++ CallKeys id x marker :: tr2) s →
  omap (takenBy id) tr1 = omap (resultedBy id) tr1 ++ [x].
Proof.
  rewrite cons_middle, app_assoc.
  intros [s1 (s0 & Hsteps & Hstep)%steps_snoc]%steps_prefix.
  inversion Hstep; subst;
    apply steps_invariant in Hsteps as [_ _ _ _ He _ _ _];
    by rewrite He, list_lookup_middle.
Qed.

(** ** A user whose first page of keys has no items *)

Context (x : inputUser) (out : iam.ListAccessKeysOutput).
Hypothesis first_page : listKeys world x None = inr out.
Hypothesis no_items : iam.AccessKeyMetadataList out = [].

Lemma empty_first_keyPage : keyPage [] (listKeys world x None) = Break [].
Proof. by rewrite first_page, keyPage_items_nil. Qed.

Lemma pending_middle l1 w l2 :
  length (filter (λ w, listingFor x w = true) (l1 ++ w :: l2)) =
  length (filter (λ w, listingFor x w = true) l1) +
  (if listingFor x w then 1 else 0) +
  length (filter (λ w, listingFor x w = true) l2).
Proof.
  rewrite filter_app, filter_cons, length_app.
  destruct (listingFor x w); case_decide; try done; cbn; lia.
Qed.

Lemma steps_empty_first tr m ch closed ws :
  steps world opts inputUserList fs0 tr (Running m ch closed ws) →
  Forall (emptyOk x) ws ∧
  Forall (λ marker, marker = None) (omap (callFor x) tr) ∧
  Forall (λ user, user = None) (omap (resultFor x) tr) ∧
  length (omap (callFor x) tr) + length (filter (λ w, listingFor x w = true) ws) =
  length (omap (takeOf x) tr).
Proof.
  intros Hsteps. remember (Running m ch closed ws) as s eqn:Hs.
  revert m ch closed ws Hs.
  induction Hsteps as [|tr s ev s' Hsteps IH Hstep]; intros m ch closed ws Hs.
  - injection Hs as <- <- <- <-. split_and!; try done.
    + by apply Forall_replicate.
    + cbn. induction (Z.to_nat _); [done|]. by rewrite replicate_S, filter_cons.
  - subst s'. destruct s as [m0 ch0 closed0 ws0|]; [|inversion Hstep].
    destruct (IH _ _ _ _ eq_refl) as (Hws & Hcalls & Hres & Hcount). clear IH.
    rewrite !omap_app, !Forall_app, !length_app.
    inversion Hstep; subst; clear Hstep; cbn [omap list_omap callFor resultFor takeOf].
    + split_and!; try done. cbn. lia.
    + split_and!; try done. cbn. lia.
    + revert Hws Hcount. rewrite !Forall_app, !Forall_cons, !pending_middle.
      intros (? & _ & ?) Hcount. cbn [listingFor emptyOk].
      split_and!; try done.
      destruct (decide (x0 = x)) as [->|Hne].
      * rewrite bool_decide_eq_true_2 by done. cbn in *. lia.
      * rewrite bool_decide_eq_false_2 by done. cbn in *. lia.
    + revert Hws Hcount. rewrite !Forall_app, !Forall_cons, !pending_middle.
      intros (? & _ & ?) Hcount. split_and!; try done. cbn in *. lia.
    + revert Hws Hcount. rewrite !Forall_app, !Forall_cons, !pending_middle.
      intros (? & Hx & ?) Hcount. cbn [listingFor emptyOk] in *.
      destruct (decide (x0 = x)) as [->|Hne].
      * exfalso. destruct Hx as [-> ->]; [done|].
        match goal with Hk : keyPage _ _ = NextPage _ _ |- _ =>
          by rewrite empty_first_keyPage in Hk end.
      * split_and!; try done. cbn in *. lia.
    + revert Hws Hcount. rewrite !Forall_app, !Forall_cons, !pending_middle.
      intros (? & Hx & ?) Hcount. cbn [listingFor emptyOk] in *.
      destruct (decide (x0 = x)) as [->|Hne].
      * destruct Hx as [-> ->]; [done|].
        match goal with Hk : keyPage _ _ = Break _ |- _ =>
          rewrite empty_first_keyPage in Hk; injection Hk as <- end.
        rewrite bool_decide_eq_true_2 in Hcount by done.
        split_and!; try done.
        -- by repeat constructor.
        -- cbn in *. lia.
      * rewrite bool_decide_eq_false_2 in Hcount by done.
        split_and!; try done. cbn in *. lia.
    + revert Hws Hcount. rewrite !Forall_app, !Forall_cons, !pending_middle.
      intros (? & Hx & ?) Hcount. cbn [listingFor emptyOk] in *.
      destruct (decide (x0 = x)) as [->|Hne].
      * split_and!; try done.
        -- repeat constructor. by apply Hx.
        -- cbn in *. lia.
      * split_and!; try done. cbn in *. lia.
Qed.

End PoolCalls.

Lemma steps_empty_first_any world opts inputUserList fs0 x out tr s :
  listKeys world x None = inr out →
  iam.AccessKeyMetadataList out = [] →
  steps world opts inputUserList fs0 tr s →
  Forall (λ marker, marker = None) (omap (callFor x) tr) ∧
  Forall (λ user, user = None) (omap (resultFor x) tr) ∧
  length (omap (callFor x) tr) ≤ length (omap (takeOf x) tr).
Proof.
  intros Hfirst Hnone Hsteps. destruct s as [m ch closed ws|status fs].
  - destruct (steps_empty_first _ _ _ _ _ _ Hfirst Hnone _ _ _ _ _ Hsteps)
      as (_ & ? & ? & ?). split_and!; try done. lia.
  - apply steps_exited in Hsteps as (tr0 & m & ch & closed & ws & ev & -> & Hsteps & Hstep).
    destruct (steps_empty_first _ _ _ _ _ _ Hfirst Hnone _ _ _ _ _ Hsteps)
      as (Hws & Hc & Hr & Hcount).
    rewrite !omap_app, !Forall_app, !length_app.
    inversion Hstep; subst; cbn [omap list_omap callFor resultFor takeOf].
    + destruct (decide (x0 = x)) as [->|Hne].
      * exfalso. rewrite Forall_app, Forall_cons in Hws.
        destruct Hws as (_ & Hx & _). destruct Hx as [-> ->]; [done|].
        match goal with Hk : keyPage _ _ = Fatalf _ |- _ =>
          by rewrite (empty_first_keyPage _ _ _ Hfirst Hnone) in Hk end.
      * split_and!; try done. cbn. lia.
    + split_and!; try done. cbn. lia.
Qed.

Lemma omap_outcome_skip world fuel x (users : list inputUser) :
  userOutcome world fuel x = None →
  omap (userOutcome world fuel) users =
  omap (userOutcome world fuel) (filter (λ y, y ≠ x) users).
Proof.
  intros Hx. induction users as [|y users IH]; [done|].
  rewrite filter_cons. case_decide as Hy.
  - cbn. by rewrite IH.
  - subst y. cbn. by rewrite Hx.
Qed.

(** * The account list *)

Lemma prefix_app (s t : string) : String.prefix s (s +:+ t) = true.
Proof.
  induction s as [|a s IH]; simpl; [by destruct t|].
  destruct (Ascii.ascii_dec a a); [exact IH|congruence].
Qed.

Lemma isInfix_here (s t : string) : String.prefix s t = true → isInfix s t = true.
Proof.
  intros H.
  assert (isInfix s t = String.prefix s t ||
            match t with EmptyString => false | String _ t' => isInfix s t' end) as ->
    by by destruct t.
  by rewrite H.
Qed.

Lemma isInfix_app (p s q : string) : isInfix s (p +:+ s +:+ q) = true.
Proof.
  induction p as [|a p IH].
  - change ("" +:+ s +:+ q) with (s +:+ q). apply isInfix_here, prefix_app.
  - change (String a p +:+ s +:+ q) with (String a (p +:+ s +:+ q)).
    cbn [isInfix]. rewrite IH. apply orb_true_r.
Qed.

Lemma validate_wellFormed (record : list string) :
  validateCSVAccountRoleData (Some record) = None ↔ wellFormed record.
Proof.
  unfold wellFormed. split.
  - destruct record as [|accountId [|roleName [|? ?]]]; cbn; try done.
    destruct (Nat.eqb (String.length accountId) 12) eqn:E; [|done].
    apply Nat.eqb_eq in E. eauto.
  - intros (accountId & roleName & -> & Hlen). cbn. by rewrite Hlen.
Qed.

Lemma validate_mentions (accountId : string) (fields : list string) (err : error) :
  validateCSVAccountRoleData (Some (accountId :: fields)) = Some err →
  isInfix accountId err = true.
Proof.
  cbn. destruct (negb _).
  - intros [= <-]. apply (isInfix_app "validation failed for account ").
  - destruct (negb _); [|done].
    intros [= <-]. apply (isInfix_app "validation failed for account ").
Qed.

Lemma readAccountRoles_good good r acc :
  Forall wellFormed good →
  readAccountRoles ((csv.Record <$> good) ++ r) acc = readAccountRoles r (acc ++ good).
Proof.
  intros Hgood. revert acc. induction Hgood as [|record good Hrec _ IH]; intros acc.
  - by rewrite app_nil_r.
  - cbn. apply validate_wellFormed in Hrec. cbn in Hrec. rewrite Hrec.
    rewrite IH. by rewrite <-app_assoc.
Qed.

Lemma readAccountRoles_wellFormed r acc records :
  readAccountRoles r acc = inr records →
  Forall wellFormed acc → Forall wellFormed records.
Proof.
  revert acc. induction r as [|res r IH]; intros acc; cbn [readAccountRoles].
  - by intros [= <-].
  - destruct res as [record| | |]; try done.
    + destruct (validateCSVAccountRoleData (Some record)) eqn:Hv; [done|].
      intros Hr Hacc. apply (IH _ Hr). apply Forall_app. split; [done|].
      constructor; [|done]. by apply validate_wellFormed.
    + by intros [= <-].
Qed.

(** The reader passes the records on as long as they have two fields. *)
Lemma reads_two (parsed : list (nat * list string)) :
  Forall wellFormed parsed.*2 → csv.reads 2 parsed = csv.Record <$> parsed.*2.
Proof.
  induction parsed as [|[line record] parsed IH]; [done|].
  cbn [fmap list_fmap snd]. intros [(? & ? & -> & _) Hrest]%Forall_cons.
  cbn. by rewrite IH.
Qed.

(** A list with a malformed record has a first one. *)
Lemma first_malformed (parsed : list (nat * list string)) :
  ¬ Forall wellFormed parsed.*2 →
  ∃ good line bad rest,
    parsed = good ++ (line, bad) :: rest ∧ Forall wellFormed good.*2 ∧ ¬ wellFormed bad.
Proof.
  induction parsed as [|[line record] parsed IH]; [by intros []|].
  intros Hbad. destruct (validateCSVAccountRoleData (Some record)) as [err|] eqn:Hv.
  - exists [], line, record, parsed. split_and!; [done..|].
    intros Hw%validate_wellFormed. congruence.
  - apply validate_wellFormed in Hv.
    destruct IH as (good & line' & bad & rest & -> & Hgood & Hb).
    { intros Hrest. apply Hbad. by constructor. }
    exists ((line, record) :: good), line', bad, rest.
    split_and!; [done| |done]. by constructor.
Qed.

(** The error with which reading ends at the first malformed record. *)
Lemma read_first_malformed good line bad rest :
  Forall wellFormed good.*2 → ¬ wellFormed bad →
  ∃ err,
    readAccountRoles (csv.NewReader (good ++ (line, bad) :: rest)) [] = inl err ∧
    (good = [] ∨ length bad = 2 → validateCSVAccountRoleData (Some bad) = Some err) ∧
    (good ≠ [] → length bad ≠ 2 →
     err = "error when parsing csv in line " +:+ pretty line +:+
           " column 1, record on line " +:+ pretty line +:+ ": wrong number of fields").
Proof.
  intros Hgood Hbad.
  destruct (validateCSVAccountRoleData (Some bad)) as [verr|] eqn:Hv.
  2: { by apply validate_wellFormed in Hv. }
  destruct good as [|[line0 record0] good].
  - exists verr. split_and!; [|done..].
    unfold csv.NewReader. cbn [app csv.reads Nat.ltb Nat.leb readAccountRoles].
    by rewrite Hv.
  - cbn [fmap list_fmap snd] in Hgood. apply Forall_cons in Hgood as [Hrec Hgood].
    pose proof Hrec as (accountId & roleName & -> & Hlen).
    assert (csv.NewReader (((line0, [accountId; roleName]) :: good) ++ (line, bad) :: rest) =
            (csv.Record <$> ([accountId; roleName] :: good.*2)) ++
            (if Nat.eqb (length bad) 2 then csv.Record bad else csv.fieldCount line)
              :: csv.reads 2 rest) as ->.
    { unfold csv.NewReader. cbn [app csv.reads Nat.ltb Nat.leb length fmap list_fmap].
      f_equal. revert Hgood. clear. induction good as [|[l r] good IH].
      - done.
      - cbn [fmap list_fmap snd app]. intros [(? & ? & -> & _) Hgood]%Forall_cons.
        cbn. f_equal. by apply IH. }
    rewrite readAccountRoles_good by by constructor.
    destruct (Nat.eqb (length bad) 2) eqn:E.
    + apply Nat.eqb_eq in E. exists verr. split_and!; [|done..].
      cbn [readAccountRoles]. by rewrite Hv.
    + apply Nat.eqb_neq in E. eexists. split_and!; [done|by intros [|]|done].
Qed.

(** C5, as the code has it.  Validation accepts a record exactly when
    it has two fields and the first is 12 bytes long.  A file with a
    malformed record ends the run before any remote call, with the
    message "error when reading account list file", and no file is
    touched; the first malformed record decides the error.  When it is
    the first record of the file, or has two fields, the error is the
    validation error of the record, which contains its first field.
    When it is a later record with another number of fields than two,
    the CSV reader has rejected it before it is validated: the error is
    "error when parsing csv in line L column 1, record on line L: wrong
    number of fields", which tells the line and nothing of the record.
    And whenever a remote call is made, the whole account list was
    read before and every record of it is well-formed. *)
Theorem malformed_record_aborts (world : World) (opts : options) (fuel : nat)
    (fs0 : files) :
  (∀ record : stringSlice,
     validateCSVAccountRoleData record = None ↔
     ∃ fields, record = Some fields ∧ wellFormed fields) ∧
  (∀ parsed,
     LoadDefaultConfig world (awsProfileName opts) = None →
     Open world (accountListFile opts) = inr (csv.NewReader parsed) →
     ¬ Forall wellFormed parsed.*2 →
     ∃ good line bad rest err,
       parsed = good ++ (line, bad) :: rest ∧
       Forall wellFormed good.*2 ∧ ¬ wellFormed bad ∧
       (∀ calls tr s,
          mainRuns world opts fuel fs0 calls tr s →
          calls = [] ∧ tr = [] ∧
          s = Exited (Some (Fatal "error when reading account list file" [zapError err]))
                     fs0) ∧
       (good = [] ∨ length bad = 2 →
        validateCSVAccountRoleData (Some bad) = Some err ∧
        ∀ accountId fields, bad = accountId :: fields → isInfix accountId err = true) ∧
       (good ≠ [] → length bad ≠ 2 →
        err = "error when parsing csv in line " +:+ pretty line +:+
              " column 1, record on line " +:+ pretty line +:+
              ": wrong number of fields")) ∧
  (∀ r calls,
     enumerateUsers world fuel opts [] = (r, calls) →
     calls ≠ [] →
     ∃ records,
       getAccountRoleListFromCSV (Open world) (accountListFile opts) = inr records ∧
       Forall wellFormed records).
Proof.
  split_and!.
  - intros [fields|]; [|by split; [|intros (? & ? & _)]].
    rewrite validate_wellFormed. split; [eauto|]. by intros (? & [= <-] & ?).
  - intros parsed Hcfg Hopen Hparsed.
    destruct (first_malformed parsed Hparsed) as (good & line & bad & rest & -> & Hgood & Hbad).
    destruct (read_first_malformed good line bad rest Hgood Hbad)
      as (err & Hread & Hval & Hcount).
    exists good, line, bad, rest, err. split_and!; try done.
    + assert (enumerateUsers world fuel opts [] =
              (Exit (Fatal "error when reading account list file" [zapError err]), []))
        as Hrun.
      { unfold enumerateUsers, getAccountRoleListFromCSV. by rewrite Hcfg, Hopen, Hread. }
      intros calls tr s Hmain.
      inversion Hmain as [f calls' Henum|users calls' tr' s' Henum]; subst.
      * rewrite Hrun in Henum. by injection Henum as <- <-.
      * by rewrite Hrun in Henum.
    + intros Hcase. split; [by apply Hval|].
      intros accountId fields ->. eapply validate_mentions. by apply Hval.
  - intros r calls. unfold enumerateUsers.
    destruct (LoadDefaultConfig world _); [by intros [= _ <-]|].
    destruct (getAccountRoleListFromCSV _ _) as [err|records] eqn:Hget;
      [by intros [= _ <-]|].
    intros _ _. exists records. split; [done|].
    unfold getAccountRoleListFromCSV in Hget.
    destruct (Open world _); [done|]. by eapply readAccountRoles_wellFormed.
Qed.

Lemma malformed_record_aborts_witness :
  ∃ err,
    validateCSVAccountRoleData (Some ["1111111111"; "R1"]) = Some err ∧
    isInfix "1111111111" err = true ∧
    ∀ calls tr s,
      mainRuns Sample.shortId defaultOptions 5 ∅ calls tr s →
      calls = [] ∧ tr = [] ∧
      s = Exited (Some (Fatal "error when reading account list file" [zapError err])) ∅.
Proof.
  destruct (malformed_record_aborts Sample.shortId defaultOptions 5 ∅) as (_ & Hbad & _).
  destruct (Hbad [(1, ["1111111111"; "R1"])])
    as (good & line & bad & rest & err & Hparsed & _ & _ & Hrun & Hval & _).
  - reflexivity.
  - reflexivity.
  - intros [(accountId & roleName & [= <- <-] & Hlen) _]%Forall_cons.
    vm_compute in Hlen. lia.
  - assert (good = [] ∧ bad = ["1111111111"; "R1"]) as [-> ->].
    { destruct good as [|? [|? ?]]; [|discriminate Hparsed..].
      by injection Hparsed as <- <- <-. }
    destruct Hval as [Hv Hid]; [by left|].
    exists err. split; [exact Hv|]. split; [|exact Hrun].
    by apply (Hid "1111111111" ["R1"]).
Defined.

(** C5, as stated, fails for a record with a wrong number of fields
    that is not the first of the file.  The second line of the file
    holds three fields: the run is over before any remote call, but the
    error is the parse error of the CSV reader, and the fatal message
    does not contain the identifier 222222222222 of the record. *)
Lemma wrong_field_count_unnamed :
  ¬ wellFormed ["222222222222"; "Audit"; "eu-west-1"] ∧
  Open Sample.thirdField (accountListFile defaultOptions) =
    inr (csv.NewReader [(1, ["111111111111"; "ReadOnly"]);
                        (2, ["222222222222"; "Audit"; "eu-west-1"])]) ∧
  ∃ f,
    f = Fatal "error when reading account list file"
          [("error", "error when parsing csv in line 2 column 1, " +:+
                     "record on line 2: wrong number of fields")] ∧
    mainRuns Sample.thirdField defaultOptions 5 ∅ [] [] (Exited (Some f) ∅) ∧
    (∀ calls tr s,
       mainRuns Sample.thirdField defaultOptions 5 ∅ calls tr s →
       calls = [] ∧ tr = [] ∧ s = Exited (Some f) ∅) ∧
    mentions f "222222222222" = false.
Proof.
  split; [by intros (? & ? & [=] & _)|]. split; [done|].
  eexists. split; [done|].
  assert (enumerateUsers Sample.thirdField 5 defaultOptions [] =
          (Exit (Fatal "error when reading account list file"
                   [("error", "error when parsing csv in line 2 column 1, " +:+
                              "record on line 2: wrong number of fields")]), []))
    as Hrun by by vm_compute.
  split_and!.
  - by apply runs_exit.
  - intros calls tr s Hmain.
    inversion Hmain as [f calls' Henum|users calls' tr' s' Henum]; subst.
    + rewrite Hrun in Henum. by injection Henum as <- <-.
    + by rewrite Hrun in Henum.
  - by vm_compute.
Qed.

Lemma listUsersLoop_S world fuel svc accountId marker users log :
  listUsersLoop world (S fuel) svc accountId marker users log =
  let log' := log ++ [CallListUsers svc marker] in
  match ListUsers world svc marker with
  | inl err => (Exit (Fatal "error when listing user" [zapError err]), log')
  | inr out =>
      let users' := users ++ (newInputUser svc accountId <$> iam.Users out) in
      if iam.usersIsTruncated out
      then listUsersLoop world fuel svc accountId (iam.usersMarker out) users' log'
      else (Ok users', log')
  end.
Proof.
  cbn [listUsersLoop]. rewrite remote_bind.
  destruct (ListUsers world svc marker) as [err|out]; [done|].
  by destruct (iam.usersIsTruncated out).
Qed.

Lemma listUsersLoop_log world fuel svc accountId marker users log :
  ∃ calls, (listUsersLoop world fuel svc accountId marker users log).2 = log ++ calls.
Proof.
  revert marker users log. induction fuel as [|fuel IH]; intros marker users log.
  - exists []. cbn. by rewrite app_nil_r.
  - rewrite listUsersLoop_S. cbn zeta.
    destruct (ListUsers world svc marker) as [err|out]; [by eexists [_]|].
    destruct (iam.usersIsTruncated out); [|by eexists [_]].
    edestruct IH as [calls ->]. eexists (_ :: calls). by rewrite <-app_assoc.
Qed.

Lemma enumerateAccount_eq world fuel accountId roleName rest users log :
  enumerateAccount world fuel (accountId :: roleName :: rest) users log =
  let roleARN := "arn:aws:iam::" +:+ accountId +:+ ":role/" +:+ roleName in
  let log' := log ++ [CallAssumeRole roleARN] in
  match AssumeRole world roleARN with
  | inl err =>
      (Exit (Fatal "error when doing assume role" [("role_arn", roleARN); zapError err]),
       log')
  | inr tempCredentials =>
      match LoadAssumedConfig world tempCredentials with
      | Some err =>
          (Exit (Fatal "error when creating temporary config from the assumed role credentials"
                       [("role_arn", roleARN); zapError err]), log')
      | None => listUsersLoop world fuel tempCredentials accountId None users log'
      end
  end.
Proof.
  unfold enumerateAccount. cbn. unfold mbind, Run_bind, indexed, remote. cbn.
  destruct (AssumeRole world _) as [err|creds]; [done|].
  by destruct (LoadAssumedConfig world creds).
Qed.

(** C9.  Only the length of the identifier is checked: a record of two
    fields whose first field is 12 bytes long, whatever the bytes, passes
    validation and is kept by the reading loop; the role ARN is built
    from the identifier as it is, and the first thing done for the
    record is the call of AssumeRole with that ARN. *)
Theorem twelve_bytes_suffice (world : World) (fuel : nat) (accountId roleName : string)
    (users : list inputUser) (log : list remoteCall) :
  String.length accountId = 12 →
  let roleARN := "arn:aws:iam::" +:+ accountId +:+ ":role/" +:+ roleName in
  validateCSVAccountRoleData (Some [accountId; roleName]) = None ∧
  (∀ r acc,
     readAccountRoles (csv.Record [accountId; roleName] :: r) acc =
     readAccountRoles r (acc ++ [[accountId; roleName]])) ∧
  getRoleARN [accountId; roleName] = Some roleARN ∧
  ∃ calls,
    (enumerateAccount world fuel [accountId; roleName] users log).2 =
    log ++ CallAssumeRole roleARN :: calls.
Proof.
  intros Hlen roleARN.
  assert (validateCSVAccountRoleData (Some [accountId; roleName]) = None) as Hv.
  { apply validate_wellFormed. by exists accountId, roleName. }
  split_and!; [done| |done|].
  - intros r acc. cbn [readAccountRoles]. by rewrite Hv.
  - rewrite enumerateAccount_eq. cbn zeta. fold roleARN.
    destruct (AssumeRole world roleARN) as [err|creds]; [by exists []|].
    destruct (LoadAssumedConfig world creds); [by exists []|].
    edestruct listUsersLoop_log as [calls ->]. exists calls.
    by rewrite <-app_assoc.
Qed.

Lemma twelve_bytes_suffice_witness :
  validateCSVAccountRoleData (Some ["abcdefghijkl"; "ReadOnly"]) = None ∧
  getRoleARN ["abcdefghijkl"; "ReadOnly"] = Some "arn:aws:iam::abcdefghijkl:role/ReadOnly" ∧
  ∃ calls,
    (enumerateAccount Sample.scenario 5 ["abcdefghijkl"; "ReadOnly"] [] []).2 =
    [] ++ CallAssumeRole "arn:aws:iam::abcdefghijkl:role/ReadOnly" :: calls.
Proof.
  destruct (twelve_bytes_suffice Sample.scenario 5 "abcdefghijkl" "ReadOnly" [] [])
    as (Hv & _ & Harn & Hcall).
  - reflexivity.
  - split; [exact Hv|]. split; [exact Harn|exact Hcall].
Defined.

Lemma servesUsers_nonempty world svc marker pages :
  servesUsers world svc marker pages → 0 < length pages.
Proof. destruct 1; cbn; lia. Qed.

Lemma listUsersLoop_pages world svc accountId marker pages :
  servesUsers world svc marker pages →
  ∀ fuel users log,
    length pages ≤ fuel →
    ∃ markers,
      listUsersLoop world fuel svc accountId marker users log =
      (Ok (users ++ (newInputUser svc accountId <$> concat pages)),
       log ++ (CallListUsers svc <$> markers)) ∧
      length markers = length pages.
Proof.
  induction 1 as [marker out Hout Htr|marker out pages Hout Htr _ IH];
    intros fuel users log Hfuel.
  - destruct fuel as [|fuel]; [cbn in Hfuel; lia|].
    exists [marker]. rewrite listUsersLoop_S, Hout, Htr. cbn. by rewrite app_nil_r.
  - destruct fuel as [|fuel]; [cbn in Hfuel; lia|].
    rewrite listUsersLoop_S, Hout, Htr. cbn zeta.
    destruct (IH fuel (users ++ (newInputUser svc accountId <$> iam.Users out))
                (log ++ [CallListUsers svc marker])) as (markers & -> & Hlen).
    { cbn in Hfuel. lia. }
    exists (marker :: markers). split; [|cbn; lia].
    cbn. by rewrite fmap_app, <-!app_assoc.
Qed.

Lemma length_concat_same {A} (pages : list (list A)) (k : nat) :
  Forall (λ page, length page = k) pages → length (concat pages) = length pages * k.
Proof.
  induction 1 as [|page pages Hk _ IH]; [done|]. cbn. rewrite length_app. lia.
Qed.

(** C4.  When the user-listing operation serves N pages, each with a
    marker but the last, the loop makes exactly N calls, one per page,
    and appends the users of all the pages in page order: N*k users
    when every page has k of them.  A page without items but with a
    marker is followed by the next call; the first page without a
    marker ends the loop whatever it holds; one page without items and
    without marker gives one call and no user. *)
Theorem user_pages_accumulate (world : World) (svc : iam.Client) (accountId : string)
    (pages : list (list iam.User)) (fuel : nat) (users : list inputUser)
    (log : list remoteCall) :
  servesUsers world svc None pages →
  length pages ≤ fuel →
  ∃ markers,
    listUsersLoop world fuel svc accountId None users log =
    (Ok (users ++ (newInputUser svc accountId <$> concat pages)),
     log ++ (CallListUsers svc <$> markers)) ∧
    length markers = length pages ∧
    (∀ k, Forall (λ page, length page = k) pages →
          length (newInputUser svc accountId <$> concat pages) = length pages * k) ∧
    (pages = [[]] →
     listUsersLoop world fuel svc accountId None users log =
     (Ok users, log ++ [CallListUsers svc None])).
Proof.
  intros Hserves Hfuel.
  destruct (listUsersLoop_pages _ _ accountId _ _ Hserves fuel users log Hfuel)
    as (markers & Hrun & Hlen).
  exists markers. split_and!; [done|done| |].
  - intros k Hk. rewrite length_fmap. by apply length_concat_same.
  - intros ->. destruct fuel as [|fuel]; [cbn in Hfuel; lia|].
    rewrite listUsersLoop_S.
    inversion Hserves as [marker out Hout Htr|marker out pages' Hout Htr Hrest]; subst.
    + rewrite Hout, Htr. cbn.
      match goal with Hp : iam.Users out = [] |- _ => rewrite Hp end.
      by rewrite !app_nil_r.
    + apply servesUsers_nonempty in Hrest. cbn in Hrest. lia.
Qed.

Lemma user_pages_accumulate_witness :
  (∃ markers,
     listUsersLoop Sample.manyUsers 3 Sample.creds "111111111111" None [] [] =
     (Ok ([] ++ (newInputUser Sample.creds "111111111111" <$>
                   concat [[Sample.user "u1"; Sample.user "u2"];
                           [Sample.user "u3"; Sample.user "u4"];
                           [Sample.user "u5"; Sample.user "u6"]])),
      [] ++ (CallListUsers Sample.creds <$> markers)) ∧
     length markers = 3) ∧
  listUsersLoop Sample.noUsers 1 Sample.creds "111111111111" None [] [] =
  (Ok [], [] ++ [CallListUsers Sample.creds None]).
Proof.
  split.
  - destruct (user_pages_accumulate Sample.manyUsers Sample.creds "111111111111"
                [[Sample.user "u1"; Sample.user "u2"];
                 [Sample.user "u3"; Sample.user "u4"];
                 [Sample.user "u5"; Sample.user "u6"]] 3 [] [])
      as (markers & Hrun & Hlen & _).
    + eapply (servesUsers_more _ _ None (Sample.threeUserPages None)); [done..|].
      eapply (servesUsers_more _ _ (Some "m1") (Sample.threeUserPages (Some "m1")));
        [done..|].
      by eapply (servesUsers_last _ _ (Some "m2") (Sample.threeUserPages (Some "m2"))).
    + cbn. lia.
    + exists markers. split; [exact Hrun|exact Hlen].
  - destruct (user_pages_accumulate Sample.noUsers Sample.creds "111111111111"
                [[]] 1 [] []) as (markers & _ & _ & _ & Hone).
    + by eapply (servesUsers_last _ _ None (Sample.noUserPage None)).
    + cbn. lia.
    + by apply Hone.
Defined.

(** * Listing the keys of a user *)

Lemma keyPage_items keys out :
  keyPage keys (inr out) =
  match iam.AccessKeyMetadataList out with
  | [] => Break keys
  | _ :: _ =>
      if iam.keysIsTruncated out
      then NextPage (keys ++ iam.AccessKeyMetadataList out) (iam.keysMarker out)
      else Break (keys ++ iam.AccessKeyMetadataList out)
  end.
Proof. unfold keyPage. by destruct (iam.AccessKeyMetadataList out). Qed.

Lemma servesKeys_nonempty world x marker pages :
  servesKeys world x marker pages → 0 < length pages.
Proof. destruct 1; cbn; lia. Qed.

(** The loop reads the pages up to the first one without items. *)
Lemma listAccessKeysLoop_pages world x marker pages :
  servesKeys world x marker pages →
  ∀ fuel keys log,
    length pages ≤ fuel →
    ∃ markers,
      listAccessKeysLoop world fuel x keys marker log =
      (Ok (keys ++ concat (pagesRead pages)),
       log ++ (CallListAccessKeys (iamClient x) (name x) <$> markers)) ∧
      length markers = length pages `min` S (length (pagesRead pages)).
Proof.
  induction 1 as [marker out Hout Htr|marker out pages Hout Htr _ IH];
    intros fuel keys log Hfuel.
  - destruct fuel as [|fuel]; [cbn in Hfuel; lia|].
    exists [marker]. rewrite listAccessKeysLoop_S, Hout, keyPage_items, Htr. cbn zeta.
    destruct (iam.AccessKeyMetadataList out); cbn; by rewrite ?app_nil_r.
  - destruct fuel as [|fuel]; [cbn in Hfuel; lia|].
    rewrite listAccessKeysLoop_S, Hout, keyPage_items, Htr. cbn zeta.
    destruct (iam.AccessKeyMetadataList out) as [|ak aks] eqn:Hitems.
    + exists [marker]. cbn. rewrite app_nil_r. split; [done|lia].
    + destruct (IH fuel (keys ++ ak :: aks)
                  (log ++ [CallListAccessKeys (iamClient x) (name x) marker]))
        as (markers & -> & Hlen).
      { cbn in Hfuel. lia. }
      exists (marker :: markers). split; [|cbn; lia].
      cbn. by rewrite <-!app_assoc.
Qed.

Lemma pagesRead_all {A} (pages : list (list A)) :
  (∀ i page, pages !! i = Some page → S i < length pages → page ≠ []) →
  concat (pagesRead pages) = concat pages.
Proof.
  induction pages as [|page pages IH]; [done|]. intros Hne.
  destruct page as [|a page].
  - destruct pages as [|page' pages]; [done|].
    by destruct (Hne 0 [] eq_refl); [cbn; lia|].
  - cbn. rewrite IH; [done|]. intros i page' Hi Hlt.
    apply (Hne (S i) page' Hi). cbn. lia.
Qed.

Lemma userRecord_fold (keys : list accessKey) (record : list string) :
  foldl (λ record key, (record ++ [keyId key]) ++ [createdDate key]) record keys =
  record ++ concat ((λ key, [keyId key; createdDate key]) <$> keys).
Proof.
  revert record. induction keys as [|key keys IH]; intros record; cbn.
  - by rewrite app_nil_r.
  - rewrite IH. by rewrite <-!app_assoc.
Qed.

Lemma workerResult_nil x : workerResult x [] = None.
Proof. done. Qed.

(** The row written for a user on whom keys were found. *)
Lemma workerResult_row x keys :
  keys ≠ [] →
  ∃ user, workerResult x keys = Some user ∧ userRecord user = rowOf x keys.
Proof.
  intros Hne. destruct keys as [|ak keys]; [done|]. eexists. split; [done|].
  unfold userRecord, rowOf. rewrite userRecord_fold. cbn [outAccountId outName accessKeys].
  by rewrite <-list_fmap_compose.
Qed.

(** * The worker pool and the aggregator *)

Lemma scenario_succeeds :
  Forall (succeeds Sample.scenario 1) [Sample.alice; Sample.bob].
Proof. repeat constructor; by eexists. Qed.

(** C1.  With at least one worker, in every run of the pool:
    - at every moment the users sent are the first users of the list,
      the users taken the first of those sent, the users answered among
      those taken, and each worker has put on the result channel one
      value for each user it took, but for the user it is working on;
    - once the report is written, [main] has received exactly as many
      values as there are users, every user was sent and taken once,
      and each worker has answered every user it took;
    - a running process can always move: [main] never waits for a value
      that does not come;
    - when every key listing ends, a run has at most as many steps as
      the cost of the initial state, and can be continued to the exit
      of the process;
    - when moreover no key listing fails, the run ends with the writing
      of the report, after exactly one receive per user. *)
Theorem fan_in_counts (world : World) (opts : options)
    (inputUserList : list inputUser) (fs0 : files) :
  (0 < numOfWorker opts)%Z →
  (∀ tr s,
     steps world opts inputUserList fs0 tr s →
     accounted opts inputUserList tr ∧
     (WriteReport ∈ tr →
      length (omap resulted tr) = length inputUserList ∧
      omap sent tr = inputUserList ∧ omap taken tr = inputUserList ∧
      ∀ id, omap (takenBy id) tr = omap (resultedBy id) tr)) ∧
  (∀ tr m ch closed ws,
     steps world opts inputUserList fs0 tr (Running m ch closed ws) →
     ∃ ev s', step world opts inputUserList fs0 (Running m ch closed ws) ev s') ∧
  (∀ fuel,
     Forall (λ x, halts world fuel x [] None) inputUserList →
     ∀ tr s,
       steps world opts inputUserList fs0 tr s →
       length tr ≤ cost world fuel inputUserList (init opts) ∧
       ∃ tr' status fs,
         steps world opts inputUserList fs0 (tr ++ tr') (Exited status fs)) ∧
  (∀ fuel,
     Forall (succeeds world fuel) inputUserList →
     ∀ tr status fs,
       steps world opts inputUserList fs0 tr (Exited status fs) →
       last tr = Some WriteReport ∧
       length (omap resulted tr) = length inputUserList).
Proof.
  intros HW. split_and!.
  - intros tr s Hsteps. split; [by eapply steps_accounted|].
    intros Hin.
    destruct (steps_write_complete _ _ _ _ _ _ Hsteps Hin)
      as (tr0 & status & fs & _ & _ & ? & ? & ? & _ & ?).
    done.
  - intros tr m ch closed ws Hsteps. eapply progress; [by left|done].
  - intros fuel Hh tr s Hsteps. split.
    + by eapply steps_bounded.
    + eapply steps_exit; [done|by left|done].
  - intros fuel Hok tr status fs Hsteps.
    destruct (steps_exited_write _ _ _ _ _ _ _ _ Hok Hsteps)
      as (tr0 & i & userList & ch & closed & ws & -> & _ & _).
    split; [by rewrite last_snoc|].
    destruct (steps_write_complete _ _ _ _ _ _ Hsteps) as (? & ? & ? & _ & _ & ? & _).
    { apply elem_of_app. right. by apply list_elem_of_singleton. }
    done.
Qed.

Lemma fan_in_counts_witness :
  last Sample.trace = Some WriteReport ∧
  length (omap resulted Sample.trace) = length [Sample.alice; Sample.bob].
Proof.
  destruct (fan_in_counts Sample.scenario defaultOptions [Sample.alice; Sample.bob] ∅)
    as (_ & _ & _ & Hend).
  - reflexivity.
  - exact (Hend 1 scenario_succeeds Sample.trace None Sample.report scenario_steps).
Defined.

(** C8.  At every moment of every run of the pool:
    - there are [numOfWorker] workers, so at most that many have a
      ListAccessKeys operation in flight, and at most that many users
      are taken and not yet answered, however many users there are;
    - a worker that has left its loop did so after the channel was
      closed, which was after every user had been sent;
    - the users taken are the first users of the list, each taken by
      one receive; and a worker calls ListAccessKeys only for the user
      that it took last and has not answered yet. *)
Theorem pool_discipline (world : World) (opts : options)
    (inputUserList : list inputUser) (fs0 : files) (tr : list event) (s : state) :
  steps world opts inputUserList fs0 tr s →
  match s with
  | Running _ _ _ ws =>
      length ws = Z.to_nat (numOfWorker opts) ∧
      length (filter (λ w, inFlight w = true) ws) ≤ Z.to_nat (numOfWorker opts)
  | Exited _ _ => True
  end ∧
  (∃ holding,
     omap taken tr ≡ₚ (omap resulted tr).*1 ++ holding ∧
     length holding ≤ Z.to_nat (numOfWorker opts)) ∧
  (∀ tr1 id tr2,
     tr = tr1 ++ Return id :: tr2 →
     Close ∈ tr1 ∧ omap sent tr1 = inputUserList) ∧
  omap taken tr `prefix_of` inputUserList ∧
  (∀ tr1 id x marker tr2,
     tr = tr1 ++ CallKeys id x marker :: tr2 →
     omap (takenBy id) tr1 = omap (resultedBy id) tr1 ++ [x]).
Proof.
  intros Hsteps. split_and!.
  - destruct s as [m ch closed ws|]; [|done]. by eapply steps_in_flight.
  - by destruct (steps_accounted _ _ _ _ _ _ Hsteps) as (_ & _ & ? & _).
  - intros tr1 id tr2 ->. by eapply steps_return_closed.
  - destruct (steps_accounted _ _ _ _ _ _ Hsteps) as (Hs & Ht & _).
    by etrans.
  - intros tr1 id x marker tr2 ->. by eapply steps_call_holds.
Qed.

Lemma pool_discipline_witness :
  (Close ∈ take 9 Sample.interleaved ∧
   omap sent (take 9 Sample.interleaved) = [Sample.alice; Sample.bob]) ∧
  omap taken Sample.interleaved `prefix_of` [Sample.alice; Sample.bob].
Proof.
  destruct (pool_discipline Sample.scenario defaultOptions [Sample.alice; Sample.bob] ∅
              Sample.interleaved (Exited None Sample.report) scenario_interleaved)
    as (_ & _ & Hret & Hpre & _).
  split; [|exact Hpre].
  apply (Hret (take 9 Sample.interleaved) 1 [WriteReport]). reflexivity.
Defined.

(** C3.  When the first page of keys of a user has no items, whether or
    not it is truncated and carries a marker: the worker's turn for the
    user makes that one call and sends nil.  In every run of the pool,
    with any number of workers, every call made for the user asks for
    the first page, there are no more calls for the user than receives
    of the user, every value sent for the user is nil, and the report of
    a run that ended well has the rows of the other users only. *)
Theorem empty_first_page (world : World) (x : inputUser) (out : iam.ListAccessKeysOutput) :
  listKeys world x None = inr out →
  iam.AccessKeyMetadataList out = [] →
  (∀ fuel log,
     processUser world (S fuel) x log =
     (Ok None, log ++ [CallListAccessKeys (iamClient x) (name x) None])) ∧
  (∀ fuel, userOutcome world (S fuel) x = None) ∧
  ∀ opts inputUserList fs0 tr s,
    steps world opts inputUserList fs0 tr s →
    Forall (λ marker, marker = None) (omap (callFor x) tr) ∧
    length (omap (callFor x) tr) ≤ length (omap (takeOf x) tr) ∧
    Forall (λ user, user = None) (omap (resultFor x) tr) ∧
    ∀ fuel fs,
      Forall (λ y, halts world (S fuel) y [] None) inputUserList →
      s = Exited None fs →
      ∃ rows,
        fs = <[outputFile opts := rows]> fs0 ∧
        rows ≡ₚ userRecord <$>
                 omap (userOutcome world (S fuel)) (filter (λ y, y ≠ x) inputUserList).
Proof.
  intros Hfirst Hnone.
  assert (∀ fuel log,
            processUser world (S fuel) x log =
            (Ok None, log ++ [CallListAccessKeys (iamClient x) (name x) None])) as Hturn.
  { intros fuel log. rewrite processUser_eq, listAccessKeysLoop_S.
    by rewrite (empty_first_keyPage _ _ _ Hfirst Hnone). }
  assert (∀ fuel, userOutcome world (S fuel) x = None) as Hout.
  { intros fuel. unfold userOutcome. by rewrite Hturn. }
  split_and!; [done..|].
  intros opts inputUserList fs0 tr s Hsteps.
  destruct (steps_empty_first_any _ _ _ _ _ _ _ _ Hfirst Hnone Hsteps) as (? & ? & ?).
  split_and!; try done.
  intros fuel fs Hh ->.
  destruct (steps_exit_rows _ _ _ _ _ _ _ Hh Hsteps) as (rows & -> & Hrows).
  exists rows. split; [done|]. by rewrite <-omap_outcome_skip.
Qed.

Lemma empty_first_page_witness :
  processUser Sample.behindEmpty 5 Sample.alice [] =
  (Ok None, [] ++ [CallListAccessKeys Sample.creds "alice" None]) ∧
  ∃ rows,
    Sample.report = <[outputFile defaultOptions := rows]> ∅ ∧
    rows ≡ₚ userRecord <$>
             omap (userOutcome Sample.scenario 1)
                  (filter (λ y, y ≠ Sample.bob) [Sample.alice; Sample.bob]).
Proof.
  split.
  - destruct (empty_first_page Sample.behindEmpty Sample.alice
                (Sample.emptyFirstPage "alice" None)) as (Hturn & _).
    + reflexivity.
    + reflexivity.
    + exact (Hturn 4 []).
  - destruct (empty_first_page Sample.scenario Sample.bob
                (Sample.aliceHasOneKey "bob" None)) as (_ & _ & Hpool).
    + reflexivity.
    + reflexivity.
    + destruct (Hpool defaultOptions [Sample.alice; Sample.bob] ∅ Sample.trace
                  (Exited None Sample.report) scenario_steps) as (_ & _ & _ & Hrows).
      apply (Hrows 0 Sample.report); [|reflexivity].
      repeat constructor; by vm_compute.
Defined.

(** * The keys found for a user *)

Lemma row_in_report world opts inputUserList fs0 fuel tr fs x user :
  Forall (λ y, halts world fuel y [] None) inputUserList →
  steps world opts inputUserList fs0 tr (Exited None fs) →
  x ∈ inputUserList →
  userOutcome world fuel x = Some user →
  ∃ rows, fs !! outputFile opts = Some rows ∧ userRecord user ∈ rows.
Proof.
  intros Hh Hsteps Hx Hout.
  destruct (steps_exit_rows _ _ _ _ _ _ _ Hh Hsteps) as (rows & -> & Hrows).
  exists rows. split; [by rewrite lookup_insert_eq|].
  rewrite Hrows. apply list_elem_of_fmap_2, list_elem_of_omap. eauto.
Qed.

(** C2, as the code has it.  When the key-listing operation serves a
    user's keys in pages, each with a marker but the last, the worker
    calls for the pages up to the first page without items and for no
    page after it, and collects the keys of the pages before it in page
    order: the keys of all pages when no page before the last is empty.
    If it collected keys, it sends the user with exactly these keys, and
    the report of a run that ended well has the user's row with exactly
    these keys. *)
Theorem key_pages_until_empty (world : World) (x : inputUser)
    (pages : list (list iam.AccessKeyMetadata)) (fuel : nat) (log : list remoteCall) :
  servesKeys world x None pages →
  length pages ≤ fuel →
  let keys := concat (pagesRead pages) in
  (∃ markers,
     listAccessKeysLoop world fuel x [] None log =
     (Ok keys, log ++ (CallListAccessKeys (iamClient x) (name x) <$> markers)) ∧
     length markers = length pages `min` S (length (pagesRead pages))) ∧
  (processUser world fuel x log).1 = Ok (workerResult x keys) ∧
  ((∀ i page, pages !! i = Some page → S i < length pages → page ≠ []) →
   keys = concat pages) ∧
  (keys ≠ [] →
   ∃ user,
     workerResult x keys = Some user ∧
     outName user = name x ∧ outAccountId user = accountId x ∧
     accessKeys user = newAccessKey <$> keys ∧
     userRecord user = rowOf x keys ∧
     ∀ opts inputUserList fs0 tr fs,
       x ∈ inputUserList →
       Forall (λ y, halts world fuel y [] None) inputUserList →
       steps world opts inputUserList fs0 tr (Exited None fs) →
       ∃ rows, fs !! outputFile opts = Some rows ∧ rowOf x keys ∈ rows).
Proof.
  intros Hserves Hfuel keys.
  destruct (listAccessKeysLoop_pages _ _ _ _ Hserves fuel [] log Hfuel)
    as (markers & Hloop & Hlen).
  change ([] ++ concat (pagesRead pages)) with keys in Hloop.
  split_and!.
  - by exists markers.
  - by rewrite processUser_eq, Hloop.
  - apply pagesRead_all.
  - intros Hne. destruct (workerResult_row x keys Hne) as (user & Huser & Hrow).
    exists user. split; [done|].
    assert (user = {| outName := name x; outAccountId := accountId x;
                      accessKeys := newAccessKey <$> keys |}) as Heq.
    { unfold workerResult in Huser. destruct keys; [done|]. by injection Huser as <-. }
    split; [by rewrite Heq|]. split; [by rewrite Heq|].
    split; [by rewrite Heq|]. split; [done|].
    intros opts inputUserList fs0 tr fs Hx Hh Hsteps. rewrite <-Hrow.
    eapply row_in_report; try done.
    unfold userOutcome. rewrite processUser_eq.
    destruct (listAccessKeysLoop_pages _ _ _ _ Hserves fuel [] [] Hfuel)
      as (markers' & -> & _).
    done.
Qed.

Lemma gap_serves :
  servesKeys Sample.gap Sample.alice None
    [[Sample.key "AKIA1"]; []; [Sample.key "AKIA2"]].
Proof.
  eapply (servesKeys_more _ _ None (Sample.emptyMiddlePage "alice" None)); [done..|].
  eapply (servesKeys_more _ _ (Some "m1") (Sample.emptyMiddlePage "alice" (Some "m1")));
    [done..|].
  by eapply (servesKeys_last _ _ (Some "m2") (Sample.emptyMiddlePage "alice" (Some "m2"))).
Qed.

Lemma paged_serves :
  servesKeys Sample.paged Sample.alice None
    [[Sample.key "AKIA1"; Sample.key "AKIA2"];
     [Sample.key "AKIA3"; Sample.key "AKIA4"];
     [Sample.key "AKIA5"; Sample.key "AKIA6"]].
Proof.
  eapply (servesKeys_more _ _ None (Sample.threeKeyPages "alice" None)); [done..|].
  eapply (servesKeys_more _ _ (Some "m1") (Sample.threeKeyPages "alice" (Some "m1")));
    [done..|].
  by eapply (servesKeys_last _ _ (Some "m2") (Sample.threeKeyPages "alice" (Some "m2"))).
Qed.

Lemma key_pages_until_empty_witness :
  (processUser Sample.paged 3 Sample.alice []).1 =
  Ok (workerResult Sample.alice
        (concat (pagesRead [[Sample.key "AKIA1"; Sample.key "AKIA2"];
                            [Sample.key "AKIA3"; Sample.key "AKIA4"];
                            [Sample.key "AKIA5"; Sample.key "AKIA6"]]))) ∧
  (processUser Sample.gap 3 Sample.alice []).1 =
  Ok (workerResult Sample.alice
        (concat (pagesRead [[Sample.key "AKIA1"]; []; [Sample.key "AKIA2"]]))).
Proof.
  split.
  - destruct (key_pages_until_empty Sample.paged Sample.alice _ 3 [] paged_serves)
      as (_ & Hturn & _); [cbn; lia|exact Hturn].
  - destruct (key_pages_until_empty Sample.gap Sample.alice _ 3 [] gap_serves)
      as (_ & Hturn & _); [cbn; lia|exact Hturn].
Defined.

(** C2, as stated, fails when a page in the middle has no items: of the
    three pages [AKIA1], [] and [AKIA2], each with a marker but the
    last, the worker calls for two and sends alice with AKIA1 only. *)
Lemma gap_page_ends_listing :
  servesKeys Sample.gap Sample.alice None
    [[Sample.key "AKIA1"]; []; [Sample.key "AKIA2"]] ∧
  processUser Sample.gap 3 Sample.alice [] =
  (Ok (workerResult Sample.alice [Sample.key "AKIA1"]),
   [CallListAccessKeys Sample.creds "alice" None;
    CallListAccessKeys Sample.creds "alice" (Some "m1")]) ∧
  (processUser Sample.gap 3 Sample.alice []).1 ≠
  Ok (workerResult Sample.alice
        (concat [[Sample.key "AKIA1"]; []; [Sample.key "AKIA2"]])).
Proof.
  split; [apply gap_serves|]. split; [reflexivity|].
  vm_compute. discriminate.
Qed.

(** * The report *)

Lemma hasShape_app shape1 shape2 s1 s2 :
  hasShape shape1 s1 = true → hasShape shape2 s2 = true →
  hasShape (shape1 ++ shape2) (s1 +:+ s2) = true.
Proof.
  revert s1. induction shape1 as [|k shape1 IH]; intros s1.
  - destruct s1; [done|]. by destruct shape2.
  - destruct s1 as [|c s1]; [done|].
    change (String c s1 +:+ s2) with (String c (s1 +:+ s2)). cbn [hasShape app].
    intros [Hk Hs]%andb_true_iff H2. rewrite Hk. cbn [andb]. by apply IH.
Qed.

Lemma appendInt_shape (width : nat) (bound : Z) (x : Z) :
  forallb (λ n, hasShape (replicate width digit) (time.appendInt (Z.of_nat n) width))
          (seq 0 (Z.to_nat bound)) = true →
  (0 ≤ x < bound)%Z →
  hasShape (replicate width digit) (time.appendInt x width) = true.
Proof.
  intros Hall Hx. rewrite forallb_forall in Hall.
  rewrite <-(Z2Nat.id x) by lia. apply Hall, in_seq. lia.
Qed.

Lemma appendInt_2 (x : Z) :
  (0 ≤ x < 100)%Z → hasShape [digit; digit] (time.appendInt x 2) = true.
Proof. apply (appendInt_shape 2 100). by vm_compute. Qed.

Lemma appendInt_4 (x : Z) :
  (0 ≤ x < 10000)%Z → hasShape [digit; digit; digit; digit] (time.appendInt x 4) = true.
Proof. apply (appendInt_shape 4 10000). by vm_compute. Qed.

Lemma Format_keyLayout (t : time.Time) :
  time.Format t keyLayout =
  time.appendInt (time.Year t) 4 +:+ "-" +:+ time.appendInt (time.Month t) 2 +:+ "-" +:+
  time.appendInt (time.Day t) 2 +:+ "T" +:+ time.appendInt (time.Hour t) 2 +:+ ":" +:+
  time.appendInt (time.Minute t) 2 +:+ ":" +:+ time.appendInt (time.Second t) 2 +:+
  time.appendChunk t time.stdNumColonTZ.
Proof.
  unfold time.Format.
  change (time.chunks keyLayout 0) with
    [time.stdLongYear; time.literal "-"%char; time.stdZeroMonth; time.literal "-"%char;
     time.stdZeroDay; time.literal "T"%char; time.stdHour; time.literal ":"%char;
     time.stdZeroMinute; time.literal ":"%char; time.stdZeroSecond; time.stdNumColonTZ].
  reflexivity.
Qed.

(** The layout of the program gives timestamps of the ISO 8601 shape
    with a numeric offset. *)
Lemma Format_iso8601 (t : time.Time) :
  validClock t → hasShape iso8601Offset (time.Format t keyLayout) = true.
Proof.
  intros (Hy & Hmo & Hd & Hh & Hmi & Hs & Ho). rewrite Format_keyLayout.
  apply (hasShape_app [digit; digit; digit; digit]); [apply appendInt_4; lia|].
  apply (hasShape_app [exactly "-"%char] _ "-"); [done|].
  apply (hasShape_app [digit; digit]); [apply appendInt_2; lia|].
  apply (hasShape_app [exactly "-"%char] _ "-"); [done|].
  apply (hasShape_app [digit; digit]); [apply appendInt_2; lia|].
  apply (hasShape_app [exactly "T"%char] _ "T"); [done|].
  apply (hasShape_app [digit; digit]); [apply appendInt_2; lia|].
  apply (hasShape_app [exactly ":"%char] _ ":"); [done|].
  apply (hasShape_app [digit; digit]); [apply appendInt_2; lia|].
  apply (hasShape_app [exactly ":"%char] _ ":"); [done|].
  apply (hasShape_app [digit; digit]); [apply appendInt_2; lia|].
  cbn [time.appendChunk].
  assert (Z.abs (time.Offset t ÷ 60) = Z.abs (time.Offset t) / 60)%Z as Habs.
  { rewrite <-Z.quot_abs by lia. apply Z.quot_div_nonneg; lia. }
  apply (hasShape_app [sign]); [by destruct (_ <? _)%Z|].
  apply (hasShape_app [digit; digit]).
  { apply appendInt_2. rewrite Habs, Z.quot_div_nonneg by lia.
    Z.to_euclidean_division_equations. lia. }
  apply (hasShape_app [exactly ":"%char] _ ":"); [done|].
  apply appendInt_2. rewrite Habs, Z.rem_mod_nonneg by lia.
  Z.to_euclidean_division_equations. lia.
Qed.

Lemma scenario_halts :
  Forall (λ x, halts Sample.scenario 1 x [] None) [Sample.alice; Sample.bob].
Proof. repeat constructor; by vm_compute. Qed.

(** [Format] with the layout of the program writes the digits of the
    wall clock. *)
Lemma appendInt_digits (width : nat) (bound : Z) (digits : Z → string) (x : Z) :
  forallb (λ n, String.eqb (time.appendInt (Z.of_nat n) width) (digits (Z.of_nat n)))
          (seq 0 (Z.to_nat bound)) = true →
  (0 ≤ x < bound)%Z →
  time.appendInt x width = digits x.
Proof.
  intros Hall Hx. rewrite forallb_forall in Hall.
  rewrite <-(Z2Nat.id x) by lia. apply String.eqb_eq, Hall, in_seq. lia.
Qed.

Lemma appendInt_twoDigits (x : Z) :
  (0 ≤ x < 100)%Z → time.appendInt x 2 = twoDigits x.
Proof. apply (appendInt_digits 2 100). by vm_compute. Qed.

Lemma appendInt_fourDigits (x : Z) :
  (0 ≤ x < 10000)%Z → time.appendInt x 4 = fourDigits x.
Proof. apply (appendInt_digits 4 10000). by vm_compute. Qed.

Lemma Format_is_iso8601 (t : time.Time) :
  validClock t → time.Format t keyLayout = iso8601 t.
Proof.
  intros (Hy & Hmo & Hd & Hh & Hmi & Hs & Ho). rewrite Format_keyLayout.
  unfold iso8601. cbn [time.appendChunk]. cbn zeta.
  assert (Z.abs (time.Offset t ÷ 60) = Z.abs (time.Offset t) / 60)%Z as Habs.
  { rewrite <-Z.quot_abs by lia. apply Z.quot_div_nonneg; lia. }
  rewrite appendInt_fourDigits by lia. rewrite !appendInt_twoDigits; try lia.
  - pose proof (Z.abs_nonneg (time.Offset t ÷ 60)).
    by rewrite (Z.quot_div_nonneg (Z.abs _)), Z.rem_mod_nonneg by (done || lia).
  - rewrite Habs, Z.rem_mod_nonneg by lia. Z.to_euclidean_division_equations. lia.
  - rewrite Habs, (Z.quot_div_nonneg (_ / _)) by lia.
    Z.to_euclidean_division_equations. lia.
Qed.

Lemma rowOf_reportRow x keys :
  Forall (λ ak, validClock (iam.CreateDate ak)) keys → rowOf x keys = reportRow x keys.
Proof.
  intros Hvalid. unfold rowOf, reportRow. cbn [app]. do 3 f_equal.
  induction Hvalid as [|ak keys Hak _ IH]; [done|].
  cbn [fmap list_fmap]. by rewrite IH, Format_is_iso8601.
Qed.

Lemma pagesRead_subseteq {A} (pages : list (list A)) :
  concat (pagesRead pages) ⊆ concat pages.
Proof.
  induction pages as [|page pages IH]; [done|].
  destruct page as [|a page]; [by intros ? ?%elem_of_nil|].
  cbn [pagesRead concat]. intros ak [Hin|Hin]%elem_of_app; apply elem_of_app; auto.
Qed.

Section ReportOfPages.

Context (world : World) (fuel : nat).
Context (pages : inputUser → list (list iam.AccessKeyMetadata)).

Lemma paged_listedKeys x :
  paged world fuel pages x →
  (listAccessKeysLoop world fuel x [] None []).1 = Ok (concat (pagesRead (pages x))).
Proof.
  intros (Hserves & Hfuel & _).
  by destruct (listAccessKeysLoop_pages _ _ _ _ Hserves fuel [] [] Hfuel) as (markers & -> & _).
Qed.

Lemma paged_succeeds x : paged world fuel pages x → succeeds world fuel x.
Proof. intros Hx. eexists. by apply paged_listedKeys. Qed.

Lemma paged_outcome x :
  paged world fuel pages x →
  userRecord <$> userOutcome world fuel x = rowFor x (concat (pagesRead (pages x))).
Proof.
  intros Hx. rewrite userOutcome_listedKeys by by apply succeeds_halts, paged_succeeds.
  unfold listedKeys. rewrite (paged_listedKeys x Hx).
  destruct (concat (pagesRead (pages x))) as [|ak keys] eqn:E; [done|].
  destruct (workerResult_row x (ak :: keys)) as (user & -> & Hrow); [done|].
  cbn [fmap option_fmap option_map rowFor]. rewrite Hrow. f_equal. apply rowOf_reportRow.
  destruct Hx as (_ & _ & Hvalid). rewrite Forall_forall in Hvalid |- *.
  intros ak' Hin. apply Hvalid, pagesRead_subseteq. by rewrite E.
Qed.

Lemma paged_rows (users : list inputUser) :
  Forall (paged world fuel pages) users →
  userRecord <$> omap (userOutcome world fuel) users =
  omap (λ x, rowFor x (concat (pagesRead (pages x)))) users.
Proof.
  induction 1 as [|x users Hx _ IH]; [done|].
  cbn [omap list_omap]. rewrite <-(paged_outcome x Hx), <-IH.
  by destruct (userOutcome world fuel x).
Qed.

End ReportOfPages.

(** The report of a run that ended with status 0, in terms of the key
    pages that the service has for the users. *)
Lemma steps_report_pages world opts inputUserList fs0 fuel pages tr fs :
  Forall (paged world fuel pages) inputUserList →
  steps world opts inputUserList fs0 tr (Exited None fs) →
  ∃ rows,
    fs = <[outputFile opts := rows]> fs0 ∧
    rows ≡ₚ omap (λ x, rowFor x (concat (pagesRead (pages x)))) inputUserList.
Proof.
  intros Hpaged Hsteps.
  destruct (steps_exit_rows world opts inputUserList fs0 fuel tr fs) as (rows & -> & Hrows);
    [|done|].
  { eapply Forall_impl; [done|]. intros x Hx. by eapply succeeds_halts, paged_succeeds. }
  exists rows. split; [done|]. by rewrite Hrows, (paged_rows world fuel pages).
Qed.

(** C6, as the code has it.  Let the service have, for every enumerated
    user, a chain of key pages with sound creation dates.  The keys that
    count for the report are those that the worker collects: the keys
    of the pages before the first page without items.
    - The report of a run that ended with status 0 holds, in some
      order, exactly one row for each user with at least one such key:
      the account identifier, the user name, and then for each such
      key, in page order, its identifier and its creation date as the
      ISO 8601 timestamp YYYY-MM-DDThh:mm:ss±hh:mm of the date.
    - When no page but the last is without items, these are all the
      keys of the user: the report holds one row per user that has a
      key, with one pair per key.
    - The creation date that the program writes for a key is the
      ISO 8601 timestamp of the date.
    - A user without such keys produces no row and no error: when the
      file can be written, every run that ends has status 0. *)
Theorem report_rows (world : World) (opts : options)
    (inputUserList : list inputUser) (fs0 : files) (fuel : nat)
    (pages : inputUser → list (list iam.AccessKeyMetadata)) :
  Forall (paged world fuel pages) inputUserList →
  (∀ tr fs,
     steps world opts inputUserList fs0 tr (Exited None fs) →
     ∃ rows,
       fs = <[outputFile opts := rows]> fs0 ∧
       rows ≡ₚ omap (λ x, rowFor x (concat (pagesRead (pages x)))) inputUserList) ∧
  (Forall (λ x, ∀ i page, pages x !! i = Some page → S i < length (pages x) → page ≠ [])
          inputUserList →
   ∀ tr fs,
     steps world opts inputUserList fs0 tr (Exited None fs) →
     ∃ rows,
       fs = <[outputFile opts := rows]> fs0 ∧
       rows ≡ₚ omap (λ x, rowFor x (concat (pages x))) inputUserList) ∧
  (∀ ak,
     validClock (iam.CreateDate ak) →
     createdDate (newAccessKey ak) = iso8601 (iam.CreateDate ak) ∧
     hasShape iso8601Offset (iso8601 (iam.CreateDate ak)) = true) ∧
  (writable world (outputFile opts) →
   ∀ tr status fs,
     steps world opts inputUserList fs0 tr (Exited status fs) → status = None).
Proof.
  intros Hpaged. split_and!.
  - intros tr fs Hsteps. by eapply steps_report_pages.
  - intros Hfull tr fs Hsteps.
    destruct (steps_report_pages _ _ _ _ _ _ _ _ Hpaged Hsteps) as (rows & -> & Hrows).
    exists rows. split; [done|].
    assert (omap (λ x, rowFor x (concat (pagesRead (pages x)))) inputUserList =
            omap (λ x, rowFor x (concat (pages x))) inputUserList) as <-; [|done].
    clear -Hfull. induction Hfull as [|x users Hx _ IH]; [done|].
    cbn [omap list_omap]. by rewrite IH, pagesRead_all.
  - intros ak Hvalid. cbn [newAccessKey createdDate].
    rewrite <-Format_is_iso8601 by done. split; [done|]. by apply Format_iso8601.
  - intros Hw tr status fs Hsteps. eapply steps_exited_ok; [|done..].
    eapply Forall_impl; [done|]. intros x Hx. by eapply paged_succeeds.
Qed.

Lemma scenario_paged :
  Forall (paged Sample.scenario 1
            (λ x, [iam.AccessKeyMetadataList (Sample.aliceHasOneKey (name x) None)]))
         [Sample.alice; Sample.bob].
Proof.
  repeat constructor; try (by apply servesKeys_last); by vm_compute.
Qed.

Lemma report_rows_witness :
  ∃ rows,
    Sample.report = <[outputFile defaultOptions := rows]> ∅ ∧
    rows ≡ₚ omap (λ x, rowFor x (concat (pagesRead
                  [iam.AccessKeyMetadataList (Sample.aliceHasOneKey (name x) None)])))
              [Sample.alice; Sample.bob].
Proof.
  destruct (report_rows Sample.scenario defaultOptions [Sample.alice; Sample.bob] ∅ 1
              (λ x, [iam.AccessKeyMetadataList (Sample.aliceHasOneKey (name x) None)])
              scenario_paged) as (Hrows & _).
  exact (Hrows Sample.trace Sample.report scenario_steps).
Defined.

Lemma behindEmpty_paged :
  Forall (paged Sample.behindEmpty 2 (λ _, [[]; [Sample.key "AKIA9"]]))
         [Sample.alice; Sample.bob].
Proof.
  assert (∀ x, servesKeys Sample.behindEmpty x None [[]; [Sample.key "AKIA9"]]) as Hserves.
  { intros x.
    exact (servesKeys_more Sample.behindEmpty x None
             (Sample.emptyFirstPage (name x) None) _ eq_refl eq_refl
             (servesKeys_last Sample.behindEmpty x (Some "m1")
                (Sample.emptyFirstPage (name x) (Some "m1")) eq_refl eq_refl)). }
  apply Forall_forall. intros x _. split; [apply Hserves|]. split; [cbn; lia|].
  cbn. repeat constructor; by vm_compute.
Qed.

(** C6, as stated, fails for keys behind a page without items.  The
    service has two key pages for alice and for bob: the first is empty
    and announces the second, which holds the key AKIA9.  Both users
    have a key, the process can run to its end with status 0, and the
    report of every such run is empty. *)
Lemma keys_behind_empty_page_unreported :
  servesKeys Sample.behindEmpty Sample.alice None [[]; [Sample.key "AKIA9"]] ∧
  servesKeys Sample.behindEmpty Sample.bob None [[]; [Sample.key "AKIA9"]] ∧
  (∃ tr fs,
     steps Sample.behindEmpty defaultOptions [Sample.alice; Sample.bob] ∅ tr
           (Exited None fs)) ∧
  ∀ tr fs,
    steps Sample.behindEmpty defaultOptions [Sample.alice; Sample.bob] ∅ tr
          (Exited None fs) →
    fs = <["output.csv" := []]> ∅.
Proof.
  pose proof behindEmpty_paged as Hpaged.
  split_and!.
  - by apply Forall_cons in Hpaged as [(? & _) _].
  - by apply Forall_cons in Hpaged as [_ [(? & _) _]%Forall_cons].
  - assert (Forall (succeeds Sample.behindEmpty 2) [Sample.alice; Sample.bob]) as Hok.
    { eapply Forall_impl; [done|]. intros x Hx. by eapply paged_succeeds. }
    destruct (steps_exit Sample.behindEmpty defaultOptions [Sample.alice; Sample.bob] ∅ 2
                ltac:(eapply Forall_impl; [exact Hok|]; intros x Hx; by apply succeeds_halts)
                [] _ ltac:(by left) (steps_init _ _ _ _)) as (tr & status & fs & Hsteps).
    exists tr, fs. cbn [app] in Hsteps.
    by rewrite (steps_exited_ok _ _ _ _ 2 _ _ _ Hok ltac:(done) Hsteps) in Hsteps.
  - intros tr fs Hsteps.
    destruct (steps_report_pages _ _ _ _ _ _ _ _ Hpaged Hsteps) as (rows & -> & Hrows).
    cbn in Hrows. by apply Permutation_nil_r in Hrows as ->.
Qed.

(** * A run without users *)

Lemma writeRecordsToCSV_nil world filename fs :
  Create world filename = None →
  Flush world [] = None →
  writeRecordsToCSV world filename [] fs = (None, <[filename := []]> fs).
Proof.
  intros Hc Hf. unfold writeRecordsToCSV. rewrite Hc. cbn [writeRecords].
  rewrite lookup_insert_eq. cbn [default from_option id]. by rewrite Hf.
Qed.

Lemma steps_no_users_results world opts fs0 tr s :
  steps world opts [] fs0 tr s → omap resulted tr = [].
Proof.
  intros (Hs & Ht & (holding & Hh & _) & _)%steps_accounted.
  apply prefix_nil_inv in Hs. rewrite Hs in Ht. apply prefix_nil_inv in Ht.
  rewrite Ht in Hh. symmetry in Hh. apply Permutation_nil_r in Hh.
  apply app_eq_nil in Hh as [Hr _]. by apply fmap_nil_inv in Hr.
Qed.

(** C10.  Without users, whatever the number of workers, and provided
    the file can be created and flushed: [main] receives nothing; every
    run has at most a bounded number of steps and can be continued to
    the exit of the process; a run that ended has status 0 and has left
    the output file with no rows.  This is the run of the whole program
    when the enumeration yields no user, as for an empty account list
    and for accounts whose user listing has no items. *)
Theorem no_users_empty_report (world : World) (opts : options) (fs0 : files) :
  Create world (outputFile opts) = None →
  Flush world [] = None →
  (∀ tr s,
     steps world opts [] fs0 tr s →
     omap resulted tr = [] ∧
     length tr ≤ cost world 0 [] (init opts) ∧
     (∃ tr', steps world opts [] fs0 (tr ++ tr')
               (Exited None (<[outputFile opts := []]> fs0))) ∧
     ∀ status fs, s = Exited status fs →
                  status = None ∧ fs = <[outputFile opts := []]> fs0) ∧
  (∀ fuel calls,
     enumerateUsers world fuel opts [] = (Ok [], calls) →
     ∃ tr, mainRuns world opts fuel fs0 calls tr
             (Exited None (<[outputFile opts := []]> fs0))) ∧
  (∀ fuel,
     LoadDefaultConfig world (awsProfileName opts) = None →
     Open world (accountListFile opts) = inr [] →
     enumerateUsers world fuel opts [] = (Ok [], [])).
Proof.
  intros Hc Hf.
  assert (∀ tr status fs,
            steps world opts [] fs0 tr (Exited status fs) →
            status = None ∧ fs = <[outputFile opts := []]> fs0) as Hend.
  { intros tr status fs Hsteps.
    destruct (steps_exited_write world opts [] fs0 0 tr status fs)
      as (tr0 & i & userList & ch & closed & ws & -> & Hsteps0 & Hstep); [done..|].
    apply steps_no_users_results in Hsteps0 as Hres.
    apply steps_invariant in Hsteps0 as [_ Hm _ _ _ _ _ _].
    destruct Hm as (_ & _ & _ & _ & ->). rewrite Hres in Hstep.
    inversion Hstep as [| | | | | | | |i' userList' ch' closed' ws' err fs' Hi Hw]; subst.
    rewrite writeRecordsToCSV_nil in Hw by done. by injection Hw as <- <-. }
  assert (∀ tr s,
            steps world opts [] fs0 tr s →
            ∃ tr', steps world opts [] fs0 (tr ++ tr')
                     (Exited None (<[outputFile opts := []]> fs0))) as Hgo.
  { intros tr s Hsteps.
    destruct (steps_exit world opts [] fs0 0 (Forall_nil_2 _) tr s)
      as (tr' & status & fs & Hsteps'); [by right|done|].
    destruct (Hend _ _ _ Hsteps') as [-> ->]. by exists tr'. }
  split_and!.
  - intros tr s Hsteps. split_and!.
    + by eapply steps_no_users_results.
    + by eapply (steps_bounded world opts [] fs0 0).
    + by eapply Hgo.
    + intros status fs ->. by eapply Hend.
  - intros fuel calls Henum.
    destruct (Hgo [] (init opts)) as (tr & Hsteps); [constructor|].
    exists tr. by eapply runs_pool.
  - intros fuel Hcfg Hopen. unfold enumerateUsers, getAccountRoleListFromCSV.
    by rewrite Hcfg, Hopen.
Qed.

Lemma no_users_empty_report_witness :
  ∃ tr, mainRuns Sample.noUsers defaultOptions 1 ∅
          [CallAssumeRole "arn:aws:iam::111111111111:role/ReadOnly";
           CallListUsers Sample.creds None]
          tr (Exited None (<[outputFile defaultOptions := []]> ∅)).
Proof.
  destruct (no_users_empty_report Sample.noUsers defaultOptions ∅) as (_ & Hrun & _).
  - reflexivity.
  - reflexivity.
  - apply (Hrun 1). reflexivity.
Defined.

(** * Failing remote calls *)























(** * More on the account list *)

Lemma readAccountRoles_inr r acc records :
  readAccountRoles r acc = inr records →
  ∃ good rest,
    records = acc ++ good ∧ r = (csv.Record <$> good) ++ rest ∧
    Forall wellFormed good ∧ (rest = [] ∨ ∃ rest', rest = csv.EOF :: rest').
Proof.
  revert acc. induction r as [|res r IH]; intros acc; cbn [readAccountRoles].
  - intros [= <-]. exists [], []. rewrite app_nil_r. split_and!; eauto.
  - destruct res as [record| | |]; try done.
    + destruct (validateCSVAccountRoleData (Some record)) eqn:Hv; [done|].
      intros (good & rest & -> & -> & Hgood & Hrest)%IH.
      exists (record :: good), rest. rewrite <-app_assoc. split_and!; try done.
      constructor; [|done]. by apply validate_wellFormed.
    + intros [= <-]. exists [], (csv.EOF :: r). rewrite app_nil_r.
      split_and!; eauto.
Qed.

Lemma read_wellFormed (open : string → error + csv.Reader) filename records :
  getAccountRoleListFromCSV open filename = inr records → Forall wellFormed records.
Proof.
  unfold getAccountRoleListFromCSV. destruct (open filename) as [err|r]; [done|].
  intros Hread. by eapply readAccountRoles_wellFormed.
Qed.

(** X1.  Reading the account list succeeds exactly when the file can
    be opened and the reader yields well-formed records up to the end
    of the file; the list returned holds these records, all of them, in
    the order of the file. *)
Theorem read_accounts_exact (open : string → error + csv.Reader) (filename : string)
    (records : list (list string)) :
  getAccountRoleListFromCSV open filename = inr records ↔
  ∃ rest,
    open filename = inr ((csv.Record <$> records) ++ rest) ∧
    Forall wellFormed records ∧
    (rest = [] ∨ ∃ rest', rest = csv.EOF :: rest').
Proof.
  unfold getAccountRoleListFromCSV. split.
  - destruct (open filename) as [err|r]; [done|].
    intros (good & rest & -> & -> & Hgood & Hrest)%readAccountRoles_inr.
    by exists rest.
  - intros (rest & -> & Hgood & Hrest).
    rewrite readAccountRoles_good by done.
    by destruct Hrest as [->|[rest' ->]].
Qed.

(** X2.  A failure to read the account list ends the run before any
    remote call and before any file is written, with the message
    "error when reading account list file" and the error.  The error
    of [os.Open] is passed on as it is.  Otherwise the first thing the
    reader yields that is not a well-formed record decides, and nothing
    after it is read: a parse error is reported with its line and its
    column, any other read error as it is, a malformed record by its
    validation error, and the end of the file ends the list. *)
Theorem read_failure_reported (world : World) (opts : options) (fuel : nat)
    (fs0 : files) :
  let read := getAccountRoleListFromCSV (Open world) (accountListFile opts) in
  (∀ err,
     LoadDefaultConfig world (awsProfileName opts) = None →
     read = inl err →
     ∀ calls tr s,
       mainRuns world opts fuel fs0 calls tr s →
       calls = [] ∧ tr = [] ∧
       s = Exited (Some (Fatal "error when reading account list file" [zapError err]))
                  fs0) ∧
  (∀ err, Open world (accountListFile opts) = inl err → read = inl err) ∧
  (∀ good item rest,
     Open world (accountListFile opts) = inr ((csv.Record <$> good) ++ item :: rest) →
     Forall wellFormed good →
     match item with
     | csv.ParseError line column err =>
         read = inl ("error when parsing csv in line " +:+ pretty line +:+
                     " column " +:+ pretty column +:+ ", " +:+ err)
     | csv.OtherError err => read = inl err
     | csv.EOF => read = inr good
     | csv.Record bad =>
         match validateCSVAccountRoleData (Some bad) with
         | Some err => read = inl err
         | None => True
         end
     end).
Proof.
  intros read. subst read. split_and!.
  - intros err Hcfg Hread.
    assert (enumerateUsers world fuel opts [] =
            (Exit (Fatal "error when reading account list file" [zapError err]), []))
      as Hrun.
    { unfold enumerateUsers. by rewrite Hcfg, Hread. }
    intros calls tr s Hmain.
    inversion Hmain as [f calls' Henum|users calls' tr' s' Henum]; subst.
    + rewrite Hrun in Henum. by injection Henum as <- <-.
    + by rewrite Hrun in Henum.
  - intros err Hopen. unfold getAccountRoleListFromCSV. by rewrite Hopen.
  - intros good item rest Hopen Hgood. unfold getAccountRoleListFromCSV.
    rewrite Hopen, readAccountRoles_good by done. cbn [readAccountRoles app].
    destruct item as [bad| | |]; try done.
    by destruct (validateCSVAccountRoleData (Some bad)).
Qed.

Lemma read_failure_reported_witness :
  getAccountRoleListFromCSV (Open Cases.unreadable) "accountlist.csv" =
  inl ("error when parsing csv in line 3 column 7, " +:+
       "parse error on line 3, column 7: bare quote in non-quoted-field") ∧
  ∀ calls tr s,
    mainRuns Cases.unreadable defaultOptions 5 ∅ calls tr s →
    calls = [] ∧ tr = [] ∧
    s = Exited (Some (Fatal "error when reading account list file"
                        [("error", "error when parsing csv in line 3 column 7, " +:+
                           "parse error on line 3, column 7: bare quote in non-quoted-field")]))
               ∅.
Proof.
  destruct (read_failure_reported Cases.unreadable defaultOptions 5 ∅)
    as (Hrun & _ & Hitem).
  assert (getAccountRoleListFromCSV (Open Cases.unreadable) "accountlist.csv" =
          inl ("error when parsing csv in line 3 column 7, " +:+
               "parse error on line 3, column 7: bare quote in non-quoted-field")) as Hread.
  { apply (Hitem Cases.twoAccounts
             (csv.ParseError 3 7 "parse error on line 3, column 7: bare quote in non-quoted-field")
             []).
    - reflexivity.
    - repeat constructor; by eexists _, _. }
  split; [exact Hread|].
  apply Hrun; [reflexivity|exact Hread].
Defined.

(** * The role ARN *)

Lemma append_inj_l (p s t : string) : p +:+ s = p +:+ t → s = t.
Proof.
  induction p as [|a p IH]; [done|].
  change (String a p +:+ s) with (String a (p +:+ s)).
  change (String a p +:+ t) with (String a (p +:+ t)).
  intros [= H]. by apply IH.
Qed.

Lemma append_inj_length (a b s t : string) :
  String.length a = String.length b → a +:+ s = b +:+ t → a = b ∧ s = t.
Proof.
  revert b. induction a as [|c a IH]; intros [|d b]; try done.
  change (String c a +:+ s) with (String c (a +:+ s)).
  change (String d b +:+ t) with (String d (b +:+ t)).
  cbn [String.length]. intros [= Hlen] [= -> H].
  destruct (IH b Hlen H) as [-> ->]. done.
Qed.

Lemma substring_app (a s : string) :
  String.substring 0 (String.length a) (a +:+ s) = a.
Proof.
  induction a as [|c a IH]; [by destruct s|].
  change (String c a +:+ s) with (String c (a +:+ s)).
  cbn. by rewrite IH.
Qed.

(** X4.  For records that pass the validation the role ARN keeps both
    fields apart: two such records with the same ARN are the same
    record, and the account identifier is the 12 bytes of the ARN
    after its 13-byte prefix. *)
Theorem role_arn_injective (record1 record2 : list string) (roleARN : string) :
  validateCSVAccountRoleData (Some record1) = None →
  validateCSVAccountRoleData (Some record2) = None →
  getRoleARN record1 = Some roleARN →
  getRoleARN record2 = Some roleARN →
  record1 = record2 ∧ getAccountId record1 = Some (String.substring 13 12 roleARN).
Proof.
  intros (a1 & r1 & -> & Hlen1)%validate_wellFormed
         (a2 & r2 & -> & Hlen2)%validate_wellFormed.
  cbn. intros [= <-] [= H].
  apply append_inj_l in H.
  apply append_inj_length in H as [-> H]; [|congruence].
  apply (append_inj_l ":role/") in H as ->. split; [done|].
  f_equal. symmetry.
  change (String.substring 0 12 (a1 +:+ ":role/" +:+ r1) = a1).
  rewrite <-Hlen1. apply substring_app.
Qed.

Lemma role_arn_injective_witness :
  ["111111111111"; "ReadOnly"] = ["111111111111"; "ReadOnly"] ∧
  getAccountId ["111111111111"; "ReadOnly"] =
  Some (String.substring 13 12 "arn:aws:iam::111111111111:role/ReadOnly").
Proof.
  apply (role_arn_injective ["111111111111"; "ReadOnly"] ["111111111111"; "ReadOnly"]
           "arn:aws:iam::111111111111:role/ReadOnly"); reflexivity.
Defined.

(** * The enumeration, account by account *)

Lemma after_after users1 users2 log1 log2 o :
  after users1 log1 (after users2 log2 o) = after (users1 ++ users2) (log1 ++ log2) o.
Proof.
  destruct o as [[users| | |] log]; unfold after; cbn; by rewrite !app_assoc.
Qed.

Lemma after_nil o : after [] [] o = o.
Proof. by destruct o as [[users| | |] log]. Qed.

Lemma listUsersLoop_after world fuel svc accountId marker users log :
  listUsersLoop world fuel svc accountId marker users log =
  after users log (listUsersLoop world fuel svc accountId marker [] []).
Proof.
  revert marker users log. induction fuel as [|fuel IH]; intros marker users log.
  { unfold after. cbn. by rewrite app_nil_r. }
  rewrite !listUsersLoop_S. cbn zeta.
  destruct (ListUsers world svc marker) as [err|out]; [done|].
  destruct (iam.usersIsTruncated out).
  - rewrite IH. rewrite (IH _ ([] ++ _) ([] ++ _)). by rewrite after_after.
  - done.
Qed.

Lemma enumerateAccount_after world fuel record users log :
  enumerateAccount world fuel record users log =
  after users log (enumerateAccount world fuel record [] []).
Proof.
  destruct record as [|accountId [|roleName rest]].
  1-2: unfold after; cbn; by rewrite app_nil_r.
  rewrite !enumerateAccount_eq. cbn zeta.
  destruct (AssumeRole world _) as [err|creds]; [done|].
  destruct (LoadAssumedConfig world creds); [done|].
  rewrite listUsersLoop_after.
  by rewrite (listUsersLoop_after _ _ _ _ _ [] ([] ++ _)), after_after, app_nil_r.
Qed.

Lemma enumerateAccounts_cons world fuel record records users log :
  enumerateAccounts world fuel (record :: records) users log =
  match enumerateAccount world fuel record users log with
  | (Ok users', log') => enumerateAccounts world fuel records users' log'
  | (Exit f, log') => (Exit f, log')
  | (Panic, log') => (Panic, log')
  | (Spin, log') => (Spin, log')
  end.
Proof. done. Qed.

Lemma enumerateAccounts_after world fuel records users log :
  enumerateAccounts world fuel records users log =
  after users log (enumerateAccounts world fuel records [] []).
Proof.
  revert users log. induction records as [|record records IH]; intros users log.
  { unfold after. cbn. by rewrite !app_nil_r. }
  rewrite !enumerateAccounts_cons. rewrite enumerateAccount_after.
  destruct (enumerateAccount world fuel record [] []) as [[users'|f| |] log'];
    unfold after at 1; cbn [fst snd fmap result_fmap]; try done.
  rewrite IH, (IH users' log'). by rewrite after_after.
Qed.

(** X5.  The accounts are worked on one after the other and
    independently: for an account list made of two parts, the users
    found are those of the first part followed by those of the second,
    and likewise the remote calls; the work on the second part is what
    it would be without the first.  When the work on the first part
    does not end well, that is the outcome, and no call is made for the
    second part. *)
Theorem accounts_compose (world : World) (fuel : nat)
    (records1 records2 : list (list string)) :
  match enumerateAccounts world fuel records1 [] [] with
  | (Ok users1, calls1) =>
      enumerateAccounts world fuel (records1 ++ records2) [] [] =
      after users1 calls1 (enumerateAccounts world fuel records2 [] [])
  | (r, calls1) =>
      enumerateAccounts world fuel (records1 ++ records2) [] [] = (r, calls1)
  end.
Proof.
  assert (∀ users log,
    enumerateAccounts world fuel (records1 ++ records2) users log =
    match enumerateAccounts world fuel records1 users log with
    | (Ok users1, calls1) => enumerateAccounts world fuel records2 users1 calls1
    | o => o
    end) as Happ.
  { induction records1 as [|record records1 IH]; intros users log; [done|].
    rewrite <-app_comm_cons, !enumerateAccounts_cons.
    destruct (enumerateAccount world fuel record users log) as [[users'|f| |] log'];
      [apply IH|done..]. }
  rewrite Happ.
  destruct (enumerateAccounts world fuel records1 [] []) as [[users1|f| |] calls1];
    try done.
  apply enumerateAccounts_after.
Qed.

Lemma after_Ok users log o users' calls :
  after users log o = (Ok users', calls) →
  ∃ users'' calls'', o = (Ok users'', calls'') ∧ users' = users ++ users'' ∧
                     calls = log ++ calls''.
Proof.
  destruct o as [[users''| | |] calls'']; unfold after; cbn; try done.
  intros [= <- <-]. eauto.
Qed.

(** * Where an enumerated user comes from *)

Lemma listUsersLoop_provenance world fuel svc id marker users calls u :
  listUsersLoop world fuel svc id marker [] [] = (Ok users, calls) →
  u ∈ users →
  accountId u = id ∧ iamClient u = svc ∧
  ∃ marker' out,
    ListUsers world svc marker' = inr out ∧
    {| iam.UserName := name u |} ∈ iam.Users out ∧
    CallListUsers svc marker' ∈ calls.
Proof.
  revert marker users calls. induction fuel as [|fuel IH]; intros marker users calls; [done|].
  rewrite listUsersLoop_S. cbn zeta.
  destruct (ListUsers world svc marker) as [err|out] eqn:Hout; [done|].
  assert (u ∈ newInputUser svc id <$> iam.Users out →
          accountId u = id ∧ iamClient u = svc ∧
          ∃ marker' out',
            ListUsers world svc marker' = inr out' ∧
            {| iam.UserName := name u |} ∈ iam.Users out' ∧
            marker' = marker) as Hpage.
  { intros (user & -> & Huser)%list_elem_of_fmap. split_and!; [done..|].
    exists marker, out. split_and!; [done| |done]. by destruct user. }
  destruct (iam.usersIsTruncated out).
  - rewrite listUsersLoop_after.
    intros (users'' & calls'' & Hloop & -> & ->)%after_Ok [Hu|Hu]%elem_of_app.
    + destruct (Hpage Hu) as (? & ? & marker' & out' & ? & ? & ->).
      split_and!; [done..|]. exists marker, out'. split_and!; [done..|].
      apply elem_of_app. left. apply list_elem_of_singleton. done.
    + destruct (IH _ _ _ Hloop Hu) as (? & ? & marker' & out' & ? & ? & ?).
      split_and!; [done..|]. exists marker', out'. split_and!; [done..|].
      apply elem_of_app. by right.
  - intros [= <- <-] Hu.
    destruct (Hpage Hu) as (? & ? & marker' & out' & ? & ? & ->).
    split_and!; [done..|]. exists marker, out'. split_and!; [done..|].
    apply list_elem_of_singleton. done.
Qed.

Lemma enumerateAccounts_provenance world fuel records users calls u :
  enumerateAccounts world fuel records [] [] = (Ok users, calls) →
  u ∈ users →
  ∃ id role rest marker out,
    id :: role :: rest ∈ records ∧
    accountId u = id ∧
    AssumeRole world ("arn:aws:iam::" +:+ id +:+ ":role/" +:+ role) = inr (iamClient u) ∧
    ListUsers world (iamClient u) marker = inr out ∧
    {| iam.UserName := name u |} ∈ iam.Users out ∧
    CallListUsers (iamClient u) marker ∈ calls.
Proof.
  revert users calls. induction records as [|record records IH]; intros users calls.
  { intros [= <- <-]. by intros ?%elem_of_nil. }
  rewrite enumerateAccounts_cons.
  destruct (enumerateAccount world fuel record [] []) as [[users1|f| |] calls1] eqn:Hacc;
    try done.
  rewrite enumerateAccounts_after.
  intros (users2 & calls2 & Hrest & -> & ->)%after_Ok [Hu|Hu]%elem_of_app.
  - destruct record as [|id [|role rest]]; [done..|].
    rewrite enumerateAccount_eq in Hacc. cbn zeta in Hacc.
    destruct (AssumeRole world _) as [err|creds] eqn:Hrole; [done|].
    destruct (LoadAssumedConfig world creds); [done|].
    rewrite listUsersLoop_after in Hacc.
    apply after_Ok in Hacc as (users'' & calls'' & Hloop & Heq & ->).
    rewrite app_nil_l in Heq. subst users''.
    destruct (listUsersLoop_provenance _ _ _ _ _ _ _ _ Hloop Hu)
      as (Hid & Hsvc & marker & out & Hout & Huser & Hcall).
    exists id, role, rest, marker, out. rewrite Hsvc.
    split_and!; [by left|done..|].
    apply elem_of_app. left. apply elem_of_app. by right.
  - destruct (IH _ _ Hrest Hu)
      as (id & role & rest & marker & out & Hrec & Hid & Hrole & Hout & Huser & Hcall).
    exists id, role, rest, marker, out.
    split_and!; [by right|done..|]. apply elem_of_app. by right.
Qed.

Lemma enumerateUsers_provenance world fuel opts users calls u :
  enumerateUsers world fuel opts [] = (Ok users, calls) →
  u ∈ users →
  ∃ records id role marker out,
    getAccountRoleListFromCSV (Open world) (accountListFile opts) = inr records ∧
    [id; role] ∈ records ∧
    String.length id = 12 ∧
    accountId u = id ∧
    AssumeRole world ("arn:aws:iam::" +:+ id +:+ ":role/" +:+ role) = inr (iamClient u) ∧
    ListUsers world (iamClient u) marker = inr out ∧
    {| iam.UserName := name u |} ∈ iam.Users out ∧
    CallListUsers (iamClient u) marker ∈ calls.
Proof.
  unfold enumerateUsers.
  destruct (LoadDefaultConfig world _); [done|].
  destruct (getAccountRoleListFromCSV _ _) as [err|records] eqn:Hget; [done|].
  intros Henum Hu.
  destruct (enumerateAccounts_provenance _ _ _ _ _ _ Henum Hu)
    as (id & role & rest & marker & out & Hrec & Hid & Hrole & Hout & Huser & Hcall).
  apply read_wellFormed in Hget as Hgood.
  rewrite Forall_forall in Hgood.
  destruct (Hgood _ Hrec) as (id' & role' & [= -> -> ->] & Hlen).
  exists records, id', role', marker, out. by split_and!.
Qed.

(** X6.  Every user that the enumeration hands to the workers comes
    from a record of the account list: the user carries the account
    identifier of the record, the client made of the credentials that
    AssumeRole returned for the role ARN of this record, and a name
    that a ListUsers call with this client, made during the
    enumeration, returned. *)
Theorem enumerated_user_provenance (world : World) (fuel : nat) (opts : options)
    (users : list inputUser) (calls : list remoteCall) (u : inputUser) :
  enumerateUsers world fuel opts [] = (Ok users, calls) →
  u ∈ users →
  ∃ records id role marker out,
    getAccountRoleListFromCSV (Open world) (accountListFile opts) = inr records ∧
    [id; role] ∈ records ∧
    String.length id = 12 ∧
    accountId u = id ∧
    AssumeRole world ("arn:aws:iam::" +:+ id +:+ ":role/" +:+ role) = inr (iamClient u) ∧
    ListUsers world (iamClient u) marker = inr out ∧
    {| iam.UserName := name u |} ∈ iam.Users out ∧
    CallListUsers (iamClient u) marker ∈ calls.
Proof. apply enumerateUsers_provenance. Qed.

Lemma enumerated_user_provenance_witness :
  ∃ records id role marker out,
    getAccountRoleListFromCSV (Open Sample.scenario) "accountlist.csv" = inr records ∧
    [id; role] ∈ records ∧
    String.length id = 12 ∧
    accountId Sample.alice = id ∧
    AssumeRole Sample.scenario ("arn:aws:iam::" +:+ id +:+ ":role/" +:+ role) =
      inr (iamClient Sample.alice) ∧
    ListUsers Sample.scenario (iamClient Sample.alice) marker = inr out ∧
    {| iam.UserName := name Sample.alice |} ∈ iam.Users out ∧
    CallListUsers (iamClient Sample.alice) marker ∈
      [CallAssumeRole "arn:aws:iam::111111111111:role/ReadOnly";
       CallListUsers Sample.creds None].
Proof.
  apply (enumerated_user_provenance Sample.scenario 1 defaultOptions
           [Sample.alice; Sample.bob]).
  - reflexivity.
  - by left.
Defined.

(** * The order of the accounts *)

Lemma listUsersLoop_assumed world fuel svc id marker users :
  omap assumed (listUsersLoop world fuel svc id marker users []).2 = [].
Proof.
  revert marker users. induction fuel as [|fuel IH]; intros marker users; [done|].
  rewrite listUsersLoop_S. cbn zeta.
  destruct (ListUsers world svc marker) as [err|out]; [done|].
  destruct (iam.usersIsTruncated out); [|done].
  rewrite listUsersLoop_after. unfold after. cbn [fst snd].
  by rewrite omap_app, IH.
Qed.

Lemma enumerateAccount_assumed world fuel id role rest :
  omap assumed (enumerateAccount world fuel (id :: role :: rest) [] []).2 =
  ["arn:aws:iam::" +:+ id +:+ ":role/" +:+ role].
Proof.
  rewrite enumerateAccount_eq. cbn zeta.
  destruct (AssumeRole world _) as [err|creds]; [done|].
  destruct (LoadAssumedConfig world creds); [done|].
  rewrite listUsersLoop_after. unfold after. cbn [fst snd].
  by rewrite omap_app, listUsersLoop_assumed.
Qed.

Lemma enumerateAccounts_assumed world fuel records :
  Forall (λ record, 2 ≤ length record) records →
  omap assumed (enumerateAccounts world fuel records [] []).2
    `prefix_of` omap getRoleARN records ∧
  (∀ users, (enumerateAccounts world fuel records [] []).1 = Ok users →
            omap assumed (enumerateAccounts world fuel records [] []).2 =
            omap getRoleARN records).
Proof.
  induction 1 as [|record records Hlen _ [IHpre IHok]]; [done|].
  destruct record as [|id [|role rest]]; [cbn in Hlen; lia..|].
  rewrite enumerateAccounts_cons.
  pose proof (enumerateAccount_assumed world fuel id role rest) as Hone.
  cbn [omap list_omap getRoleARN lookup list_lookup].
  change (omap getRoleARN records) with (omap getRoleARN records).
  set (arn := "arn:aws:iam::" +:+ id +:+ ":role/" +:+ role) in *.
  destruct (enumerateAccount world fuel (id :: role :: rest) [] [])
    as [[users1|f| |] calls1]; cbn [fst snd] in *.
  2-4: rewrite Hone; split; [by apply prefix_cons, prefix_nil|done].
  rewrite enumerateAccounts_after. unfold after. cbn [fst snd].
  rewrite omap_app, Hone. split.
  - by apply prefix_cons.
  - intros users Hok. cbn. f_equal.
    destruct (enumerateAccounts world fuel records [] []) as [[users2| | |] calls2];
      try done.
    by eapply IHok.
Qed.

(** X7.  The roles are assumed in the order of the account list, one
    AssumeRole call per record, duplicates included: the role ARNs of
    the AssumeRole calls of the enumeration are the ARNs of the first
    records of the list, and of all of them when the enumeration ends
    well. *)
Theorem roles_assumed_in_order (world : World) (fuel : nat) (opts : options)
    (records : list (list string)) :
  getAccountRoleListFromCSV (Open world) (accountListFile opts) = inr records →
  omap assumed (enumerateUsers world fuel opts []).2 `prefix_of` omap getRoleARN records ∧
  length (omap getRoleARN records) = length records ∧
  (∀ users, (enumerateUsers world fuel opts []).1 = Ok users →
            omap assumed (enumerateUsers world fuel opts []).2 =
            omap getRoleARN records).
Proof.
  intros Hget. unfold enumerateUsers. rewrite Hget.
  apply read_wellFormed in Hget as Hgood.
  assert (Forall (λ record : list string, 2 ≤ length record) records) as Hlen.
  { eapply Forall_impl; [exact Hgood|]. by intros record (id & role & -> & _). }
  split_and!.
  - destruct (LoadDefaultConfig world _); [apply prefix_nil|].
    by apply enumerateAccounts_assumed.
  - clear -Hlen. induction Hlen as [|[|id [|role rest]] records Hrec _ IH]; cbn in *;
      (lia || done).
  - destruct (LoadDefaultConfig world _); [done|].
    by apply enumerateAccounts_assumed.
Qed.

Lemma roles_assumed_in_order_witness :
  omap assumed (enumerateUsers Cases.twoAccountsWorld 1 defaultOptions []).2
    `prefix_of` omap getRoleARN Cases.twoAccounts ∧
  length (omap getRoleARN Cases.twoAccounts) = length Cases.twoAccounts ∧
  (∀ users,
     (enumerateUsers Cases.twoAccountsWorld 1 defaultOptions []).1 = Ok users →
     omap assumed (enumerateUsers Cases.twoAccountsWorld 1 defaultOptions []).2 =
     omap getRoleARN Cases.twoAccounts).
Proof.
  apply (roles_assumed_in_order Cases.twoAccountsWorld 1 defaultOptions Cases.twoAccounts).
  reflexivity.
Defined.

(** * Listings that do not end *)

(** X8.  The listing loops have no bound on the number of pages and do
    not notice a marker that comes again: against a service that
    answers every call of ListUsers with a truncated page, the
    enumeration of the account never ends, it makes call after call;
    and likewise the listing of a user's keys, when every page is
    truncated and has items. *)
Theorem paging_never_gives_up (world : World) :
  (∀ svc id,
     (∀ marker, ∃ out,
        ListUsers world svc marker = inr out ∧ iam.usersIsTruncated out = true) →
     ∀ fuel marker users log, ∃ calls,
       listUsersLoop world fuel svc id marker users log = (Spin, log ++ calls) ∧
       length calls = fuel) ∧
  (∀ x,
     (∀ marker, ∃ out,
        listKeys world x marker = inr out ∧ iam.keysIsTruncated out = true ∧
        iam.AccessKeyMetadataList out ≠ []) →
     (∀ fuel keys marker log, ∃ calls,
        listAccessKeysLoop world fuel x keys marker log = (Spin, log ++ calls) ∧
        length calls = fuel) ∧
     ∀ fuel, ¬ halts world fuel x [] None).
Proof.
  split.
  - intros svc id Hmore fuel.
    induction fuel as [|fuel IH]; intros marker users log.
    { exists []. by rewrite app_nil_r. }
    rewrite listUsersLoop_S. cbn zeta.
    destruct (Hmore marker) as (out & -> & ->).
    edestruct IH as (calls & -> & Hlen). exists (CallListUsers svc marker :: calls).
    rewrite <-app_assoc. cbn. by rewrite Hlen.
  - intros x Hmore.
    assert (∀ fuel keys marker log, ∃ calls,
              listAccessKeysLoop world fuel x keys marker log = (Spin, log ++ calls) ∧
              length calls = fuel) as Hspin.
    { induction fuel as [|fuel IH]; intros keys marker log.
      { exists []. by rewrite app_nil_r. }
      rewrite listAccessKeysLoop_S. cbn zeta.
      destruct (Hmore marker) as (out & Hout & Htrunc & Hitems).
      fold (listKeys world x marker). rewrite Hout, keyPage_items, Htrunc.
      destruct (iam.AccessKeyMetadataList out) as [|ak page] eqn:Hpage; [done|].
      edestruct IH as (calls & -> & Hlen).
      exists (CallListAccessKeys (iamClient x) (name x) marker :: calls).
      rewrite <-app_assoc. cbn. by rewrite Hlen. }
    split; [done|]. intros fuel. unfold halts.
    destruct (Hspin fuel [] None []) as (calls & -> & _). by intros H.
Qed.

Lemma paging_never_gives_up_witness :
  (∀ fuel, ∃ calls,
     listUsersLoop Cases.endless fuel Sample.creds "111111111111" None [] [] =
     (Spin, [] ++ calls) ∧ length calls = fuel) ∧
  (∀ fuel, ¬ halts Cases.endless fuel Sample.alice [] None).
Proof.
  destruct (paging_never_gives_up Cases.endless) as [Husers Hkeys]. split.
  - intros fuel. apply Husers. intros marker. by eexists.
  - apply Hkeys. intros marker. by eexists.
Defined.

(** * Writing the report *)

Lemma writeRecords_app world filename userList rows fs :
  Forall (λ user, Write world (userRecord user) = None) userList →
  writeRecords world filename userList (<[filename := rows]> fs) =
  (Flush world (rows ++ (userRecord <$> userList)),
   <[filename := rows ++ (userRecord <$> userList)]> fs).
Proof.
  intros Hwrite. revert rows.
  induction Hwrite as [|user userList Hw _ IH]; intros rows; cbn [writeRecords].
  - by rewrite lookup_insert_eq, app_nil_r.
  - rewrite Hw. rewrite alter_insert_eq, IH. cbn. by rewrite <-app_assoc.
Qed.

(** X9.  When the file can be created, the writer takes every record
    and the flush succeeds, [writeRecordsToCSV] returns no error, and
    then the file holds one record per user of the list, in the order
    of the list, and nothing of what it held before; the other files
    are as they were.  Whenever it returns no error, this is the state
    of the files. *)
Theorem report_replaces_file (world : World) (filename : string)
    (userList : list outputUser) (fs : files) :
  (Create world filename = None →
   Forall (λ user, Write world (userRecord user) = None) userList →
   Flush world (userRecord <$> userList) = None →
   writeRecordsToCSV world filename userList fs =
   (None, <[filename := userRecord <$> userList]> fs)) ∧
  (∀ fs',
     writeRecordsToCSV world filename userList fs = (None, fs') →
     fs' !! filename = Some (userRecord <$> userList) ∧
     ∀ other, other ≠ filename → fs' !! other = fs !! other).
Proof.
  split.
  - intros Hcreate Hwrite Hflush. unfold writeRecordsToCSV. rewrite Hcreate.
    rewrite writeRecords_app by done. cbn. by rewrite Hflush.
  - intros fs' ->%writeRecordsToCSV_ok. split.
    + by rewrite lookup_insert_eq.
    + intros other Hother. by rewrite lookup_insert_ne.
Qed.

Lemma report_replaces_file_witness :
  writeRecordsToCSV Sample.scenario "output.csv" [Sample.aliceFound]
    (<["output.csv" := [["old"]]]> ∅) =
  (None, <["output.csv" := userRecord <$> [Sample.aliceFound]]>
           (<["output.csv" := [["old"]]]> ∅)).
Proof.
  apply (report_replaces_file Sample.scenario "output.csv" [Sample.aliceFound]).
  - reflexivity.
  - by repeat constructor.
  - reflexivity.
Defined.

(** * A report that cannot be written *)

Lemma steps_exited_by_write world opts inputUserList fs0 tr status fs :
  steps world opts inputUserList fs0 tr (Exited status fs) →
  WriteReport ∈ tr →
  ∃ err,
    writeRecordsToCSV world (outputFile opts) (omap snd (omap resulted tr)) fs0 =
    (err, fs) ∧
    status = (λ e, Fatal "error when writing records to CSV file" [zapError e]) <$> err.
Proof.
  intros Hsteps Hin.
  destruct (steps_exited _ _ _ _ _ _ _ Hsteps)
    as (tr0 & m & ch & closed & ws & ev & -> & Hrun & Hstep).
  pose proof (steps_running_no_write _ _ _ _ _ _ _ _ _ Hrun) as Hno.
  apply elem_of_app in Hin as [Hin|Hin%list_elem_of_singleton]; [done|]. subst ev.
  pose proof (steps_invariant _ _ _ _ _ _ _ _ _ Hrun) as Hinv.
  inversion Hstep as [| | | | | | | |i userList ch' closed' ws' err fs' Hi Hwrite]; subst.
  destruct Hinv as [_ (_ & _ & _ & _ & HuserList) _ _ _ _ _ _].
  rewrite omap_app. cbn [omap list_omap resulted]. rewrite app_nil_r.
  exists err. by rewrite <-HuserList.
Qed.

(** X10.  The output file is created only when all the work is done.
    A run in which the report is written has received a value for every
    user before; it ends with status 0 exactly when
    [writeRecordsToCSV] returns no error, and otherwise with the
    message "error when writing records to CSV file" and the error.
    When the file cannot be created, every run that gets that far ends
    with this message and the error of [os.Create], and no file is
    changed. *)
Theorem write_failure_found_last (world : World) (opts : options)
    (inputUserList : list inputUser) (fs0 : files) (tr : list event)
    (status : option fatal) (fs : files) :
  steps world opts inputUserList fs0 tr (Exited status fs) →
  WriteReport ∈ tr →
  length (omap resulted tr) = length inputUserList ∧
  omap taken tr = inputUserList ∧
  status =
  (λ e, Fatal "error when writing records to CSV file" [zapError e]) <$>
  (writeRecordsToCSV world (outputFile opts) (omap snd (omap resulted tr)) fs0).1 ∧
  ∀ err,
    Create world (outputFile opts) = Some err →
    status = Some (Fatal "error when writing records to CSV file" [zapError err]) ∧
    fs = fs0.
Proof.
  intros Hsteps Hin.
  destruct (steps_write_complete _ _ _ _ _ _ Hsteps Hin)
    as (tr0 & status' & fs' & -> & _ & Hlen & _ & Htaken & _).
  destruct (steps_exited_by_write _ _ _ _ _ _ _ Hsteps Hin) as (err & Hwrite & ->).
  split_and!; [done..|by rewrite Hwrite|].
  intros err' Hcreate. unfold writeRecordsToCSV in Hwrite.
  rewrite Hcreate in Hwrite. by injection Hwrite as <- <-.
Qed.

Lemma readOnlyDir_work :
  steps Cases.readOnlyDir defaultOptions [Sample.alice; Sample.bob] ∅ Cases.work
    (Running (Receiving 2 [Sample.aliceFound]) [] true (replicate 10 AtRange)).
Proof.
  pose (W := Cases.readOnlyDir). pose (O := defaultOptions).
  pose (U := [Sample.alice; Sample.bob]). pose (rest := replicate 9 AtRange).
  pose proof (steps_init W O U ∅) as H.
  pose proof (steps_step _ _ _ _ _ _ _ _ H
    (step_send W O U ∅ 0 Sample.alice [] ([] ++ AtRange :: rest) eq_refl
       ltac:(vm_compute; lia))) as H1.
  pose proof (steps_step _ _ _ _ _ _ _ _ H1
    (step_send W O U ∅ 1 Sample.bob [Sample.alice] ([] ++ AtRange :: rest) eq_refl
       ltac:(vm_compute; lia))) as H2.
  pose proof (steps_step _ _ _ _ _ _ _ _ H2
    (step_close W O U ∅ 2 [Sample.alice; Sample.bob] ([] ++ AtRange :: rest) eq_refl)) as H3.
  pose proof (steps_step _ _ _ _ _ _ _ _ H3
    (step_take W O U ∅ (Receiving 0 []) Sample.alice [Sample.bob] true [] rest)) as H4.
  pose proof (steps_step _ _ _ _ _ _ _ _ H4
    (step_page_break W O U ∅ (Receiving 0 []) [Sample.bob] true [] rest
       Sample.alice [] None [Sample.key "AKIA1"] eq_refl)) as H5.
  pose proof (steps_step _ _ _ _ _ _ _ _ H5
    (step_result W O U ∅ 0 [] [Sample.bob] true [] rest
       Sample.alice (Some Sample.aliceFound) ltac:(vm_compute; lia))) as H6.
  pose proof (steps_step _ _ _ _ _ _ _ _ H6
    (step_take W O U ∅ (Receiving 1 [Sample.aliceFound]) Sample.bob [] true [] rest)) as H7.
  pose proof (steps_step _ _ _ _ _ _ _ _ H7
    (step_page_break W O U ∅ (Receiving 1 [Sample.aliceFound]) [] true [] rest
       Sample.bob [] None [] eq_refl)) as H8.
  pose proof (steps_step _ _ _ _ _ _ _ _ H8
    (step_result W O U ∅ 1 [Sample.aliceFound] [] true [] rest
       Sample.bob None ltac:(vm_compute; lia))) as H9.
  exact H9.
Qed.

Lemma readOnlyDir_exits :
  steps Cases.readOnlyDir defaultOptions [Sample.alice; Sample.bob] ∅
    (Cases.work ++ [WriteReport])
    (Exited (Some (Fatal "error when writing records to CSV file"
                     [("error", "open output.csv: permission denied")])) ∅).
Proof.
  eapply steps_step; [apply readOnlyDir_work|].
  apply (step_write Cases.readOnlyDir defaultOptions [Sample.alice; Sample.bob] ∅
           2 [Sample.aliceFound] [] true (replicate 10 AtRange)
           (Some "open output.csv: permission denied") ∅);
    [vm_compute; lia|reflexivity].
Qed.

Lemma write_failure_found_last_witness :
  length (omap resulted (Cases.work ++ [WriteReport])) =
    length [Sample.alice; Sample.bob] ∧
  omap taken (Cases.work ++ [WriteReport]) = [Sample.alice; Sample.bob] ∧
  Some (Fatal "error when writing records to CSV file"
          [("error", "open output.csv: permission denied")]) =
  (λ e, Fatal "error when writing records to CSV file" [zapError e]) <$>
  (writeRecordsToCSV Cases.readOnlyDir (outputFile defaultOptions)
     (omap snd (omap resulted (Cases.work ++ [WriteReport]))) ∅).1 ∧
  ∀ err,
    Create Cases.readOnlyDir (outputFile defaultOptions) = Some err →
    Some (Fatal "error when writing records to CSV file"
            [("error", "open output.csv: permission denied")]) =
    Some (Fatal "error when writing records to CSV file" [zapError err]) ∧
    (∅ : files) = ∅.
Proof.
  apply (write_failure_found_last Cases.readOnlyDir defaultOptions
           [Sample.alice; Sample.bob] ∅ (Cases.work ++ [WriteReport])).
  - apply readOnlyDir_exits.
  - apply elem_of_app. right. by left.
Defined.

(** * The fields of a row *)

Lemma userRecord_eq (user : outputUser) :
  userRecord user =
  [outAccountId user; outName user] ++ concat (keyFields <$> accessKeys user).
Proof. unfold userRecord. by rewrite userRecord_fold. Qed.

Lemma length_keyFields (keys : list accessKey) :
  length (concat (keyFields <$> keys)) = 2 * length keys.
Proof. induction keys as [|key keys IH]; cbn in *; lia. Qed.

Lemma keyFields_inj (keys1 keys2 : list accessKey) :
  concat (keyFields <$> keys1) = concat (keyFields <$> keys2) → keys1 = keys2.
Proof.
  revert keys2. induction keys1 as [|[id1 date1] keys1 IH]; intros [|[id2 date2] keys2];
    cbn; try done.
  intros [= -> -> H]. f_equal. by apply IH.
Qed.

(** X11.  The record written for a user is the account identifier,
    the user name, and then the identifier and the creation date of
    each key in turn: 2 + 2k fields for k keys, the key with index i at
    the fields 2 + 2i and 3 + 2i.  Nothing is lost: users with the same
    record are the same. *)
Theorem user_record_layout (user : outputUser) :
  userRecord user !! 0 = Some (outAccountId user) ∧
  userRecord user !! 1 = Some (outName user) ∧
  length (userRecord user) = 2 + 2 * length (accessKeys user) ∧
  (∀ i key,
     accessKeys user !! i = Some key →
     userRecord user !! (2 + 2 * i) = Some (keyId key) ∧
     userRecord user !! (3 + 2 * i) = Some (createdDate key)) ∧
  (∀ user', userRecord user = userRecord user' → user = user').
Proof.
  rewrite userRecord_eq. split_and!; [done..| | |].
  - cbn [app length]. by rewrite length_keyFields.
  - intros i key. cbn [app]. change (2 + 2 * i) with (S (S (2 * i))).
    change (3 + 2 * i) with (S (S (S (2 * i)))). cbn [lookup list_lookup].
    generalize (accessKeys user). clear user.
    induction i as [|i IH]; intros [|key' keys]; try done.
    + by intros [= ->].
    + intros Hkey. replace (2 * S i) with (S (S (2 * i))) by lia.
      cbn [fmap list_fmap concat keyFields app lookup list_lookup].
      by apply IH.
  - intros user'. rewrite userRecord_eq. intros [= Hid Hname Hkeys].
    apply keyFields_inj in Hkeys. destruct user, user'. cbn in *. by subst.
Qed.

(** * What the report says was said by the services *)

Lemma listAccessKeysLoop_provenance world fuel x keys0 marker log keys log' ak :
  listAccessKeysLoop world fuel x keys0 marker log = (Ok keys, log') →
  ak ∈ keys →
  ak ∈ keys0 ∨
  ∃ marker' out,
    ListAccessKeys world (iamClient x) (name x) marker' = inr out ∧
    ak ∈ iam.AccessKeyMetadataList out.
Proof.
  revert keys0 marker log. induction fuel as [|fuel IH]; intros keys0 marker log; [done|].
  rewrite listAccessKeysLoop_S. cbn zeta. unfold listKeys.
  destruct (ListAccessKeys world (iamClient x) (name x) marker) as [err|out] eqn:Hout;
    [done|].
  rewrite keyPage_items.
  destruct (iam.AccessKeyMetadataList out) as [|ak' page] eqn:Hpage.
  { intros [= <- _]. by left. }
  assert (ak ∈ keys0 ++ ak' :: page →
          ak ∈ keys0 ∨
          ∃ marker' out',
            ListAccessKeys world (iamClient x) (name x) marker' = inr out' ∧
            ak ∈ iam.AccessKeyMetadataList out') as Hhere.
  { intros [?|Hak]%elem_of_app; [by left|]. right. exists marker, out.
    by rewrite Hpage. }
  destruct (iam.keysIsTruncated out).
  - intros Hloop Hak. destruct (IH _ _ _ Hloop Hak) as [?|?]; [by apply Hhere|by right].
  - intros [= <- _]. apply Hhere.
Qed.

Lemma finished_found world x user :
  finished world x (Some user) →
  ∃ keys,
    keys ≠ [] ∧ userRecord user = rowOf x keys ∧
    ∀ ak, ak ∈ keys →
      ∃ marker out,
        ListAccessKeys world (iamClient x) (name x) marker = inr out ∧
        ak ∈ iam.AccessKeyMetadataList out.
Proof.
  intros (fuel & calls & Hrun). rewrite processUser_eq in Hrun.
  destruct (listAccessKeysLoop world fuel x [] None []) as [[keys|f| |] log'] eqn:Hloop;
    try done.
  injection Hrun as Huser _. exists keys.
  destruct keys as [|ak0 keys0]; [done|]. split; [done|]. split.
  - destruct (workerResult_row x (ak0 :: keys0)) as (user' & Huser' & Hrow); [done|].
    rewrite Huser in Huser'. by injection Huser' as <-.
  - intros ak Hak.
    destruct (listAccessKeysLoop_provenance _ _ _ _ _ _ _ _ _ Hloop Hak) as [Hnil|?];
      [by apply elem_of_nil in Hnil|done].
Qed.

Lemma steps_rows_sound world opts inputUserList fs0 tr fs rows row :
  steps world opts inputUserList fs0 tr (Exited None fs) →
  fs !! outputFile opts = Some rows →
  row ∈ rows →
  ∃ x keys,
    x ∈ inputUserList ∧ keys ≠ [] ∧ row = rowOf x keys ∧
    ∀ ak, ak ∈ keys →
      ∃ marker out,
        ListAccessKeys world (iamClient x) (name x) marker = inr out ∧
        ak ∈ iam.AccessKeyMetadataList out.
Proof.
  intros Hsteps Hrows Hrow.
  destruct (steps_exit_ok _ _ _ _ _ _ Hsteps)
    as (tr0 & -> & Hperm & Hfin & _ & _ & ->).
  rewrite lookup_insert_eq in Hrows. injection Hrows as <-.
  apply list_elem_of_fmap in Hrow as (user & -> & Huser).
  apply list_elem_of_omap in Huser as ([x o] & Hxu & Ho). cbn in Ho. subst o.
  rewrite Forall_forall in Hfin. pose proof (Hfin _ Hxu) as Hfinished.
  destruct (finished_found _ _ _ Hfinished) as (keys & Hne & Hrec & Hkeys).
  exists x, keys. split_and!; [|done..].
  rewrite <-Hperm. apply list_elem_of_fmap. by exists (x, Some user).
Qed.

(** X12.  The report holds nothing that the services did not say:
    every row of the report of a run that ended with status 0 is the
    row of an enumerated user with at least one key, and each of its
    keys was in an answer of ListAccessKeys, asked with the client and
    for the name of this user. *)
Theorem report_rows_sound (world : World) (opts : options)
    (inputUserList : list inputUser) (fs0 : files) (tr : list event) (fs : files)
    (rows : list (list string)) (row : list string) :
  steps world opts inputUserList fs0 tr (Exited None fs) →
  fs !! outputFile opts = Some rows →
  row ∈ rows →
  ∃ x keys,
    x ∈ inputUserList ∧ keys ≠ [] ∧ row = rowOf x keys ∧
    ∀ ak, ak ∈ keys →
      ∃ marker out,
        ListAccessKeys world (iamClient x) (name x) marker = inr out ∧
        ak ∈ iam.AccessKeyMetadataList out.
Proof. apply steps_rows_sound. Qed.

Lemma report_rows_sound_witness :
  ∃ x keys,
    x ∈ [Sample.alice; Sample.bob] ∧ keys ≠ [] ∧
    ["111111111111"; "alice"; "AKIA1"; "2024-01-01T00:00:00+00:00"] = rowOf x keys ∧
    ∀ ak, ak ∈ keys →
      ∃ marker out,
        ListAccessKeys Sample.scenario (iamClient x) (name x) marker = inr out ∧
        ak ∈ iam.AccessKeyMetadataList out.
Proof.
  apply (report_rows_sound Sample.scenario defaultOptions [Sample.alice; Sample.bob] ∅
           Sample.interleaved Sample.report
           [["111111111111"; "alice"; "AKIA1"; "2024-01-01T00:00:00+00:00"]]).
  - apply scenario_interleaved.
  - reflexivity.
  - by left.
Defined.

Lemma length_rowOf x keys : length (rowOf x keys) = 2 + 2 * length keys.
Proof.
  unfold rowOf. cbn [app length]. f_equal. f_equal.
  induction keys as [|ak keys IH]; cbn in *; lia.
Qed.

(** X13.  From the account list to the report: every row of the
    report of a run of the program that ended with status 0 begins with
    the 12-byte account identifier of a record of the account list and
    with a user name that ListUsers returned to the client made for
    the role of this record; at least one pair of fields follows, and
    the fields that follow come in pairs. *)
Theorem report_row_provenance (world : World) (opts : options) (fuel : nat)
    (fs0 : files) (calls : list remoteCall) (tr : list event) (fs : files)
    (rows : list (list string)) (row : list string) :
  mainRuns world opts fuel fs0 calls tr (Exited None fs) →
  fs !! outputFile opts = Some rows →
  row ∈ rows →
  ∃ records id role userName fields svc marker out,
    getAccountRoleListFromCSV (Open world) (accountListFile opts) = inr records ∧
    [id; role] ∈ records ∧
    String.length id = 12 ∧
    row = id :: userName :: fields ∧
    2 ≤ length fields ∧ Nat.Even (length fields) ∧
    AssumeRole world ("arn:aws:iam::" +:+ id +:+ ":role/" +:+ role) = inr svc ∧
    ListUsers world svc marker = inr out ∧
    {| iam.UserName := userName |} ∈ iam.Users out.
Proof.
  intros Hmain Hrows Hrow.
  inversion Hmain as [|inputUserList calls' tr' s' Henum Hsteps]; subst.
  destruct (steps_rows_sound _ _ _ _ _ _ _ _ Hsteps Hrows Hrow)
    as (x & keys & Hx & Hne & -> & _).
  destruct (enumerateUsers_provenance _ _ _ _ _ _ Henum Hx)
    as (records & id & role & marker & out & Hget & Hrec & Hlen & Hid & Hrole & Hout
        & Huser & _).
  exists records, id, role, (name x),
    (concat ((λ ak, [iam.AccessKeyId ak; time.Format (iam.CreateDate ak) keyLayout])
               <$> keys)),
    (iamClient x), marker, out.
  pose proof (length_rowOf x keys) as Hrowlen. unfold rowOf in Hrowlen.
  cbn [app length] in Hrowlen.
  split_and!; try done.
  - unfold rowOf. by rewrite Hid.
  - destruct keys; [done|]. cbn [length] in *. lia.
  - exists (length keys). lia.
Qed.

Lemma report_row_provenance_witness :
  ∃ records id role userName fields svc marker out,
    getAccountRoleListFromCSV (Open Sample.scenario) (accountListFile defaultOptions) =
      inr records ∧
    [id; role] ∈ records ∧
    String.length id = 12 ∧
    ["111111111111"; "alice"; "AKIA1"; "2024-01-01T00:00:00+00:00"] =
      id :: userName :: fields ∧
    2 ≤ length fields ∧ Nat.Even (length fields) ∧
    AssumeRole Sample.scenario ("arn:aws:iam::" +:+ id +:+ ":role/" +:+ role) = inr svc ∧
    ListUsers Sample.scenario svc marker = inr out ∧
    {| iam.UserName := userName |} ∈ iam.Users out.
Proof.
  apply (report_row_provenance Sample.scenario defaultOptions 1 ∅
           [CallAssumeRole "arn:aws:iam::111111111111:role/ReadOnly";
            CallListUsers Sample.creds None]
           Sample.trace Sample.report
           [["111111111111"; "alice"; "AKIA1"; "2024-01-01T00:00:00+00:00"]]).
  - apply scenario_runs.
  - reflexivity.
  - by left.
Defined.

(** * A pool without workers *)

Section NoWorker.

Context (world : World) (opts : options).
Context (inputUserList : list inputUser) (fs0 : files).
Hypothesis no_worker : (numOfWorker opts ≤ 0)%Z.
Hypothesis some_user : inputUserList ≠ [].

Lemma no_worker_init : init opts = Running (Sending 0) [] false [].
Proof. unfold init. by replace (Z.to_nat (numOfWorker opts)) with 0 by lia. Qed.

Lemma no_worker_receiving_stuck :
  stuck world opts inputUserList fs0 (Running (Receiving 0 []) inputUserList true []).
Proof.
  intros ev s' Hstep.
  inversion Hstep as
    [| |? ? ? ? l1 l2 Hws|? l1 l2 Hws|? ? ? l1 l2 ? ? ? ? ? ? Hws
     |? ? ? l1 l2 ? ? ? ? ? Hws|? ? ? l1 l2 ? ? ? ? ? Hws
     |? ? ? ? l1 l2 ? ? ? Hws|? ? ? ? ? ? ? Hi]; subst;
    try (by destruct l1).
  apply Hi. unfold numberOfUsers. destruct inputUserList; [done|cbn; lia].
Qed.

Lemma no_worker_steps tr s :
  steps world opts inputUserList fs0 tr s →
  (∃ i, i ≤ length inputUserList ∧ tr = Send <$> take i inputUserList ∧
        s = Running (Sending i) (take i inputUserList) false []) ∨
  (tr = (Send <$> inputUserList) ++ [Close] ∧
   s = Running (Receiving 0 []) inputUserList true []).
Proof.
  induction 1 as [|tr s ev s' Hsteps IH Hstep].
  - left. exists 0. rewrite no_worker_init. split_and!; [lia|done..].
  - destruct IH as [(i & Hi & -> & ->)|[-> ->]].
    + inversion Hstep as
        [? x ? ? Hx Hlen| ? ? ? Hx|? ? ? ? l1 l2 Hws|? l1 l2 Hws
         |? ? ? l1 l2 ? ? ? ? ? ? Hws|? ? ? l1 l2 ? ? ? ? ? Hws
         |? ? ? l1 l2 ? ? ? ? ? Hws| |]; subst; try (by destruct l1).
      * left. exists (S i). apply lookup_lt_Some in Hx as Hlt.
        rewrite (take_S_r _ _ _ Hx), fmap_app. split_and!; [lia|done..].
      * right. apply lookup_ge_None in Hx. by rewrite take_ge by lia.
    + by apply no_worker_receiving_stuck in Hstep.
Qed.

Lemma no_worker_sends i :
  i ≤ length inputUserList →
  steps world opts inputUserList fs0 (Send <$> take i inputUserList)
    (Running (Sending i) (take i inputUserList) false []).
Proof.
  induction i as [|i IH]; intros Hi.
  - rewrite take_0, <-no_worker_init. constructor.
  - destruct (lookup_lt_is_Some_2 inputUserList i) as [x Hx]; [lia|].
    rewrite (take_S_r _ _ _ Hx), fmap_app. eapply steps_step; [apply IH; lia|].
    apply step_send; [done|]. rewrite length_take. unfold numberOfUsers. lia.
Qed.

End NoWorker.

(** X14.  With [-workers 0], or a negative number, and at least one
    user, the program never gets to its end: [main] sends every user,
    closes the channel and then waits for a result that nobody will
    send.  In every run nothing happens but these sends and the close:
    no ListAccessKeys call is made, none of the exits of the program is
    reached and no report is written.  (What the Go runtime does with a
    process in which no goroutine can move is not part of the
    program.) *)
Theorem no_worker_no_report (world : World) (opts : options)
    (inputUserList : list inputUser) (fs0 : files) :
  (numOfWorker opts ≤ 0)%Z →
  inputUserList ≠ [] →
  (∀ tr s,
     steps world opts inputUserList fs0 tr s →
     tr `prefix_of` (Send <$> inputUserList) ++ [Close] ∧
     ∃ m ch closed, s = Running m ch closed []) ∧
  steps world opts inputUserList fs0 ((Send <$> inputUserList) ++ [Close])
    (Running (Receiving 0 []) inputUserList true []) ∧
  stuck world opts inputUserList fs0 (Running (Receiving 0 []) inputUserList true []).
Proof.
  intros HW Hne. split_and!.
  - intros tr s Hsteps.
    destruct (no_worker_steps _ _ _ _ HW Hne _ _ Hsteps) as [(i & Hi & -> & ->)|[-> ->]].
    + split; [|by eauto]. apply prefix_app_r.
      rewrite <-(take_drop i inputUserList) at 2. rewrite fmap_app.
      by apply prefix_app_r.
    + split; [done|by eauto].
  - pose proof (no_worker_sends world opts inputUserList fs0 HW (length inputUserList))
      as Hsent.
    rewrite take_ge in Hsent by lia. eapply steps_step; [by apply Hsent|].
    apply step_close. by apply lookup_ge_None.
  - by apply no_worker_receiving_stuck.
Qed.

Lemma no_worker_no_report_witness :
  (∀ tr s,
     steps Sample.scenario Cases.noWorker [Sample.alice; Sample.bob] ∅ tr s →
     tr `prefix_of` (Send <$> [Sample.alice; Sample.bob]) ++ [Close] ∧
     ∃ m ch closed, s = Running m ch closed []) ∧
  steps Sample.scenario Cases.noWorker [Sample.alice; Sample.bob] ∅
    ((Send <$> [Sample.alice; Sample.bob]) ++ [Close])
    (Running (Receiving 0 []) [Sample.alice; Sample.bob] true []) ∧
  stuck Sample.scenario Cases.noWorker [Sample.alice; Sample.bob] ∅
    (Running (Receiving 0 []) [Sample.alice; Sample.bob] true []).
Proof.
  apply (no_worker_no_report Sample.scenario Cases.noWorker [Sample.alice; Sample.bob] ∅).
  - cbn. lia.
  - discriminate.
Defined.

(** * The input channel *)

(** X15.  The input channel is made as large as the list of users, so
    [main] never waits while it fills it: at every moment of every run,
    with any number of workers, the channel holds no more users than
    were sent and no more than its capacity, and as long as [main] has
    not closed the channel its next send, or the close, can be done at
    once. *)
Theorem sends_never_block (world : World) (opts : options)
    (inputUserList : list inputUser) (fs0 : files) (tr : list event)
    (m : mainPc) (ch : list inputUser) (closed : bool) (ws : list workerPc) :
  steps world opts inputUserList fs0 tr (Running m ch closed ws) →
  length ch ≤ length (omap sent tr) ∧
  length ch ≤ length inputUserList ∧
  ∀ i, m = Sending i →
    closed = false ∧
    ∃ ev s',
      step world opts inputUserList fs0 (Running m ch closed ws) ev s' ∧
      fills ev = true.
Proof.
  intros Hsteps. apply steps_invariant in Hsteps as Hinv.
  pose proof (invariant_sent_le _ _ _ _ _ _ _ _ Hinv) as Hle.
  pose proof (inv_chan _ _ _ _ _ _ _ _ Hinv) as Hchan.
  assert (length ch ≤ length (omap sent tr)) as Hch.
  { rewrite Hchan, length_app. lia. }
  unfold numberOfUsers in Hle. split_and!; [done|lia|].
  intros i ->. destruct (inv_main _ _ _ _ _ _ _ _ Hinv) as (-> & Hsent & _).
  split; [done|].
  destruct (inputUserList !! i) as [x|] eqn:Hx.
  - exists (Send x), (Running (Sending (S i)) (ch ++ [x]) false ws). split; [|done].
    apply step_send; [done|]. apply lookup_lt_Some in Hx.
    rewrite Hsent, length_take in Hch. unfold numberOfUsers. lia.
  - exists Close, (Running (Receiving 0 []) ch true ws). split; [|done].
    by apply step_close.
Qed.

Lemma scenario_filling :
  steps Sample.scenario defaultOptions [Sample.alice; Sample.bob] ∅
    [Send Sample.alice; Take 0 Sample.alice; Send Sample.bob]
    (Running (Sending 2) [Sample.bob] false
             (Listing Sample.alice [] None :: replicate 9 AtRange)).
Proof.
  pose (W := Sample.scenario). pose (O := defaultOptions).
  pose (U := [Sample.alice; Sample.bob]). pose (rest := replicate 9 AtRange).
  pose proof (steps_init W O U ∅) as H.
  pose proof (steps_step _ _ _ _ _ _ _ _ H
    (step_send W O U ∅ 0 Sample.alice [] ([] ++ AtRange :: rest) eq_refl
       ltac:(vm_compute; lia))) as H1.
  pose proof (steps_step _ _ _ _ _ _ _ _ H1
    (step_take W O U ∅ (Sending 1) Sample.alice [] false [] rest)) as H2.
  pose proof (steps_step _ _ _ _ _ _ _ _ H2
    (step_send W O U ∅ 1 Sample.bob [] (Listing Sample.alice [] None :: rest) eq_refl
       ltac:(vm_compute; lia))) as H3.
  exact H3.
Qed.

Lemma sends_never_block_witness :
  length [Sample.bob] ≤
    length (omap sent [Send Sample.alice; Take 0 Sample.alice; Send Sample.bob]) ∧
  length [Sample.bob] ≤ length [Sample.alice; Sample.bob] ∧
  ∀ i, Sending 2 = Sending i →
    false = false ∧
    ∃ ev s',
      step Sample.scenario defaultOptions [Sample.alice; Sample.bob] ∅
        (Running (Sending 2) [Sample.bob] false
                 (Listing Sample.alice [] None :: replicate 9 AtRange)) ev s' ∧
      fills ev = true.
Proof.
  apply (sends_never_block Sample.scenario defaultOptions [Sample.alice; Sample.bob] ∅
           [Send Sample.alice; Take 0 Sample.alice; Send Sample.bob]).
  apply scenario_filling.
Defined.

(** * One worker *)

Section WorkerIds.

Context (world : World) (opts : options).
Context (inputUserList : list inputUser) (fs0 : files).

(** The workers that occur in a run are workers of the pool. *)
Lemma steps_worker_ids tr s :
  steps world opts inputUserList fs0 tr s →
  Forall (λ id, id < Z.to_nat (numOfWorker opts)) (omap workerOf tr).
Proof.
  induction 1 as [|tr s ev s' Hsteps IH Hstep]; [done|].
  rewrite omap_app. apply Forall_app. split; [done|].
  destruct s as [m ch closed ws|]; [|inversion Hstep].
  pose proof (inv_workers _ _ _ _ _ _ _ _ (steps_invariant _ _ _ _ _ _ _ _ _ Hsteps))
    as Hws.
  inversion Hstep; subst; cbn; try done;
    repeat constructor; rewrite <-Hws, length_app; cbn; lia.
Qed.

End WorkerIds.

Lemma single_worker_takes (tr : list event) :
  Forall (λ id, id < 1) (omap workerOf tr) →
  omap (takenBy 0) tr = omap taken tr ∧
  omap (resultedBy 0) tr = (omap resulted tr).*1.
Proof.
  induction tr as [|ev tr IH]; [done|].
  destruct ev as [x| |id x|id x marker|id x user|id|]; cbn;
    try (intros [Hid [Htaken Hres]%IH]%Forall_cons);
    try (intros [Htaken Hres]%IH); try done.
  - replace id with 0 by lia. cbn. by rewrite Htaken.
  - replace id with 0 by lia. cbn. by rewrite Hres.
Qed.

Lemma results_outcomes world fuel (res : list (inputUser * option outputUser)) :
  Forall (λ xu, finished world xu.1 xu.2) res →
  Forall (λ x, halts world fuel x [] None) res.*1 →
  omap snd res = omap (userOutcome world fuel) res.*1.
Proof.
  induction 1 as [|[x user] res Hfin _ IH]; [done|].
  cbn. intros [Hx Hres]%Forall_cons. cbn in Hfin.
  rewrite (finished_userOutcome _ _ _ _ Hfin Hx), IH by done. done.
Qed.

(** X16.  With [-workers 1] the results reach [main] in the order in
    which the users were enumerated: at every moment of every run the
    users answered so far are the first users of the list, in this
    order, and the rows of the report of a run that ended with status 0
    follow the order of the list. *)
Theorem single_worker_keeps_order (world : World) (opts : options)
    (inputUserList : list inputUser) (fs0 : files) (fuel : nat) :
  numOfWorker opts = 1%Z →
  (∀ tr s,
     steps world opts inputUserList fs0 tr s →
     (omap resulted tr).*1 `prefix_of` inputUserList) ∧
  (Forall (λ x, halts world fuel x [] None) inputUserList →
   ∀ tr fs,
     steps world opts inputUserList fs0 tr (Exited None fs) →
     (omap resulted tr).*1 = inputUserList ∧
     fs = <[outputFile opts := userRecord <$> omap (userOutcome world fuel) inputUserList]>
            fs0).
Proof.
  intros HW.
  assert (∀ tr s,
            steps world opts inputUserList fs0 tr s →
            (omap resulted tr).*1 `prefix_of` inputUserList) as Hprefix.
  { intros tr s Hsteps.
    pose proof (steps_worker_ids _ _ _ _ _ _ Hsteps) as Hids.
    rewrite HW in Hids. apply single_worker_takes in Hids as [Htaken Hres].
    destruct (steps_accounted _ _ _ _ _ _ Hsteps) as (Hsent & Htake & _ & Heach).
    destruct (Heach 0) as [cur Hcur].
    rewrite <-Hres. etrans; [|exact Hsent]. etrans; [|exact Htake].
    rewrite <-Htaken, Hcur. by apply prefix_app_r. }
  split; [done|].
  intros Hhalts tr fs Hsteps.
  pose proof (Hprefix _ _ Hsteps) as Hpre.
  destruct (steps_exit_ok _ _ _ _ _ _ Hsteps)
    as (tr0 & -> & Hperm & Hfin & _ & _ & ->).
  rewrite omap_app in Hpre |- *. cbn [omap list_omap resulted] in Hpre |- *.
  rewrite app_nil_r in Hpre |- *.
  assert ((omap resulted tr0).*1 = inputUserList) as Heq.
  { apply prefix_length_eq; [done|]. by rewrite Hperm. }
  split; [done|].
  rewrite (results_outcomes world fuel _ Hfin) by by rewrite Heq.
  by rewrite Heq.
Qed.

Lemma scenario_one_worker :
  steps Sample.scenario Cases.oneWorker [Sample.alice; Sample.bob] ∅
        Sample.trace (Exited None Sample.report).
Proof.
  pose (W := Sample.scenario). pose (O := Cases.oneWorker).
  pose (U := [Sample.alice; Sample.bob]). pose (rest := @nil workerPc).
  pose proof (steps_init W O U ∅) as H.
  pose proof (steps_step _ _ _ _ _ _ _ _ H
    (step_send W O U ∅ 0 Sample.alice [] ([] ++ AtRange :: rest) eq_refl
       ltac:(vm_compute; lia))) as H1.
  pose proof (steps_step _ _ _ _ _ _ _ _ H1
    (step_send W O U ∅ 1 Sample.bob [Sample.alice] ([] ++ AtRange :: rest) eq_refl
       ltac:(vm_compute; lia))) as H2.
  pose proof (steps_step _ _ _ _ _ _ _ _ H2
    (step_close W O U ∅ 2 [Sample.alice; Sample.bob] ([] ++ AtRange :: rest) eq_refl)) as H3.
  pose proof (steps_step _ _ _ _ _ _ _ _ H3
    (step_take W O U ∅ (Receiving 0 []) Sample.alice [Sample.bob] true [] rest)) as H4.
  pose proof (steps_step _ _ _ _ _ _ _ _ H4
    (step_page_break W O U ∅ (Receiving 0 []) [Sample.bob] true [] rest
       Sample.alice [] None [Sample.key "AKIA1"] eq_refl)) as H5.
  pose proof (steps_step _ _ _ _ _ _ _ _ H5
    (step_result W O U ∅ 0 [] [Sample.bob] true [] rest
       Sample.alice (Some Sample.aliceFound) ltac:(vm_compute; lia))) as H6.
  pose proof (steps_step _ _ _ _ _ _ _ _ H6
    (step_take W O U ∅ (Receiving 1 [Sample.aliceFound]) Sample.bob [] true [] rest)) as H7.
  pose proof (steps_step _ _ _ _ _ _ _ _ H7
    (step_page_break W O U ∅ (Receiving 1 [Sample.aliceFound]) [] true [] rest
       Sample.bob [] None [] eq_refl)) as H8.
  pose proof (steps_step _ _ _ _ _ _ _ _ H8
    (step_result W O U ∅ 1 [Sample.aliceFound] [] true [] rest
       Sample.bob None ltac:(vm_compute; lia))) as H9.
  pose proof (steps_step _ _ _ _ _ _ _ _ H9
    (step_write W O U ∅ 2 [Sample.aliceFound] [] true ([] ++ AtRange :: rest)
       None Sample.report ltac:(vm_compute; lia) eq_refl)) as H10.
  exact H10.
Qed.

Lemma single_worker_keeps_order_witness :
  (omap resulted Sample.trace).*1 = [Sample.alice; Sample.bob] ∧
  Sample.report =
  <[outputFile Cases.oneWorker :=
      userRecord <$> omap (userOutcome Sample.scenario 1) [Sample.alice; Sample.bob]]> ∅.
Proof.
  destruct (single_worker_keeps_order Sample.scenario Cases.oneWorker
              [Sample.alice; Sample.bob] ∅ 1) as [_ Hexit].
  - reflexivity.
  - apply Hexit.
    + repeat constructor; by vm_compute.
    + apply scenario_one_worker.
Defined.

(** * The number of ListAccessKeys calls *)

Lemma halts_last world fuel x keys marker :
  halts world fuel x keys marker →
  (∀ keys' marker', keyPage keys (listKeys world x marker) ≠ NextPage keys' marker') →
  callsLeft world fuel x keys marker = 1.
Proof.
  unfold halts, callsLeft. destruct fuel as [|fuel']; [done|]. intros _ Hlast.
  rewrite listAccessKeysLoop_S. cbn zeta.
  destruct (keyPage _ _) as [keys' marker'| |]; [by destruct (Hlast keys' marker')|done..].
Qed.

Section PoolCalls2.

Context (world : World) (opts : options).
Context (inputUserList : list inputUser) (fs0 : files).
Context (fuel : nat).
Hypothesis users_halt : Forall (λ x, halts world fuel x [] None) inputUserList.

Lemma pending_middle_calls l1 w l2 :
  sum_list (pendingCalls world fuel <$> l1 ++ w :: l2) =
  sum_list (pendingCalls world fuel <$> l1) + pendingCalls world fuel w +
  sum_list (pendingCalls world fuel <$> l2).
Proof. rewrite fmap_app, sum_list_append. cbn. lia. Qed.

Lemma keyCallsOf_app users1 users2 :
  keyCallsOf world fuel (users1 ++ users2) =
  keyCallsOf world fuel users1 + keyCallsOf world fuel users2.
Proof. unfold keyCallsOf. by rewrite fmap_app, sum_list_append. Qed.

(** A step makes a call exactly when one call less is ahead. *)
Lemma step_calls m ch closed ws ev s' :
  Forall (workerHalts world fuel) ws →
  step world opts inputUserList fs0 (Running m ch closed ws) ev s' →
  match s' with
  | Running _ _ _ _ =>
      length (option_list (keyCall ev)) + callsAhead world fuel inputUserList s' =
      callsAhead world fuel inputUserList (Running m ch closed ws)
  | Exited _ _ =>
      length (option_list (keyCall ev)) ≤
      callsAhead world fuel inputUserList (Running m ch closed ws)
  end.
Proof.
  intros Hws Hstep. inversion Hstep; subst; clear Hstep;
    cbn [callsAhead keyCall option_list length].
  - (* send *)
    erewrite (drop_S _ _ i) by done. rewrite keyCallsOf_app.
    unfold keyCallsOf at 1 4. cbn. lia.
  - (* close *)
    rewrite drop_ge; [done|]. by apply lookup_ge_None.
  - (* take *)
    rewrite !pending_middle_calls. unfold keyCallsOf. cbn. lia.
  - (* return *)
    rewrite !pending_middle_calls. cbn. lia.
  - (* next page *)
    rewrite !pending_middle_calls. cbn.
    revert Hws. rewrite !Forall_app, !Forall_cons. intros (_ & Hx & _).
    match goal with Hk : keyPage _ _ = NextPage _ _ |- _ =>
      destruct (halts_next _ _ _ _ _ _ _ Hx Hk) as [_ Hcalls] end.
    lia.
  - (* last page *)
    rewrite !pending_middle_calls. cbn.
    revert Hws. rewrite !Forall_app, !Forall_cons. intros (_ & Hx & _).
    rewrite (halts_last _ _ _ _ _ Hx); [lia|].
    match goal with Hk : keyPage _ _ = Break _ |- _ => rewrite Hk end. done.
  - (* fatal *)
    rewrite !pending_middle_calls. cbn.
    revert Hws. rewrite !Forall_app, !Forall_cons. intros (_ & Hx & _).
    apply halts_pos in Hx. lia.
  - (* result *)
    rewrite !pending_middle_calls. cbn. lia.
  - (* write *)
    cbn. lia.
Qed.

Lemma steps_calls tr s :
  steps world opts inputUserList fs0 tr s →
  match s with
  | Running _ _ _ _ =>
      length (omap keyCall tr) + callsAhead world fuel inputUserList s =
      keyCallsOf world fuel inputUserList
  | Exited _ _ => length (omap keyCall tr) ≤ keyCallsOf world fuel inputUserList
  end.
Proof.
  induction 1 as [|tr s ev s' Hsteps IH Hstep].
  - cbn. rewrite drop_0.
    assert (sum_list (pendingCalls world fuel <$>
                      replicate (Z.to_nat (numOfWorker opts)) AtRange) = 0) as Hz.
    { induction (Z.to_nat (numOfWorker opts)); [done|]. done. }
    rewrite Hz. unfold keyCallsOf. cbn. lia.
  - destruct s as [m ch closed ws|]; [|inversion Hstep].
    destruct (steps_cost world opts inputUserList fs0 fuel users_halt _ _ Hsteps)
      as [_ [Hws _]].
    pose proof (step_calls _ _ _ _ _ _ Hws Hstep) as Hone.
    rewrite omap_app, length_app.
    assert (length (omap keyCall [ev]) = length (option_list (keyCall ev))) as ->.
    { cbn. by destruct (keyCall ev). }
    destruct s'; lia.
Qed.

Lemma held_nil_pending ws :
  omap held ws = [] → sum_list (pendingCalls world fuel <$> ws) = 0.
Proof.
  induction ws as [|w ws IH]; [done|]. destruct w; cbn; try done.
Qed.

End PoolCalls2.

(** X17. Whatever the schedule and the number of workers, a run makes
    no more ListAccessKeys calls than the key listings of the users make
    when each is run on its own, and a run that reaches the writing of
    the report makes exactly that many. *)
Theorem key_calls_schedule_independent (world : World) (opts : options)
    (inputUserList : list inputUser) (fs0 : files) (fuel : nat) :
  Forall (λ x, halts world fuel x [] None) inputUserList →
  ∀ tr s, steps world opts inputUserList fs0 tr s →
    length (omap keyCall tr) ≤ keyCallsOf world fuel inputUserList ∧
    (WriteReport ∈ tr →
     length (omap keyCall tr) = keyCallsOf world fuel inputUserList).
Proof.
  intros Hh tr s Hsteps. split.
  - pose proof (steps_calls world opts inputUserList fs0 fuel Hh _ _ Hsteps) as Hc.
    destruct s; lia.
  - intros Hw. destruct s as [m ch closed ws|status fs].
    { by destruct (steps_running_no_write _ _ _ _ _ _ _ _ _ Hsteps). }
    apply steps_exited in Hsteps as (tr0 & m & ch & closed & ws & ev & -> & Hsteps & Hstep).
    pose proof (steps_calls world opts inputUserList fs0 fuel Hh _ _ Hsteps) as Hc.
    apply steps_invariant in Hsteps as Hinv.
    assert (ev = WriteReport) as ->.
    { apply elem_of_app in Hw as [Hw|Hw].
      - by destruct (steps_running_no_write _ _ _ _ _ _ _ _ _ Hsteps).
      - by apply list_elem_of_singleton in Hw. }
    inversion Hstep as [| | | | | | | |i userList ch' closed' ws' err fs' Hi Hwr]; subst.
    destruct (invariant_complete _ _ _ _ _ _ _ _ _ Hinv Hi) as (_ & -> & Hheld & _).
    cbn [callsAhead] in Hc. rewrite held_nil_pending in Hc by done.
    rewrite omap_app, length_app. cbn. unfold keyCallsOf at 1 in Hc. cbn in Hc. lia.
Qed.

Lemma key_calls_schedule_independent_witness :
  length (omap keyCall Sample.interleaved) ≤
    keyCallsOf Sample.scenario 1 [Sample.alice; Sample.bob] ∧
  (WriteReport ∈ Sample.interleaved →
   length (omap keyCall Sample.interleaved) =
     keyCallsOf Sample.scenario 1 [Sample.alice; Sample.bob]).
Proof.
  exact (key_calls_schedule_independent Sample.scenario defaultOptions
           [Sample.alice; Sample.bob] ∅ 1 scenario_halts
           Sample.interleaved _ scenario_interleaved).
Defined.

(** * Panics of the enumeration *)

Lemma wire_listUsersLoop_S svc fuel client accountId marker users log :
  wire.listUsersLoop svc (S fuel) client accountId marker users log =
  let log' := log ++ [CallListUsers client marker] in
  match wire.ListUsers svc client marker with
  | inl err => (Exit (Fatal "error when listing user" [zapError err]), log')
  | inr out =>
      match mapM (wire.newInputUser client accountId) (wire.Users out) with
      | None => (Panic, log')
      | Some appended =>
          if wire.IsTruncated out
          then wire.listUsersLoop svc fuel client accountId (wire.Marker out)
                 (users ++ appended) log'
          else (Ok (users ++ appended), log')
      end
  end.
Proof.
  cbn [wire.listUsersLoop]. rewrite remote_bind.
  destruct (wire.ListUsers svc client marker) as [err|out]; [done|].
  unfold wire.deref, indexed, mbind at 1, Run_bind.
  destruct (mapM _ _) as [appended|]; [|done]. cbn.
  by destruct (wire.IsTruncated out).
Qed.

Lemma wire_enumerateAccount_eq svc fuel accountId roleName rest users log :
  wire.enumerateAccount svc fuel (accountId :: roleName :: rest) users log =
  let roleARN := "arn:aws:iam::" +:+ accountId +:+ ":role/" +:+ roleName in
  let log' := log ++ [CallAssumeRole roleARN] in
  match wire.AssumeRole svc roleARN with
  | inl err =>
      (Exit (Fatal "error when doing assume role" [("role_arn", roleARN); zapError err]),
       log')
  | inr tempCredentials =>
      match wire.staticCredentials tempCredentials with
      | None => (Panic, log')
      | Some static =>
          match LoadAssumedConfig (wire.rest svc) static with
          | Some err =>
              (Exit (Fatal "error when creating temporary config from the assumed role credentials"
                           [("role_arn", roleARN); zapError err]), log')
          | None => wire.listUsersLoop svc fuel static accountId None users log'
          end
      end
  end.
Proof.
  unfold wire.enumerateAccount. cbn. unfold mbind, Run_bind, indexed, remote. cbn.
  destruct (wire.AssumeRole svc _) as [err|out]; [done|].
  unfold wire.deref, indexed. destruct (wire.staticCredentials out) as [static|]; [|done].
  cbn. by destruct (LoadAssumedConfig (wire.rest svc) static).
Qed.

Lemma mapM_newInputUser_None client accountId (users : list wire.User) :
  mapM (wire.newInputUser client accountId) users = None ↔
  ∃ user, user ∈ users ∧ wire.UserName user = None.
Proof.
  induction users as [|[[userName|]] users IH].
  - split; [done|]. by intros (? & ?%elem_of_nil & _).
  - cbn. destruct (mapM _ users) as [l|] eqn:E.
    + split; [done|]. intros (user & [->|Hin]%elem_of_cons & Hnil); [done|].
      assert (Some l = None) as H; [|done]. apply IH. by exists user.
    + split; [|done]. intros _. destruct IH as [IH _].
      destruct (IH eq_refl) as (user & Hin & Hnil). exists user. split; [by right|done].
  - split; [|done]. intros _. eexists. split; [by left|done].
Qed.

Lemma panicsOnNil_ret {A} svc (a : A) : panicsOnNil svc (mret a).
Proof.
  intros log. exists []. split; [by rewrite app_nil_r|]. left. by split.
Qed.

Lemma panicsOnNil_bind {A B} svc (m : Run A) (k : A → Run B) :
  panicsOnNil svc m → (∀ a, panicsOnNil svc (k a)) → panicsOnNil svc (m ≫= k).
Proof.
  intros Hm Hk log. destruct (Hm log) as (calls1 & Hlog1 & Hcase1).
  unfold mbind, Run_bind. destruct (m log) as [r log1] eqn:E. cbn in Hlog1. subst log1.
  destruct r as [a|f| |]; cbn in Hcase1.
  2-4: exists calls1; split; [done|]; cbn;
       destruct Hcase1 as [[Hr ?]|[Hr ?]]; [left|right]; (split; [|done]);
       first [done|discriminate Hr].
  destruct Hcase1 as [[_ Hall1]|[[=] _]].
  destruct (Hk a (log ++ calls1)) as (calls2 & Hlog2 & Hcase2).
  exists (calls1 ++ calls2). split; [by rewrite Hlog2, app_assoc|].
  destruct Hcase2 as [[Hr Hall2]|(Hr & before & c & -> & Hb & Hc)].
  - left. split; [done|]. by apply Forall_app.
  - right. split; [done|]. exists (calls1 ++ before), c.
    split_and!; [by rewrite app_assoc|by apply Forall_app|done].
Qed.

Lemma panicsOnNil_listUsersLoop svc fuel client accountId marker users :
  panicsOnNil svc (wire.listUsersLoop svc fuel client accountId marker users).
Proof.
  revert marker users. induction fuel as [|fuel IH]; intros marker users log.
  { exists []. split; [by rewrite app_nil_r|]. left. by split. }
  rewrite wire_listUsersLoop_S. cbn zeta.
  destruct (wire.ListUsers svc client marker) as [err|out] eqn:E.
  { exists [CallListUsers client marker]. split; [done|]. left. split; [done|].
    constructor; [|done]. intros (out & ? & Hout & _). cbn in Hout. congruence. }
  destruct (mapM _ _) as [appended|] eqn:Hnames.
  - assert (¬ wire.nilIn svc (CallListUsers client marker)) as Hset.
    { intros (out' & user & Hout & Hin & Hnil). rewrite E in Hout. injection Hout as <-.
      assert (mapM (wire.newInputUser client accountId) (wire.Users out) = None) as H.
      { apply mapM_newInputUser_None. by exists user. }
      congruence. }
    destruct (wire.IsTruncated out).
    + destruct (IH (wire.Marker out) (users ++ appended)
                  (log ++ [CallListUsers client marker])) as (calls & Hlog & Hcase).
      exists (CallListUsers client marker :: calls).
      split; [by rewrite Hlog, <-app_assoc|].
      destruct Hcase as [[Hr Hall]|(Hr & before & c & -> & Hb & Hc)].
      * left. split; [done|]. by constructor.
      * right. split; [done|]. exists (CallListUsers client marker :: before), c.
        split_and!; [done|by constructor|done].
    + exists [CallListUsers client marker]. split; [done|]. left. split; [done|].
      by repeat constructor.
  - exists [CallListUsers client marker]. split; [done|]. right. split; [done|].
    exists [], (CallListUsers client marker). split_and!; [done..|].
    apply mapM_newInputUser_None in Hnames as (user & Hin & Hnil). by exists out, user.
Qed.

Lemma panicsOnNil_enumerateAccount svc fuel record users :
  2 ≤ length record → panicsOnNil svc (wire.enumerateAccount svc fuel record users).
Proof.
  intros Hlen log. destruct record as [|accountId [|roleName rest]]; [cbn in Hlen; lia..|].
  rewrite wire_enumerateAccount_eq. cbn zeta.
  set (roleARN := "arn:aws:iam::" +:+ accountId +:+ ":role/" +:+ roleName).
  destruct (wire.AssumeRole svc roleARN) as [err|out] eqn:E.
  { exists [CallAssumeRole roleARN]. split; [done|]. left. split; [done|].
    constructor; [|done]. intros (out & Hout & _). cbn in Hout. congruence. }
  destruct (wire.staticCredentials out) as [static|] eqn:Hstatic.
  - assert (¬ wire.nilIn svc (CallAssumeRole roleARN)) as Hset.
    { intros (out' & Hout & Hnil). rewrite E in Hout. injection Hout as <-. congruence. }
    destruct (LoadAssumedConfig (wire.rest svc) static).
    + exists [CallAssumeRole roleARN]. split; [done|]. left. split; [done|].
      by repeat constructor.
    + destruct (panicsOnNil_listUsersLoop svc fuel static accountId None users
                  (log ++ [CallAssumeRole roleARN])) as (calls & Hlog & Hcase).
      exists (CallAssumeRole roleARN :: calls).
      split; [by rewrite Hlog, <-app_assoc|].
      destruct Hcase as [[Hr Hall]|(Hr & before & c & -> & Hb & Hc)].
      * left. split; [done|]. by constructor.
      * right. split; [done|]. exists (CallAssumeRole roleARN :: before), c.
        split_and!; [done|by constructor|done].
  - exists [CallAssumeRole roleARN]. split; [done|]. right. split; [done|].
    exists [], (CallAssumeRole roleARN). split_and!; [done..|]. by exists out.
Qed.

Lemma panicsOnNil_enumerateAccounts svc fuel records users :
  Forall (λ record, 2 ≤ length record) records →
  panicsOnNil svc (wire.enumerateAccounts svc fuel records users).
Proof.
  intros Hrecords. revert users.
  induction Hrecords as [|record records Hrecord _ IH]; intros users.
  - apply panicsOnNil_ret.
  - cbn [wire.enumerateAccounts]. apply panicsOnNil_bind; [|done].
    by apply panicsOnNil_enumerateAccount.
Qed.

Lemma panicsOnNil_enumerateUsers svc fuel opts :
  panicsOnNil svc (wire.enumerateUsers svc fuel opts).
Proof.
  unfold wire.enumerateUsers.
  destruct (LoadDefaultConfig _ _).
  { intros log. exists []. split; [by rewrite app_nil_r|]. left. by split. }
  destruct (getAccountRoleListFromCSV _ _) as [err|records] eqn:Hget.
  { intros log. exists []. split; [by rewrite app_nil_r|]. left. by split. }
  apply panicsOnNil_enumerateAccounts. apply read_wellFormed in Hget.
  eapply Forall_impl; [exact Hget|].
  by intros record (accountId & roleName & -> & _).
Qed.

(** With every pointer set, this is the enumeration over answers
    without pointers. *)
Lemma allSet_names client accountId (users : list iam.User) :
  mapM (wire.newInputUser client accountId)
       ((λ user, {| wire.UserName := Some (iam.UserName user) |}) <$> users) =
  Some (newInputUser client accountId <$> users).
Proof.
  induction users as [|user users IH]; [done|].
  cbn [fmap list_fmap]. cbn. cbn in IH. by rewrite IH.
Qed.

Lemma allSet_listUsersLoop world fuel client accountId marker users log :
  wire.listUsersLoop (allSet world) fuel client accountId marker users log =
  listUsersLoop world fuel client accountId marker users log.
Proof.
  revert marker users log. induction fuel as [|fuel IH]; intros marker users log; [done|].
  rewrite wire_listUsersLoop_S, listUsersLoop_S. cbn zeta. cbn [allSet wire.ListUsers].
  destruct (ListUsers world client marker) as [err|out]; [done|].
  cbn [wire.Users wire.IsTruncated wire.Marker]. rewrite allSet_names.
  destruct (iam.usersIsTruncated out); [apply IH|done].
Qed.

Lemma allSet_enumerateAccounts world fuel records users log :
  Forall (λ record, 2 ≤ length record) records →
  wire.enumerateAccounts (allSet world) fuel records users log =
  enumerateAccounts world fuel records users log.
Proof.
  intros Hrecords. revert users log.
  induction Hrecords as [|record records Hrecord _ IH]; intros users log; [done|].
  cbn [wire.enumerateAccounts enumerateAccounts]. unfold mbind, Run_bind.
  assert (wire.enumerateAccount (allSet world) fuel record users log =
          enumerateAccount world fuel record users log) as ->.
  { destruct record as [|accountId [|roleName rest]]; [cbn in Hrecord; lia..|].
    rewrite wire_enumerateAccount_eq, enumerateAccount_eq. cbn zeta.
    cbn [allSet wire.AssumeRole].
    destruct (AssumeRole world _) as [err|[? ? ?]]; [done|].
    cbn. destruct (LoadAssumedConfig world _); [done|]. apply allSet_listUsersLoop. }
  destruct (enumerateAccount world fuel record users log) as [[users'|f| |] log'];
    first [done|apply IH].
Qed.

(** X3.  [getAccountId] and [getRoleARN] index the record without a
    check of its length; [main] dereferences the credentials of an
    AssumeRole answer, their three fields and the name of every listed
    user without a check.  Of these only a nil pointer can make the
    enumeration panic: since every record has passed the validation
    before it is indexed, the enumeration panics exactly when one of its
    calls was answered with a nil pointer in one of these places; that
    call is then the last call made.  When every pointer is set, the
    enumeration is [enumerateUsers], and it does not panic. *)
Theorem enumeration_panics_on_nil_only (svc : wire.Service) (fuel : nat)
    (opts : options) (r : result (list inputUser)) (calls : list remoteCall) :
  wire.enumerateUsers svc fuel opts [] = (r, calls) →
  (∀ record, getAccountId record = None ↔ record = []) ∧
  (∀ record, getRoleARN record = None ↔ length record < 2) ∧
  (r = Panic ↔ ∃ c, c ∈ calls ∧ wire.nilIn svc c) ∧
  (∀ c, c ∈ calls → wire.nilIn svc c →
     ∃ before, calls = before ++ [c] ∧ Forall (λ c', ¬ wire.nilIn svc c') before) ∧
  (∀ world,
     svc = allSet world →
     enumerateUsers world fuel opts [] = (r, calls) ∧ r ≠ Panic).
Proof.
  intros Hrun.
  destruct (panicsOnNil_enumerateUsers svc fuel opts []) as (calls' & Hlog & Hcase).
  rewrite Hrun in Hlog, Hcase. cbn in Hlog, Hcase. subst calls'.
  assert (∀ world c, ¬ wire.nilIn (allSet world) c) as Hset.
  { intros world [roleArn|client marker|]; cbn; [| |by intros []].
    - intros (out & Hout & Hnil). destruct (AssumeRole world roleArn); [done|].
      injection Hout as <-. done.
    - intros (out & user & Hout & Hin & Hnil).
      destruct (ListUsers world client marker); [done|]. injection Hout as <-.
      cbn in Hin. apply list_elem_of_fmap in Hin as (? & -> & _). done. }
  split_and!.
  - intros [|? ?]; by split.
  - intros [|? [|? ?]]; cbn; split; (done || lia).
  - destruct Hcase as [[Hr Hall]|(Hr & before & c & -> & Hb & Hc)].
    + split; [done|]. intros (c & Hin & Hnil).
      rewrite Forall_forall in Hall. by destruct (Hall c Hin).
    + split; [|done]. intros _. exists c. split; [|done].
      apply elem_of_app. right. by left.
  - intros c Hin Hnil.
    destruct Hcase as [[Hr Hall]|(Hr & before & c' & -> & Hb & Hc)].
    + rewrite Forall_forall in Hall. by destruct (Hall c Hin).
    + apply elem_of_app in Hin as [Hin|Hin%list_elem_of_singleton].
      * rewrite Forall_forall in Hb. by destruct (Hb c Hin).
      * subst c'. by exists before.
  - intros world ->. split.
    + rewrite <-Hrun. unfold wire.enumerateUsers, enumerateUsers. cbn [allSet wire.rest].
      destruct (LoadDefaultConfig world _); [done|].
      destruct (getAccountRoleListFromCSV _ _) as [err|records] eqn:Hget; [done|].
      symmetry. apply allSet_enumerateAccounts. apply read_wellFormed in Hget.
      eapply Forall_impl; [exact Hget|].
      by intros record (accountId & roleName & -> & _).
    + destruct Hcase as [[Hr _]|(_ & before & c & _ & _ & Hc)]; [done|].
      by destruct (Hset world c).
Qed.

Lemma nameless_panics :
  wire.enumerateUsers Cases.nameless 5 defaultOptions [] =
  (Panic, [CallAssumeRole "arn:aws:iam::111111111111:role/ReadOnly";
           CallListUsers Sample.creds None]).
Proof. reflexivity. Qed.

Lemma enumeration_panics_on_nil_only_witness :
  (@Panic (list inputUser) = Panic ↔
   ∃ c, c ∈ [CallAssumeRole "arn:aws:iam::111111111111:role/ReadOnly";
             CallListUsers Sample.creds None] ∧
        wire.nilIn Cases.nameless c) ∧
  (∀ c, c ∈ [CallAssumeRole "arn:aws:iam::111111111111:role/ReadOnly";
             CallListUsers Sample.creds None] →
        wire.nilIn Cases.nameless c →
        ∃ before,
          [CallAssumeRole "arn:aws:iam::111111111111:role/ReadOnly";
           CallListUsers Sample.creds None] = before ++ [c] ∧
          Forall (λ c', ¬ wire.nilIn Cases.nameless c') before).
Proof.
  destruct (enumeration_panics_on_nil_only Cases.nameless 5 defaultOptions _ _
              nameless_panics) as (_ & _ & Hiff & Hlast & _).
  exact (conj Hiff Hlast).
Defined.
